(** * noise-toy: the numeric engine of [script.js]

    A shallow embedding of the Wichmann-Hill generator, the matrix (grid)
    helpers, the blob kernel and the per-frame update of [script.js],
    followed by the properties of the specification that were checked
    against it.

    Modelling choices, all taken from the source:
    - a JavaScript Number is a binary64 float: Rocq's primitive [float],
      whose operations are specified by [SpecFloat] through [FloatAxioms];
    - a cell holds a Number or [undefined] (a hole or an out-of-range read);
    - a matrix is a JavaScript array carrying [width] and [height]: its
      integer-keyed properties are a finite map from [Z], next to its
      [length]; a write past the end extends the array, a write at a
      negative key creates a plain property that [slice] does not copy;
    - exceptions ([assert], [new Array] with an invalid length, [reduce] of
      an empty array) are results in an error monad;
    - loops over [x] and [y] are folds over [seqZ 0 width], [seqZ 0 height];
    - [addMatrix] and [blitMatrix] mutate their destination: the model
      passes the destination in and returns the updated one (source and
      destination are distinct objects at every call of the program). *)

From Stdlib Require Import ZArith Lia Floats Bool.
From stdpp Require Import base option list gmap.

Local Open Scope Z_scope.

(** ** JavaScript numbers *)

Module Num.

(** The Number nearest to an integer (what an integer literal or an
    integer-valued loop counter denotes). *)
Definition Z2F (z : Z) : float :=
  SF2Prim (binary_normalize prec emax z 0 false).

(** [Number.isInteger]. *)
Definition isInteger (f : float) : bool :=
  match Prim2SF f with
  | S754_zero _ => true
  | S754_finite _ m e => (0 <=? e) || (Z.pos m mod 2 ^ (- e) =? 0)
  | _ => false
  end.

(** [n % d] on Numbers: the remainder of the truncating division,
    computed exactly, with the sign of the dividend. *)
Definition rem (n d : float) : float :=
  match Prim2SF n, Prim2SF d with
  | S754_nan, _ | _, S754_nan => nan
  | S754_infinity _, _ => nan
  | _, S754_zero _ => nan
  | _, S754_infinity _ => n
  | S754_zero _, _ => n
  | S754_finite sn mn en, S754_finite _ md ed =>
      let e := Z.min en ed in
      let r := (Z.pos mn * 2 ^ (en - e)) mod (Z.pos md * 2 ^ (ed - e)) in
      if r =? 0 then (if sn then neg_zero else zero)
      else SF2Prim (binary_normalize prec emax (cond_Zopp sn r) e false)
  end.

(** The integer part of a finite Number, truncated towards zero. *)
Definition trunc (f : float) : Z :=
  match Prim2SF f with
  | S754_finite s m e =>
      cond_Zopp s (if 0 <=? e then Z.pos m * 2 ^ e else Z.pos m / 2 ^ (- e))
  | _ => 0
  end.

(** [f | 0]: ToInt32. *)
Definition toInt32 (f : float) : Z :=
  let k := trunc f mod 2 ^ 32 in
  if 2 ^ 31 <=? k then k - 2 ^ 32 else k.

(** [x ** 2]. ECMAScript leaves [**] implementation-approximated; for the
    exponent 2 the engines return the correctly rounded square. *)
Definition sq (x : float) : float := (x * x)%float.

Definition is_finite (f : float) : bool :=
  match Prim2SF f with
  | S754_zero _ | S754_finite _ _ _ => true
  | _ => false
  end.

End Num.

(** ** Values and the operators the program applies to them *)

Inductive value : Type :=
  | Undefined
  | Number (f : float).

Definition ToNumber (v : value) : float :=
  match v with
  | Undefined => nan
  | Number f => f
  end.

Definition js_add (a b : value) : value := Number (ToNumber a + ToNumber b)%float.
Definition js_mul (a b : value) : value := Number (ToNumber a * ToNumber b)%float.
Definition js_div (a b : value) : value := Number (ToNumber a / ToNumber b)%float.
Definition js_rem (a b : value) : value := Number (Num.rem (ToNumber a) (ToNumber b)).
(** [a > b], [a >= b], [a <= b]: false as soon as an operand is NaN. *)
Definition js_gt (a b : value) : bool := (ToNumber b <? ToNumber a)%float.
Definition js_ge (a b : value) : bool := (ToNumber b <=? ToNumber a)%float.
Definition js_le (a b : value) : bool := (ToNumber a <=? ToNumber b)%float.

Definition Number_isInteger (v : value) : bool :=
  match v with
  | Undefined => false
  | Number f => Num.isInteger f
  end.

Definition num (z : Z) : value := Number (Num.Z2F z).

(** ** Exceptions *)

Inductive error : Type :=
  | AssertionFailed   (* [assert]: [throw new Error("assertion failed ...")] *)
  | RangeError        (* [new Array(n)] with an invalid length *)
  | TypeError.        (* [reduce] of an empty array with no initial value *)

Inductive result (A : Type) : Type :=
  | Ok (a : A)
  | Throw (e : error).
Arguments Ok {A} a.
Arguments Throw {A} e.

#[export] Instance result_ret : MRet result := λ A a, Ok a.
#[export] Instance result_bind : MBind result := λ A B f r,
  match r with
  | Ok a => f a
  | Throw e => Throw e
  end.
#[export] Instance result_fmap : FMap result := λ A B f r,
  match r with
  | Ok a => Ok (f a)
  | Throw e => Throw e
  end.

Definition assert (b : bool) : result unit :=
  if b then Ok tt else Throw AssertionFailed.

(** ** The Wichmann-Hill generator *)

Definition validateWichmannHillStateInteger (x : value) : result value :=
  _ ← assert (Number_isInteger x);
  _ ← assert (js_ge x (num 1));
  _ ← assert (js_le x (num 30000));
  Ok x.

Record WichmannHillGenerator : Type := Generator {
  s1 : value;
  s2 : value;
  s3 : value;
}.

(** [new WichmannHillGenerator(state)]: a missing entry reads [undefined]. *)
Definition constructor (state : list value) : WichmannHillGenerator :=
  {| s1 := default Undefined (state !! 0%nat);
     s2 := default Undefined (state !! 1%nat);
     s3 := default Undefined (state !! 2%nat) |}.

(** [WichmannHillGenerator.with(state)], for a dense seed array. *)
Definition with_ (state : list value) : result WichmannHillGenerator :=
  st ← mapM validateWichmannHillStateInteger state;
  Ok (constructor st).

Definition next (g : WichmannHillGenerator) : WichmannHillGenerator * value :=
  let s1' := js_rem (js_mul (num 171) (s1 g)) (num 30269) in
  let s2' := js_rem (js_mul (num 172) (s2 g)) (num 30307) in
  let s3' := js_rem (js_mul (num 170) (s3 g)) (num 30323) in
  ({| s1 := s1'; s2 := s2'; s3 := s3' |},
   js_rem (js_add (js_add (js_div s1' (num 30269)) (js_div s2' (num 30307)))
                  (js_div s3' (num 30323)))
          (Number 1)).


(** ** Matrices *)

(** A JavaScript array with [width] and [height] properties. [cells] holds the
    integer-keyed properties, [len] is [length]. *)
Record Matrix : Type := mkMatrix {
  cells : gmap Z value;
  len : Z;
  width : Z;
  height : Z;
}.

(** Keys that are array indices: writing one at or past [length] extends the
    array. *)
Definition array_index (i : Z) : bool := (0 <=? i) && (i <? 2 ^ 32 - 1).

(** [array[i]] *)
Definition get (m : Matrix) (i : Z) : value := default Undefined (cells m !! i).

(** [array[i] = v] *)
Definition put (m : Matrix) (i : Z) (v : value) : Matrix :=
  {| cells := <[i := v]> (cells m);
     len := if array_index i then Z.max (len m) (i + 1) else len m;
     width := width m;
     height := height m |}.

(** [new Array(n).fill(v)] *)
Definition filled (n : Z) (v : value) : gmap Z value :=
  list_to_map ((λ i, (i, v)) <$> seqZ 0 n).

(** [initialValue = 0]: the default replaces a missing or [undefined]
    argument. *)
Definition makeMatrix (width height : Z) (initialValue : value) : result Matrix :=
  let initialValue := match initialValue with Undefined => num 0 | v => v end in
  let n := width * height in
  if (0 <=? n) && (n <? 2 ^ 32) then
    Ok {| cells := filled n initialValue; len := n;
          width := width; height := height |}
  else Throw RangeError.

(** [matrix.slice()] copies the elements below [length] only. *)
Definition copyMatrix (matrix : Matrix) : Matrix :=
  {| cells := filter (λ kv, 0 <= kv.1 < len matrix) (cells matrix);
     len := len matrix;
     width := width matrix;
     height := height matrix |}.

Definition getXY (matrix : Matrix) (x y : Z) : value :=
  get matrix (y * height matrix + x).

Definition setXY (matrix : Matrix) (x y : Z) (v : value) : Matrix :=
  put matrix (y * height matrix + x) v.

(** The elements [reduce] visits: the present ones, in index order. *)
Definition elements (array : Matrix) : list value :=
  omap (λ i, cells array !! i) (seqZ 0 (len array)).

Definition maxValueOf (array : Matrix) : result value :=
  match elements array with
  | [] => Throw TypeError
  | v :: vs => Ok (foldl (λ x y, if js_gt x y then x else y) v vs)
  end.

Definition mapMatrix (matrix : Matrix) (fn : value → Z → Z → value) : Matrix :=
  foldl (λ newMatrix x,
           foldl (λ newMatrix y,
                    setXY newMatrix x y (fn (getXY matrix x y) x y))
                 newMatrix (seqZ 0 (height newMatrix)))
        (copyMatrix matrix) (seqZ 0 (width (copyMatrix matrix))).

Definition normalizeMatrix (matrix : Matrix) : result Matrix :=
  max ← maxValueOf matrix;
  Ok (mapMatrix matrix (λ x _ _, js_div x max)).

Definition blitMatrix (matrixSrc matrixDst : Matrix) (offsetX offsetY : Z) : Matrix :=
  foldl (λ matrixDst x,
           foldl (λ matrixDst y,
                    if width matrixDst <=? x + offsetX then matrixDst
                    else if height matrixDst <=? y + offsetY then matrixDst
                    else setXY matrixDst (x + offsetX) (y + offsetY)
                               (getXY matrixSrc x y))
                 matrixDst (seqZ 0 (height matrixSrc)))
        matrixDst (seqZ 0 (width matrixSrc)).

Definition addMatrix (matrixSrc matrixDst : Matrix) (offsetX offsetY : Z) : Matrix :=
  foldl (λ matrixDst x,
           foldl (λ matrixDst y,
                    if width matrixDst <=? x + offsetX then matrixDst
                    else if height matrixDst <=? y + offsetY then matrixDst
                    else
                      let oldValue := getXY matrixDst (x + offsetX) (y + offsetY) in
                      let newValue := getXY matrixSrc x y in
                      setXY matrixDst (x + offsetX) (y + offsetY)
                            (js_add oldValue newValue))
                 matrixDst (seqZ 0 (height matrixSrc)))
        matrixDst (seqZ 0 (width matrixSrc)).

(** ** The blob kernel *)

(** The literals [1.1] and [0.1] as the Numbers they denote. *)
Definition c1_1 : float := 0x1.199999999999ap+0%float.
Definition c0_1 : float := 0x1.999999999999ap-4%float.

(** The callback of the inner [mapMatrix] of [blob]. *)
Definition falloff (v : value) (x y : Z) : value :=
  let cap := sqrt (Num.sq 8 + Num.sq 8) in
  let xOff := (Num.Z2F x - 8)%float in
  let yOff := (Num.Z2F y - 8)%float in
  Number (Num.sq (1 - sqrt (Num.sq xOff + Num.sq yOff) / cap * c1_1))%float.

Definition blob : result Matrix :=
  m ← makeMatrix 17 17 Undefined;
  n ← normalizeMatrix (mapMatrix m falloff);
  Ok (mapMatrix n (λ x _ _, js_mul x (Number c0_1))).

(** ** The frame update *)

Section Animate.

(** [Math.pow], behind [**] with a run-time exponent: left to the
    implementation by ECMAScript, so the frame update is parametric in it. *)
Variable pow : float → float → float.

(** The variables of the script: the persistent matrix and the generator. *)
Record state : Type := mkState {
  matrix : Matrix;
  rng : WichmannHillGenerator;
}.

(** [nextBlob(_ => rng.next())]: two draws, then the stamp. *)
Definition nextBlob (st : state) : result state :=
  let '(g, r1) := next (rng st) in
  let x := Num.toInt32 (ToNumber (js_mul r1 (num (width (matrix st))))) in
  let '(g, r2) := next g in
  let y := Num.toInt32 (ToNumber (js_mul r2 (num (height (matrix st))))) in
  b ← blob;
  Ok {| matrix := addMatrix b (matrix st) (x - 16) (y - 8); rng := g |}.

Fixpoint repeat_nextBlob (n : nat) (st : state) : result state :=
  match n with
  | O => Ok st
  | S n => st ← nextBlob st; repeat_nextBlob n st
  end.

(** One run of [animate], up to the call of [requestAnimationFrame]:
    returns the matrix handed to [drawMatrix] and the new state. The three
    inputs are the Numbers read from the controls; [velocity] is an
    integer count. *)
Definition animate (contrast : float) (velocity : Z) (attenuationInput : float)
    (st : state) : result (Matrix * state) :=
  let attenuation := (1 - pow (1 - attenuationInput) 8)%float in
  st ← repeat_nextBlob (Z.to_nat velocity) st;
  n ← normalizeMatrix (matrix st);
  let drawn := mapMatrix n (λ v _ _, Number (pow (ToNumber v) contrast)) in
  Ok (drawn,
      {| matrix := mapMatrix (matrix st) (λ v _ _, js_mul v (Number attenuation));
         rng := rng st |}).

(** The click handler of the button. *)
Definition renormalize (st : state) : result state :=
  n ← normalizeMatrix (matrix st);
  Ok {| matrix := n; rng := rng st |}.

End Animate.

(** * Auxiliary definitions for the statements *)

(** ** Loops as lists of cell writes *)

(** The coordinates a double loop visits, in the order of the source:
    [x] outermost. *)
Definition coords (w h : Z) : list (Z * Z) :=
  x ← seqZ 0 w; (λ y, (x, y)) <$> seqZ 0 h.

(** The flat index both accessors compute. *)
Definition index (m : Matrix) (x y : Z) : Z := y * height m + x.

(** A sequence of plain writes [array[i] = v]. *)
Definition puts (ws : list (Z * value)) (m : Matrix) : Matrix :=
  foldl (λ m w, put m w.1 w.2) m ws.

(** One accumulating write. *)
Definition add1 (m : Matrix) (w : Z * value) : Matrix :=
  put m w.1 (js_add (get m w.1) w.2).

(** A sequence of accumulating writes [array[i] = array[i] + v]. *)
Definition adds (ws : list (Z * value)) (m : Matrix) : Matrix :=
  foldl add1 m ws.

(** The writes of [mapMatrix]. *)
Definition map_writes (m : Matrix) (fn : value → Z → Z → value) : list (Z * value) :=
  (λ p, (index m p.1 p.2, fn (getXY m p.1 p.2) p.1 p.2))
    <$> coords (width m) (height m).

(** The source coordinates that pass the two upper-bound tests of
    [blitMatrix] and [addMatrix]. *)
Definition passes (dst : Matrix) (offsetX offsetY : Z) (p : Z * Z) : bool :=
  negb (width dst <=? p.1 + offsetX) && negb (height dst <=? p.2 + offsetY).

(** The writes of [addMatrix] (and of [blitMatrix]): destination index and
    source cell. *)
Definition blit_writes (src dst : Matrix) (offsetX offsetY : Z) : list (Z * value) :=
  (λ p, (index dst (p.1 + offsetX) (p.2 + offsetY), getXY src p.1 p.2))
    <$> filter (λ p, passes dst offsetX offsetY p = true)
               (coords (width src) (height src)).

(** The destination cells a stamp writes. *)
Definition written (src dst : Matrix) (offsetX offsetY : Z) : list Z :=
  (blit_writes src dst offsetX offsetY).*1.


(** In-range coordinates of a matrix. *)
Definition in_range (m : Matrix) (x y : Z) : Prop :=
  0 <= x < width m ∧ 0 <= y < height m.

(** The array literal [l] with [width] and [height] set to [w] and [h]. *)
Definition matrix_of_list (w h : Z) (l : list value) : Matrix :=
  {| cells := list_to_map (zip (seqZ 0 (Z.of_nat (length l))) l);
     len := Z.of_nat (length l);
     width := w;
     height := h |}.

(** The kernel profile as the specification words it:
    [(1 - distance / (cap * 1.1))²], the distance taken from (8,8). *)
Definition spec_falloff (x y : Z) : float :=
  let cap := sqrt (Num.sq 8 + Num.sq 8) in
  let xOff := (Num.Z2F x - 8)%float in
  let yOff := (Num.Z2F y - 8)%float in
  Num.sq (1 - sqrt (Num.sq xOff + Num.sq yOff) / (cap * c1_1))%float.

(** The kernel profile as the callback computes it: [/] and [*] associate
    to the left, so the ratio [distance / cap] is multiplied by 1.1. *)
Definition code_falloff (x y : Z) : float :=
  let cap := sqrt (Num.Z2F 128) in
  let xOff := (Num.Z2F x - 8)%float in
  let yOff := (Num.Z2F y - 8)%float in
  Num.sq (1 - sqrt (Num.sq xOff + Num.sq yOff) / cap * c1_1)%float.

(** ** Auxiliary definitions for binary64 arithmetic *)

(** A record is exact when no discarded bit was set. *)
Definition shr_exact (mrs : shr_record) : Prop :=
  shr_r mrs = false ∧ shr_s mrs = false.

(** What [shr_fexp] does to a mantissa, an exponent and a location. *)
Definition shr_fexp_rel (m e : Z) (l : location) (m' e' : Z) (l' : location) : Prop :=
  (fexp prec emax (Zdigits2 m + e) <= e ∧ m' = m ∧ e' = e ∧ l' = l)
  ∨ (e < fexp prec emax (Zdigits2 m + e)
     ∧ e' = fexp prec emax (Zdigits2 m + e)
     ∧ m' = m / 2 ^ (e' - e)
     ∧ (l = loc_Exact → m mod 2 ^ (e' - e) = 0 → l' = loc_Exact)).

(** A Number that is not NaN, in units of [2^-1074]; the infinities are put
    beyond every finite Number. *)
Definition SFval (x : spec_float) : Z :=
  match x with
  | S754_zero _ => 0
  | S754_finite s m e => cond_Zopp s (Z.pos m * 2 ^ (e + 1074))
  | S754_infinity s => cond_Zopp s (2 ^ 2100)
  | S754_nan => 0
  end.

(** The value of a Number, in units of [2^-1074]. *)
Definition Fval (f : float) : Z := SFval (Prim2SF f).

(** Zero or a positive finite Number. *)
Definition nonneg (f : float) : bool :=
  match Prim2SF f with
  | S754_zero false | S754_finite false _ _ => true
  | _ => false
  end.

(** ** Auxiliary definitions for the statements on normalization *)

(** A square matrix whose cells are all finite Numbers. *)
Definition finite_square (m : Matrix) : Prop :=
  0 <= width m ∧ width m = height m ∧ len m = width m * height m
  ∧ ∀ i, 0 <= i < len m →
      ∃ f, cells m !! i = Some (Number f) ∧ Num.is_finite f = true.

(** The step of the [reduce] in [maxValueOf]. *)
Definition max_step (x y : value) : value := if js_gt x y then x else y.

(** A Number other than NaN. *)
Definition numeric (v : value) : Prop :=
  ∃ f, v = Number f ∧ Prim2SF f ≠ S754_nan.

(** ** Auxiliary definitions for the statements on the generator *)

(** A seed component the constructor accepts: an integer from 1 to 30000. *)
Definition valid_seed (x : value) : Prop :=
  ∃ z, 1 <= z <= 30000 ∧ x = num z.

(** ** Auxiliary definitions for further properties *)

(** [n] successive draws: the generator afterwards and the values drawn, in
    order. *)
Fixpoint draws (n : nat) (g : WichmannHillGenerator)
    : WichmannHillGenerator * list value :=
  match n with
  | O => (g, [])
  | S n =>
      let '(g', r) := next g in
      let '(g'', rs) := draws n g' in
      (g'', r :: rs)
  end.

(** A state of three nonzero residues of the three moduli. *)
Definition residues (g : WichmannHillGenerator) : Prop :=
  ∃ z1 z2 z3, 1 <= z1 < 30269 ∧ 1 <= z2 < 30307 ∧ 1 <= z3 < 30323
    ∧ g = {| s1 := num z1; s2 := num z2; s3 := num z3 |}.

(** A Number [r] with [0 <= r < 1]. *)
Definition unit_interval (v : value) : Prop :=
  ∃ r, v = Number r ∧ (0 <=? r)%float = true ∧ (r <? 1)%float = true.

(** A state with a component that is [undefined] or NaN. *)
Definition poisoned (g : WichmannHillGenerator) : Prop :=
  ToNumber (s1 g) = nan ∨ ToNumber (s2 g) = nan ∨ ToNumber (s3 g) = nan.

(** Every element below [length] is present (no hole). *)
Definition dense (m : Matrix) : Prop :=
  ∀ i, 0 <= i < len m → is_Some (cells m !! i).

(** * Properties *)

Lemma bind_Ok {A B} (a : A) (f : A → result B) : (Ok a ≫= f) = f a.
Proof. reflexivity. Qed.

(** ** Loops as lists of cell writes *)

Lemma foldl_pairs {A} (f : A → Z → Z → A) (a : A) (xs ys : list Z) :
  foldl (λ a x, foldl (λ a y, f a x y) a ys) a xs
  = foldl (λ a p, f a p.1 p.2) a (x ← xs; (λ y, (x, y)) <$> ys).
Proof.
  revert a. induction xs as [|x xs IH]; intros a; simpl; [done|].
  rewrite foldl_app, foldl_fmap. simpl. apply IH.
Qed.

(** A fold whose step is only known on states satisfying an invariant. *)
Lemma foldl_inv {A B} (P : A → Prop) (f g : A → B → A) (l : list B) (a : A) :
  P a → (∀ a b, P a → f a b = g a b) → (∀ a b, P a → P (g a b)) →
  foldl f a l = foldl g a l ∧ P (foldl g a l).
Proof.
  intros Ha Hfg Hg. revert a Ha.
  induction l as [|b l IH]; intros a Ha; simpl; [done|].
  rewrite Hfg by done. apply IH, Hg, Ha.
Qed.

(** A double loop, its inner bound read from the accumulator, as one fold
    over the coordinates, under an invariant of the accumulator. *)
Lemma loop_inv {A} (P : A → Prop) (body body' : A → Z → Z → A)
    (hs : A → list Z) (xs ys : list Z) (a : A) :
  P a →
  (∀ a, P a → hs a = ys) →
  (∀ a x y, P a → body a x y = body' a x y) →
  (∀ a x y, P a → P (body' a x y)) →
  foldl (λ a x, foldl (λ a y, body a x y) a (hs a)) a xs
  = foldl (λ a p, body' a p.1 p.2) a (x ← xs; (λ y, (x, y)) <$> ys).
Proof.
  intros Ha Hhs Hbody HP.
  rewrite <- foldl_pairs.
  eapply (foldl_inv P); [done| |].
  - intros a' x Ha'. rewrite Hhs by done.
    eapply (foldl_inv P); [done| |]; intros; by auto.
  - intros a' x Ha'.
    eapply (foldl_inv P); [done| |]; intros; by auto.
Qed.

Lemma foldl_guard {A B} (c : B → bool) (g : A → B → A) (a : A) (l : list B) :
  foldl (λ a b, if c b then g a b else a) a l
  = foldl g a (filter (λ b, c b = true) l).
Proof.
  revert a. induction l as [|b l IH]; intros a; [done|].
  rewrite filter_cons. simpl. destruct (c b) eqn:Hc.
  - rewrite decide_True by done. apply IH.
  - rewrite decide_False by (by intros ?). apply IH.
Qed.

Lemma put_width m i v : width (put m i v) = width m.
Proof. done. Qed.
Lemma put_height m i v : height (put m i v) = height m.
Proof. done. Qed.

Lemma puts_dims ws m :
  width (puts ws m) = width m ∧ height (puts ws m) = height m.
Proof.
  revert m. induction ws as [|w ws IH]; intros m; [done|].
  simpl. destruct (IH (put m w.1 w.2)) as [-> ->]. done.
Qed.

Lemma adds_dims ws m :
  width (adds ws m) = width m ∧ height (adds ws m) = height m.
Proof.
  revert m. induction ws as [|w ws IH]; intros m; [done|].
  change (adds (w :: ws) m) with (adds ws (add1 m w)).
  destruct (IH (add1 m w)) as [-> ->]. done.
Qed.

(** [mapMatrix] is the copy followed by its writes. *)
Lemma mapMatrix_puts m fn :
  mapMatrix m fn = puts (map_writes m fn) (copyMatrix m).
Proof.
  unfold mapMatrix, puts, map_writes, coords. rewrite foldl_fmap. simpl.
  apply (loop_inv (λ a, height a = height m)
           (λ a x y, setXY a x y (fn (getXY m x y) x y))
           (λ a x y, put a (index m x y) (fn (getXY m x y) x y))
           (λ a, seqZ 0 (height a))); try done.
  - by intros a ->.
  - intros a x y Ha. unfold setXY, index. by rewrite Ha.
Qed.

(** [addMatrix] is its accumulating writes. *)
Lemma addMatrix_adds src dst ox oy :
  addMatrix src dst ox oy = adds (blit_writes src dst ox oy) dst.
Proof.
  unfold addMatrix, adds, blit_writes, coords. rewrite foldl_fmap. simpl.
  rewrite <- (foldl_guard (passes dst ox oy)
    (λ a p, put a (index dst (p.1 + ox) (p.2 + oy))
              (js_add (get a (index dst (p.1 + ox) (p.2 + oy)))
                      (getXY src p.1 p.2)))).
  apply (loop_inv (λ a, width a = width dst ∧ height a = height dst)
           (λ a x y,
              if width a <=? x + ox then a
              else if height a <=? y + oy then a
              else setXY a (x + ox) (y + oy)
                     (js_add (getXY a (x + ox) (y + oy)) (getXY src x y)))
           (λ a x y,
              if passes dst ox oy (x, y)
              then put a (index dst (x + ox) (y + oy))
                     (js_add (get a (index dst (x + ox) (y + oy)))
                             (getXY src x y))
              else a)
           (λ _, seqZ 0 (height src))); try done.
  - intros a x y [Hw Hh]. unfold passes, setXY, getXY, index. simpl.
    rewrite Hw, Hh.
    destruct (width dst <=? x + ox); [done|].
    destruct (height dst <=? y + oy); done.
  - intros a x y [Hw Hh]. destruct (passes dst ox oy (x, y)); done.
Qed.

(** [blitMatrix] is the same writes, overwriting. *)
Lemma blitMatrix_puts src dst ox oy :
  blitMatrix src dst ox oy = puts (blit_writes src dst ox oy) dst.
Proof.
  unfold blitMatrix, puts, blit_writes, coords. rewrite foldl_fmap. simpl.
  rewrite <- (foldl_guard (passes dst ox oy)
    (λ a p, put a (index dst (p.1 + ox) (p.2 + oy)) (getXY src p.1 p.2))).
  apply (loop_inv (λ a, width a = width dst ∧ height a = height dst)
           (λ a x y,
              if width a <=? x + ox then a
              else if height a <=? y + oy then a
              else setXY a (x + ox) (y + oy) (getXY src x y))
           (λ a x y,
              if passes dst ox oy (x, y)
              then put a (index dst (x + ox) (y + oy)) (getXY src x y)
              else a)
           (λ _, seqZ 0 (height src))); try done.
  - intros a x y [Hw Hh]. unfold passes, setXY, getXY, index. simpl.
    rewrite Hw, Hh.
    destruct (width dst <=? x + ox); [done|].
    destruct (height dst <=? y + oy); done.
  - intros a x y [Hw Hh]. destruct (passes dst ox oy (x, y)); done.
Qed.

(** ** Single writes *)

Lemma Matrix_eq (a b : Matrix) :
  cells a = cells b → len a = len b → width a = width b → height a = height b →
  a = b.
Proof. destruct a, b; simpl; by intros -> -> -> ->. Qed.

Lemma get_put m i v : get (put m i v) i = v.
Proof. unfold get, put; simpl. by rewrite lookup_insert_eq. Qed.

Lemma get_put_ne m i j v : i ≠ j → get (put m i v) j = get m j.
Proof. intros Hij. unfold get, put; simpl. by rewrite lookup_insert_ne. Qed.

Lemma put_put_ne m i j v w :
  i ≠ j → put (put m i v) j w = put (put m j w) i v.
Proof.
  intros Hij. apply Matrix_eq; simpl; try done.
  - by apply insert_insert_ne.
  - destruct (array_index i), (array_index j); lia.
Qed.

Lemma add1_comm m w w' :
  w.1 ≠ w'.1 → add1 (add1 m w) w' = add1 (add1 m w') w.
Proof.
  intros Hne. unfold add1.
  rewrite get_put_ne by done. rewrite (get_put_ne m (w'.1) (w.1)) by done.
  by apply put_put_ne.
Qed.

Lemma adds_cons w ws m : adds (w :: ws) m = adds ws (add1 m w).
Proof. done. Qed.

Lemma add1_adds w ws m :
  w.1 ∉ ws.*1 → add1 (adds ws m) w = adds ws (add1 m w).
Proof.
  revert m. induction ws as [|w' ws IH]; intros m Hw; [done|].
  rewrite fmap_cons, not_elem_of_cons in Hw. destruct Hw as [Hne Hw].
  rewrite !adds_cons, IH by done. by rewrite add1_comm.
Qed.

(** Two sequences of accumulating writes on disjoint cells commute. *)
Lemma adds_comm (A B : list (Z * value)) m :
  (∀ i, i ∈ A.*1 → i ∉ B.*1) → adds B (adds A m) = adds A (adds B m).
Proof.
  revert m. induction A as [|a A IH]; intros m Hd; [done|].
  rewrite !adds_cons, IH.
  - rewrite add1_adds; [done|]. apply Hd. rewrite fmap_cons. left.
  - intros i Hi. apply Hd. rewrite fmap_cons. by right.
Qed.

Lemma blit_writes_dims src dst dst' ox oy :
  width dst = width dst' → height dst = height dst' →
  blit_writes src dst ox oy = blit_writes src dst' ox oy.
Proof.
  intros Hw Hh. unfold blit_writes, passes, index. by rewrite Hw, Hh.
Qed.

Lemma addMatrix_dims src dst ox oy :
  width (addMatrix src dst ox oy) = width dst
  ∧ height (addMatrix src dst ox oy) = height dst.
Proof. rewrite addMatrix_adds. apply adds_dims. Qed.

(** ** Stamps on disjoint cells *)

(** C9: for every destination and any two stamps (source and offsets) whose
    sets of written destination cells are disjoint, [addMatrix] with stamp A
    then stamp B yields the same destination, in every cell and in its
    length, as stamp B then stamp A. *)
Theorem addMatrix_disjoint_comm (dst srcA srcB : Matrix) (oxA oyA oxB oyB : Z) :
  (∀ i, i ∈ written srcA dst oxA oyA → i ∉ written srcB dst oxB oyB) →
  addMatrix srcB (addMatrix srcA dst oxA oyA) oxB oyB
  = addMatrix srcA (addMatrix srcB dst oxB oyB) oxA oyA.
Proof.
  intros Hd.
  destruct (addMatrix_dims srcA dst oxA oyA) as [HwA HhA].
  destruct (addMatrix_dims srcB dst oxB oyB) as [HwB HhB].
  rewrite (addMatrix_adds srcB), (addMatrix_adds srcA (addMatrix _ _ _ _)).
  rewrite (blit_writes_dims srcB _ dst), (blit_writes_dims srcA _ dst) by done.
  rewrite !addMatrix_adds. by apply adds_comm.
Qed.

Lemma addMatrix_disjoint_comm_witness :
  let dst := matrix_of_list 3 3 (replicate 9 (num 0)) in
  let srcA := matrix_of_list 2 2 [num 1; num 2; num 3; num 4] in
  let srcB := matrix_of_list 1 1 [num 5] in
  (∀ i, i ∈ written srcA dst 0 0 → i ∉ written srcB dst 2 2)
  ∧ addMatrix srcB (addMatrix srcA dst 0 0) 2 2
    = addMatrix srcA (addMatrix srcB dst 2 2) 0 0.
Proof.
  assert (Hd : ∀ i,
    i ∈ written (matrix_of_list 2 2 [num 1; num 2; num 3; num 4])
          (matrix_of_list 3 3 (replicate 9 (num 0))) 0 0 →
    i ∉ written (matrix_of_list 1 1 [num 5])
          (matrix_of_list 3 3 (replicate 9 (num 0))) 2 2).
  { intros i Hi Hi'. vm_compute in Hi, Hi'.
    apply list_elem_of_singleton in Hi'. subst i.
    repeat (apply elem_of_cons in Hi as [Hi|Hi]; [done|]).
    by apply elem_of_nil in Hi. }
  split; [exact Hd|].
  exact (addMatrix_disjoint_comm _ _ _ 0 0 2 2 Hd).
Defined.

(** ** The coordinate-to-index mapping *)

Lemma getXY_setXY_same_index m x1 y1 x2 y2 v :
  index m x1 y1 = index m x2 y2 → getXY (setXY m x1 y1 v) x2 y2 = v.
Proof.
  unfold getXY, setXY, index. rewrite put_height. intros ->. apply get_put.
Qed.

(** C10, as the code has it: when [2 <= height < width], two distinct
    in-range coordinates share a flat index, so a [setXY] at one is read
    back by [getXY] at the other; when [width = height >= 0] the mapping is
    a bijection from the in-range coordinates onto [0, width*height). *)
Theorem index_collision_or_bijection (m : Matrix) :
  (2 <= height m < width m →
     ∃ x1 y1 x2 y2,
       in_range m x1 y1 ∧ in_range m x2 y2 ∧ (x1, y1) ≠ (x2, y2)
       ∧ index m x1 y1 = index m x2 y2
       ∧ ∀ m' v, width m' = width m → height m' = height m →
           getXY (setXY m' x1 y1 v) x2 y2 = v)
  ∧ (0 <= width m → width m = height m →
     (∀ x y, in_range m x y → 0 <= index m x y < width m * height m)
     ∧ (∀ x1 y1 x2 y2, in_range m x1 y1 → in_range m x2 y2 →
          index m x1 y1 = index m x2 y2 → (x1, y1) = (x2, y2))
     ∧ (∀ i, 0 <= i < width m * height m →
          ∃ x y, in_range m x y ∧ index m x y = i)).
Proof.
  split.
  - intros Hh. exists (height m), 0, 0, 1. unfold in_range, index.
    split; [lia|]. split; [lia|]. split; [intros [= Hx]; lia|].
    split; [lia|].
    intros m' v _ Hm'. apply getXY_setXY_same_index. unfold index. lia.
  - intros Hw Heq. unfold in_range, index. rewrite Heq in *.
    set (n := height m) in *. split; [|split].
    + intros x y [Hx Hy]. nia.
    + intros x1 y1 x2 y2 [Hx1 Hy1] [Hx2 Hy2] Hi.
      assert (y1 = y2) by nia. subst y2. f_equal. lia.
    + intros i Hi. assert (0 < n) by nia.
      exists (i mod n), (i / n).
      pose proof (Z.mod_pos_bound i n ltac:(lia)).
      pose proof (Z.div_mod i n ltac:(lia)).
      assert (0 <= i / n) by (apply Z.div_pos; lia).
      assert (i / n < n) by (apply Z.div_lt_upper_bound; lia).
      repeat split; lia.
Qed.

Lemma index_collision_or_bijection_witness :
  (2 <= height (matrix_of_list 3 2 (replicate 6 (num 0)))
        < width (matrix_of_list 3 2 (replicate 6 (num 0))))
  ∧ (0 <= width (matrix_of_list 2 2 (replicate 4 (num 0))))
  ∧ (width (matrix_of_list 2 2 (replicate 4 (num 0)))
     = height (matrix_of_list 2 2 (replicate 4 (num 0))))
  ∧ (∃ x1 y1 x2 y2,
       in_range (matrix_of_list 3 2 (replicate 6 (num 0))) x1 y1
       ∧ in_range (matrix_of_list 3 2 (replicate 6 (num 0))) x2 y2
       ∧ (x1, y1) ≠ (x2, y2)
       ∧ index (matrix_of_list 3 2 (replicate 6 (num 0))) x1 y1
         = index (matrix_of_list 3 2 (replicate 6 (num 0))) x2 y2)
  ∧ (∀ i, 0 <= i < 4 →
       ∃ x y, in_range (matrix_of_list 2 2 (replicate 4 (num 0))) x y
              ∧ index (matrix_of_list 2 2 (replicate 4 (num 0))) x y = i).
Proof.
  split; [simpl; lia|]. split; [simpl; lia|]. split; [reflexivity|]. split.
  - destruct (proj1 (index_collision_or_bijection
                       (matrix_of_list 3 2 (replicate 6 (num 0)))))
      as (x1 & y1 & x2 & y2 & H1 & H2 & H3 & H4 & _); [simpl; lia|].
    by exists x1, y1, x2, y2.
  - apply (proj2 (index_collision_or_bijection
                    (matrix_of_list 2 2 (replicate 4 (num 0)))));
      [simpl; lia|reflexivity].
Defined.

(** C10 as stated fails when [height = 1]: a 2 by 1 matrix has
    [width > height], and its two in-range coordinates have distinct
    indices. *)
Lemma index_injective_2x1 :
  let m := matrix_of_list 2 1 [num 0; num 0] in
  width m > height m
  ∧ ¬ ∃ x1 y1 x2 y2,
        in_range m x1 y1 ∧ in_range m x2 y2 ∧ (x1, y1) ≠ (x2, y2)
        ∧ index m x1 y1 = index m x2 y2.
Proof.
  simpl. split; [lia|].
  intros (x1 & y1 & x2 & y2 & [Hx1 Hy1] & [Hx2 Hy2] & Hne & Hi).
  unfold index in Hi. simpl in *. apply Hne. f_equal; lia.
Qed.

(** ** What a sequence of plain writes leaves in the array *)

Lemma elem_of_coords x y w h :
  (x, y) ∈ coords w h ↔ 0 <= x < w ∧ 0 <= y < h.
Proof.
  unfold coords. rewrite list_elem_of_bind. split.
  - intros (x' & Hy & Hx). apply list_elem_of_fmap in Hy as (y' & [= -> ->] & Hy).
    apply elem_of_seqZ in Hx, Hy. lia.
  - intros [Hx Hy]. exists x. split.
    + apply list_elem_of_fmap. exists y. split; [done|]. apply elem_of_seqZ. lia.
    + apply elem_of_seqZ. lia.
Qed.

Lemma puts_cons w ws m : puts (w :: ws) m = puts ws (put m w.1 w.2).
Proof. done. Qed.

Lemma puts_lookup_notin ws m i :
  i ∉ ws.*1 → cells (puts ws m) !! i = cells m !! i.
Proof.
  revert m. induction ws as [|w ws IH]; intros m Hi; [done|].
  rewrite fmap_cons, not_elem_of_cons in Hi. destruct Hi as [Hne Hi].
  rewrite puts_cons, IH by done. simpl. by rewrite lookup_insert_ne.
Qed.

Lemma puts_lookup_in ws m i v :
  (i, v) ∈ ws → (∀ w, (i, w) ∈ ws → w = v) →
  cells (puts ws m) !! i = Some v.
Proof.
  revert m. induction ws as [|[j w] ws IH]; intros m Hin Huniq.
  - by apply elem_of_nil in Hin.
  - rewrite puts_cons. destruct (decide (i ∈ ws.*1)) as [Hi|Hi].
    + apply list_elem_of_fmap in Hi as ([i' v'] & -> & Hi). simpl in *.
      assert (v' = v) as -> by (apply Huniq; by right).
      apply IH; [done|]. intros w' Hw'. apply Huniq. by right.
    + rewrite puts_lookup_notin by done.
      apply elem_of_cons in Hin as [[= -> ->]|Hin].
      * simpl. by rewrite lookup_insert_eq.
      * exfalso. apply Hi. apply list_elem_of_fmap. by exists (i, v).
Qed.

Lemma puts_len_in_range ws m :
  (∀ i, i ∈ ws.*1 → 0 <= i < len m) → len (puts ws m) = len m.
Proof.
  revert m. induction ws as [|w ws IH]; intros m Hr; [done|].
  assert (Hw : 0 <= w.1 < len m) by (apply Hr; rewrite fmap_cons; left).
  assert (Hl : len (put m w.1 w.2) = len m).
  { simpl. destruct (array_index w.1); lia. }
  rewrite puts_cons, IH; [done|].
  intros i Hi. rewrite Hl. apply Hr. rewrite fmap_cons. by right.
Qed.

Lemma copyMatrix_lookup m i :
  cells (copyMatrix m) !! i
  = if decide (0 <= i < len m) then cells m !! i else None.
Proof.
  simpl. destruct (decide (0 <= i < len m)) as [Hi|Hi].
  - destruct (cells m !! i) as [v|] eqn:Hv.
    + by apply (map_lookup_filter_Some_2 (λ kv : Z * value, 0 <= kv.1 < len m)).
    + apply map_lookup_filter_None. by left.
  - apply map_lookup_filter_None. right. intros v _. done.
Qed.

(** ** [mapMatrix] on a square matrix *)

Lemma elem_of_map_writes m fn i v :
  (i, v) ∈ map_writes m fn ↔
  ∃ x y, in_range m x y ∧ i = index m x y ∧ v = fn (getXY m x y) x y.
Proof.
  unfold map_writes. rewrite list_elem_of_fmap. split.
  - intros ([x y] & [= -> ->] & Hp). apply elem_of_coords in Hp.
    by exists x, y.
  - intros (x & y & Hr & -> & ->). exists (x, y). split; [done|].
    by apply elem_of_coords.
Qed.

Lemma mapMatrix_dims m fn :
  width (mapMatrix m fn) = width m ∧ height (mapMatrix m fn) = height m.
Proof.
  rewrite mapMatrix_puts.
  destruct (puts_dims (map_writes m fn) (copyMatrix m)) as [Hw Hh].
  split; [exact Hw|exact Hh].
Qed.

Section Square.
Variable m : Matrix.
Hypothesis Hnn : 0 <= width m.
Hypothesis Hsq : width m = height m.
Hypothesis Hlen : len m = width m * height m.

Lemma square_index_range x y :
  in_range m x y → 0 <= index m x y < len m.
Proof.
  unfold in_range, index. rewrite Hlen, Hsq. intros [Hx Hy].
  assert (y * height m <= (height m - 1) * height m) by nia.
  nia.
Qed.

Lemma square_index_inv x y i :
  in_range m x y → i = index m x y →
  x = i mod height m ∧ y = i / height m.
Proof.
  unfold in_range, index. rewrite Hsq. intros [Hx Hy] ->.
  split.
  - rewrite Z.add_comm, Z.mod_add by lia. by rewrite Z.mod_small.
  - rewrite Z.add_comm, Z.div_add by lia. rewrite Z.div_small; lia.
Qed.

Lemma square_index_of i :
  0 <= i < len m →
  in_range m (i mod height m) (i / height m)
  ∧ i = index m (i mod height m) (i / height m).
Proof.
  unfold in_range, index. rewrite Hlen, Hsq. intros Hi.
  assert (0 < height m) by (rewrite Hsq in Hnn; nia).
  pose proof (Z.mod_pos_bound i (height m) ltac:(lia)).
  pose proof (Z.div_mod i (height m) ltac:(lia)).
  assert (0 <= i / height m) by (apply Z.div_pos; lia).
  assert (i / height m < height m) by (apply Z.div_lt_upper_bound; lia).
  repeat split; lia.
Qed.

Lemma mapMatrix_square_len fn : len (mapMatrix m fn) = len m.
Proof.
  rewrite mapMatrix_puts. rewrite puts_len_in_range; [done|].
  intros i Hi. apply list_elem_of_fmap in Hi as ([i' v] & -> & Hi).
  apply elem_of_map_writes in Hi as (x & y & Hr & -> & _).
  by apply square_index_range.
Qed.

Lemma mapMatrix_square_lookup fn i :
  cells (mapMatrix m fn) !! i
  = if decide (0 <= i < len m)
    then Some (fn (get m i) (i mod height m) (i / height m))
    else None.
Proof.
  rewrite mapMatrix_puts. destruct (decide (0 <= i < len m)) as [Hi|Hi].
  - destruct (square_index_of i Hi) as [Hr Hix].
    apply puts_lookup_in.
    + apply elem_of_map_writes. eexists _, _. split; [exact Hr|].
      split; [exact Hix|]. unfold getXY. unfold index in Hix.
      by rewrite <- Hix.
    + intros w Hw. apply elem_of_map_writes in Hw as (x & y & Hr' & Hi' & ->).
      destruct (square_index_inv x y i Hr' Hi') as [-> ->].
      unfold getXY. unfold index in Hi'. by rewrite <- Hi'.
  - rewrite puts_lookup_notin.
    + rewrite copyMatrix_lookup. by rewrite decide_False.
    + intros Hin. apply list_elem_of_fmap in Hin as ([i' v] & -> & Hin).
      apply elem_of_map_writes in Hin as (x & y & Hr & -> & _).
      apply Hi. by apply square_index_range.
Qed.

Lemma mapMatrix_square_getXY fn x y :
  in_range m x y → getXY (mapMatrix m fn) x y = fn (getXY m x y) x y.
Proof.
  intros Hr. unfold getXY at 1, get.
  rewrite (proj2 (mapMatrix_dims m fn)). pose proof (square_index_range x y Hr) as Hi.
  unfold index in Hi. rewrite mapMatrix_square_lookup.
  rewrite decide_True by done. simpl.
  destruct (square_index_inv x y _ Hr eq_refl) as [Hx Hy].
  unfold index in Hx, Hy. by rewrite <- Hx, <- Hy.
Qed.
End Square.

(** ** [makeMatrix] *)

Lemma filled_lookup n v i :
  filled n v !! i = if decide (0 <= i < n) then Some v else None.
Proof.
  unfold filled. destruct (decide (0 <= i < n)) as [Hi|Hi].
  - apply elem_of_list_to_map.
    + rewrite <- list_fmap_compose. simpl. rewrite list_fmap_id.
      apply NoDup_seqZ.
    + apply list_elem_of_fmap. exists i. split; [done|].
      apply elem_of_seqZ. lia.
  - apply not_elem_of_list_to_map. rewrite <- list_fmap_compose. simpl.
    rewrite list_fmap_id. rewrite elem_of_seqZ. lia.
Qed.

Lemma makeMatrix_spec w h v m :
  makeMatrix w h v = Ok m →
  width m = w ∧ height m = h ∧ len m = w * h
  ∧ cells m = filled (w * h) (match v with Undefined => num 0 | _ => v end).
Proof.
  unfold makeMatrix. destruct (_ && _); [|done]. by intros [= <-].
Qed.

(** ** The kernel *)

Lemma float_neq (a b : float) :
  (b <? a)%float = true → (b <? b)%float = false → a ≠ b.
Proof. intros Hab Hbb ->. congruence. Qed.

(** C2 as stated fails: at the corner (0,0) the cell computed before
    normalization is [(1 - 1 * 1.1)²], about 0.01, while the formula of the
    claim, [(1 - distance / (cap * 1.1))²], gives about 0.00826. *)
Lemma blob_corner_differs :
  ∃ m, makeMatrix 17 17 Undefined = Ok m
       ∧ getXY (mapMatrix m falloff) 0 0 = Number 0x1.47ae147ae1485p-7%float
       ∧ spec_falloff 0 0 = 0x1.0ecf56be69c9fp-7%float
       ∧ getXY (mapMatrix m falloff) 0 0 ≠ Number (spec_falloff 0 0).
Proof.
  eexists. split; [reflexivity|].
  assert (H1 : getXY (mapMatrix
    {| cells := filled (17 * 17) (num 0); len := 17 * 17; width := 17; height := 17 |}
    falloff) 0 0 = Number 0x1.47ae147ae1485p-7%float) by (vm_compute; reflexivity).
  assert (H2 : spec_falloff 0 0 = 0x1.0ecf56be69c9fp-7%float) by (vm_compute; reflexivity).
  split; [exact H1|]. split; [exact H2|].
  rewrite H1, H2. intros H. assert (H' := f_equal ToNumber H). simpl in H'.
  revert H'. apply float_neq; vm_compute; reflexivity.
Qed.

Lemma falloff_code v x y : falloff v x y = Number (code_falloff x y).
Proof. reflexivity. Qed.

(** C2, as the code has it: the kernel is a 17 by 17 matrix; before
    normalization its cell at (x,y) is [(1 - distance / cap * 1.1)²], where
    the ratio [distance / cap] (the distance taken from (8,8), [cap] the
    square root of 128) is multiplied by 1.1; the maximum of these cells is
    1, and the final cell is the cell divided by that maximum, times 0.1. *)
Theorem blob_cells :
  ∃ raw b,
    (m ← makeMatrix 17 17 Undefined; Ok (mapMatrix m falloff)) = Ok raw
    ∧ maxValueOf raw = Ok (Number 1)
    ∧ blob = Ok b
    ∧ width b = 17 ∧ height b = 17 ∧ len b = 289
    ∧ ∀ x y, 0 <= x < 17 → 0 <= y < 17 →
        getXY raw x y = Number (code_falloff x y)
        ∧ getXY b x y = Number (code_falloff x y / 1 * c0_1)%float.
Proof.
  set (m0 := {| cells := filled (17 * 17) (num 0); len := 17 * 17;
                width := 17; height := 17 |}).
  assert (Hm0 : makeMatrix 17 17 Undefined = Ok m0) by reflexivity.
  assert (Hm0w : width m0 = 17) by reflexivity.
  assert (Hm0h : height m0 = 17) by reflexivity.
  assert (Hm0l : len m0 = 289) by reflexivity.
  assert (Hmax : maxValueOf (mapMatrix m0 falloff) = Ok (Number 1))
    by (vm_compute; reflexivity).
  unfold blob, normalizeMatrix. rewrite Hm0, !bind_Ok, Hmax, bind_Ok.
  clearbody m0.
  set (raw := mapMatrix m0 falloff) in *.
  set (n := mapMatrix raw (λ x _ _, js_div x (Number 1))).
  set (b := mapMatrix n (λ x _ _, js_mul x (Number c0_1))).
  destruct (mapMatrix_dims m0 falloff) as [Hrw Hrh].
  fold raw in Hrw, Hrh. rewrite Hm0w in Hrw. rewrite Hm0h in Hrh.
  assert (Hrl : len raw = 289).
  { unfold raw. rewrite mapMatrix_square_len; lia. }
  destruct (mapMatrix_dims raw (λ x _ _, js_div x (Number 1))) as [Hnw Hnh].
  fold n in Hnw, Hnh. rewrite Hrw in Hnw. rewrite Hrh in Hnh.
  assert (Hnl : len n = 289).
  { unfold n. rewrite mapMatrix_square_len; lia. }
  destruct (mapMatrix_dims n (λ x _ _, js_mul x (Number c0_1))) as [Hbw Hbh].
  fold b in Hbw, Hbh. rewrite Hnw in Hbw. rewrite Hnh in Hbh.
  assert (Hbl : len b = 289).
  { unfold b. rewrite mapMatrix_square_len; lia. }
  exists raw, b. split; [reflexivity|]. split; [exact Hmax|].
  split; [reflexivity|].
  split; [exact Hbw|]. split; [exact Hbh|]. split; [exact Hbl|].
  intros x y Hx Hy.
  assert (Hr : getXY raw x y = Number (code_falloff x y)).
  { unfold raw. rewrite mapMatrix_square_getXY; [apply falloff_code|lia..|].
    unfold in_range. lia. }
  split; [exact Hr|].
  unfold b. rewrite mapMatrix_square_getXY; [|lia..|unfold in_range; lia].
  unfold n. rewrite mapMatrix_square_getXY; [|lia..|unfold in_range; lia].
  rewrite Hr. reflexivity.
Qed.

(** ** Writes past the end of a tall destination *)

(** When [0 <= height <= width] and the offsets are not negative, every cell
    that [addMatrix] writes lies inside the destination's cell sequence. *)
Lemma written_in_range_wide src dst ox oy :
  0 <= height dst <= width dst → len dst = width dst * height dst →
  0 <= ox → 0 <= oy →
  ∀ i, i ∈ written src dst ox oy → 0 <= i < len dst.
Proof.
  intros Hd Hlen Hox Hoy i Hi. unfold written, blit_writes in Hi.
  apply list_elem_of_fmap in Hi as ([i' v] & -> & Hi).
  apply list_elem_of_fmap in Hi as ([x y] & [= -> ->] & Hp).
  apply list_elem_of_filter in Hp as [Hpass Hp].
  apply elem_of_coords in Hp. unfold passes in Hpass. simpl in *.
  apply andb_prop in Hpass as [Hx Hy].
  apply negb_true_iff, Z.leb_gt in Hx, Hy.
  unfold index. rewrite Hlen.
  assert ((y + oy) * height dst <= (height dst - 1) * height dst) by nia.
  nia.
Qed.

(** C3 at a failing input: destination of width 1 and height 2, source 1 by
    1, offsets (0,1), both nonnegative. The two upper-bound tests pass, the
    write goes to flat index 2, outside the two cells of the destination:
    the array grows to length 3 and the new cell holds NaN
    ([undefined + 5]). *)
Theorem addMatrix_writes_past_end :
  ∃ dst, makeMatrix 1 2 Undefined = Ok dst
    ∧ len dst = width dst * height dst
    ∧ written (matrix_of_list 1 1 [num 5]) dst 0 1 = [2]
    ∧ len (addMatrix (matrix_of_list 1 1 [num 5]) dst 0 1) = 3
    ∧ get (addMatrix (matrix_of_list 1 1 [num 5]) dst 0 1) 2 = Number nan.
Proof.
  eexists. split; [reflexivity|].
  repeat split; vm_compute; reflexivity.
Qed.

(** ** The length invariant *)

(** When [0 <= height <= width], [mapMatrix] keeps the length. *)
Lemma mapMatrix_wide_len m fn :
  0 <= height m <= width m → len m = width m * height m →
  len (mapMatrix m fn) = len m.
Proof.
  intros Hd Hlen. rewrite mapMatrix_puts. rewrite puts_len_in_range; [done|].
  intros i Hi. apply list_elem_of_fmap in Hi as ([i' v] & -> & Hi).
  apply elem_of_map_writes in Hi as (x & y & [Hx Hy] & -> & _).
  simpl. unfold index. rewrite Hlen.
  assert (y * height m <= (height m - 1) * height m) by nia.
  nia.
Qed.

(** C4 at a failing input: a matrix of width 1 and height 2 has length 2 at
    creation; [mapMatrix] with the identity, and [normalizeMatrix], return an
    array of length 3, while width * height is still 2. *)
Theorem mapMatrix_grows_1x2 :
  ∃ m n, makeMatrix 1 2 (num 1) = Ok m
    ∧ len m = width m * height m
    ∧ len (mapMatrix m (λ v _ _, v)) = 3
    ∧ width (mapMatrix m (λ v _ _, v)) * height (mapMatrix m (λ v _ _, v)) = 2
    ∧ normalizeMatrix m = Ok n
    ∧ len n = 3 ∧ width n * height n = 2.
Proof.
  eexists _, _. split; [reflexivity|].
  split; [reflexivity|]. split; [vm_compute; reflexivity|].
  split; [vm_compute; reflexivity|].
  split; [vm_compute; reflexivity|]. split; reflexivity.
Qed.

(** ** An idle frame *)

Lemma mul_nan_l (x : float) : (nan * x)%float = nan.
Proof. apply Prim2SF_inj. rewrite mul_spec. reflexivity. Qed.

Section Idle.
Variable pow : float → float → float.
Variables contrast attenuationInput : float.
Variable g : WichmannHillGenerator.

(** C5 on the 4 by 4 engine of the specification: with no stamp, every
    cell of the matrix handed to [drawMatrix] is the same Number,
    [NaN ** contrast] (the NaN being 0/0), and every cell of the decayed
    matrix is [0 * attenuation]. *)
Lemma animate_idle_4x4 :
  ∃ m drawn st,
    makeMatrix 4 4 Undefined = Ok m
    ∧ animate pow contrast 0 attenuationInput {| matrix := m; rng := g |}
      = Ok (drawn, st)
    ∧ rng st = g ∧ len drawn = 16 ∧ len (matrix st) = 16
    ∧ ∀ i, 0 <= i < 16 →
        get drawn i = Number (pow (0 / 0) contrast)
        ∧ get (matrix st) i
          = Number (0 * (1 - pow (1 - attenuationInput) 8))%float.
Proof.
  eexists _, _, _. split; [reflexivity|]. split; [vm_compute; reflexivity|].
  split; [reflexivity|]. split; [reflexivity|]. split; [reflexivity|].
  intros i Hi. unfold get. cbn [cells matrix].
  match goal with |- default _ (?c1 !! _) = _ ∧ default _ (?c2 !! _) = _ =>
    assert (H1 : c1 = filled 16 (Number (pow (0 / 0) contrast)))
      by (vm_compute; reflexivity);
    assert (H2 : c2 = filled 16
              (Number (0 * (1 - pow (1 - attenuationInput) 8))%float))
      by (vm_compute; reflexivity);
    rewrite H1, H2
  end.
  rewrite !filled_lookup, !decide_True by done. done.
Qed.

(** C5 at two failing inputs, both all-zero matrices and no stamp.
    Width 3, height 2: the loops of [mapMatrix] never reach flat index 5,
    so the drawn matrix holds [NaN ** contrast] in cells 0 to 4 and
    still 0 in cell 5. Width 1, height 2: the decay writes flat
    index 2, past the end, so the persistent matrix grows to length 3 and
    its new cell is NaN. *)
Theorem animate_idle_nonsquare :
  ∃ m32 d32 st32 m12 d12 st12,
    makeMatrix 3 2 Undefined = Ok m32
    ∧ animate pow contrast 0 attenuationInput {| matrix := m32; rng := g |}
      = Ok (d32, st32)
    ∧ get d32 0 = Number (pow nan contrast)
    ∧ get d32 5 = Number 0
    ∧ makeMatrix 1 2 Undefined = Ok m12
    ∧ animate pow contrast 0 attenuationInput {| matrix := m12; rng := g |}
      = Ok (d12, st12)
    ∧ len (matrix st12) = 3
    ∧ get (matrix st12) 2 = Number nan.
Proof.
  eexists _, _, _, _, _, _. split; [reflexivity|].
  split; [vm_compute; reflexivity|].
  split; [vm_compute; reflexivity|]. split; [vm_compute; reflexivity|].
  split; [reflexivity|]. split; [vm_compute; reflexivity|].
  split; [reflexivity|].
  unfold get. simpl. f_equal. apply mul_nan_l.
Qed.
End Idle.

(** * Binary64 arithmetic *)

(** ** Binary64 arithmetic: digits and shifts *)

Lemma fexp_eq e : fexp prec emax e = Z.max (e - 53) (-1074).
Proof. reflexivity. Qed.

Lemma digits2_pos_bounds (p : positive) :
  2 ^ (Z.pos (digits2_pos p) - 1) <= Z.pos p < 2 ^ Z.pos (digits2_pos p).
Proof.
  induction p as [p IH|p IH|]; simpl digits2_pos.
  - rewrite Pos2Z.inj_succ, Z.pow_succ_r by lia.
    replace (Z.succ (Z.pos (digits2_pos p)) - 1)
      with (Z.succ (Z.pos (digits2_pos p) - 1)) by lia.
    rewrite Z.pow_succ_r by lia. lia.
  - rewrite Pos2Z.inj_succ, Z.pow_succ_r by lia.
    replace (Z.succ (Z.pos (digits2_pos p)) - 1)
      with (Z.succ (Z.pos (digits2_pos p) - 1)) by lia.
    rewrite Z.pow_succ_r by lia. lia.
  - simpl. lia.
Qed.

Lemma Zdigits2_nonneg m : 0 <= Zdigits2 m.
Proof. destruct m; simpl; lia. Qed.

Lemma Zdigits2_bounds m :
  0 < m → 2 ^ (Zdigits2 m - 1) <= m < 2 ^ Zdigits2 m.
Proof. destruct m as [|p|p]; try lia. intros _. apply digits2_pos_bounds. Qed.

(** A number below [2^j] has at most [j] digits. *)
Lemma Zdigits2_le m j : 0 <= m < 2 ^ j → 0 <= j → Zdigits2 m <= j.
Proof.
  intros [Hm Hlt] Hj. destruct (Z.eq_dec m 0) as [->|Hne]; [simpl; lia|].
  destruct (Zdigits2_bounds m ltac:(lia)) as [Hlo _].
  destruct (Z_lt_le_dec j (Zdigits2 m)) as [Hgt|]; [|lia].
  assert (2 ^ j <= 2 ^ (Zdigits2 m - 1)) by (apply Z.pow_le_mono_r; lia).
  lia.
Qed.

(** A number from [2^j] on has more than [j] digits. *)
Lemma Zdigits2_gt m j : 2 ^ j <= m → 0 <= j → j < Zdigits2 m.
Proof.
  intros Hm Hj. assert (0 < m) by (pose proof (Z.pow_pos_nonneg 2 j); lia).
  destruct (Zdigits2_bounds m ltac:(lia)) as [_ Hhi].
  destruct (Z_lt_le_dec j (Zdigits2 m)) as [|Hle]; [lia|].
  assert (2 ^ Zdigits2 m <= 2 ^ j) by (apply Z.pow_le_mono_r; lia).
  lia.
Qed.

Lemma Zdigits2_mul_pow2 m n :
  0 < m → 0 <= n → Zdigits2 (m * 2 ^ n) = Zdigits2 m + n.
Proof.
  intros Hm Hn. destruct (Zdigits2_bounds m Hm) as [Hlo Hhi].
  pose proof (Zdigits2_nonneg m) as Hd.
  assert (Hd1 : 1 <= Zdigits2 m).
  { destruct m; simpl in *; lia. }
  assert (Hp : 0 < 2 ^ n) by (apply Z.pow_pos_nonneg; lia).
  apply Z.le_antisymm.
  - apply Zdigits2_le; [|lia]. rewrite Z.pow_add_r by lia. nia.
  - assert (Zdigits2 m + n - 1 < Zdigits2 (m * 2 ^ n)); [|lia].
    apply Zdigits2_gt; [|lia].
    replace (Zdigits2 m + n - 1) with (Zdigits2 m - 1 + n) by lia.
    rewrite Z.pow_add_r by lia. nia.
Qed.

Lemma iter_pos_nat {A} (f : A → A) (p : positive) (x : A) :
  SpecFloat.iter_pos f p x = Nat.iter (Pos.to_nat p) f x.
Proof.
  revert x. induction p as [p IH|p IH|]; intros x; simpl SpecFloat.iter_pos.
  - rewrite !IH, Pos2Nat.inj_xI.
    replace (S (2 * Pos.to_nat p)) with (Pos.to_nat p + (Pos.to_nat p + 1))%nat by lia.
    rewrite !Nat.iter_add. simpl. done.
  - rewrite !IH, Pos2Nat.inj_xO.
    replace (2 * Pos.to_nat p)%nat with (Pos.to_nat p + Pos.to_nat p)%nat by lia.
    by rewrite Nat.iter_add.
  - done.
Qed.

Lemma shr_1_m mrs : 0 <= shr_m mrs → shr_m (shr_1 mrs) = shr_m mrs / 2.
Proof.
  destruct mrs as [m r s]. cbn [shr_m]. intros Hm.
  destruct m as [|[p|p|]|p]; cbn [shr_1 shr_m]; try lia.
  - reflexivity.
  - apply (Z.div_unique _ 2 _ 1); lia.
  - apply (Z.div_unique _ 2 _ 0); lia.
  - reflexivity.
Qed.


Lemma shr_1_exact mrs :
  0 <= shr_m mrs → shr_exact mrs → shr_m mrs mod 2 = 0 → shr_exact (shr_1 mrs).
Proof.
  destruct mrs as [m r s]. unfold shr_exact. cbn [shr_m shr_r shr_s].
  intros Hm [-> ->] Hev.
  assert (Hodd : ∀ q, (1 + q * 2) mod 2 ≠ 0).
  { intros q. rewrite Z.mod_add by lia. done. }
  destruct m as [|[p|p|]|p]; cbn [shr_1 shr_m shr_r shr_s orb];
    try done; try lia.
  exfalso. apply (Hodd (Z.pos p)). rewrite <- Hev. f_equal. lia.
Qed.

Lemma shr_iter_m (n : nat) mrs :
  0 <= shr_m mrs →
  shr_m (Nat.iter n shr_1 mrs) = shr_m mrs / 2 ^ Z.of_nat n.
Proof.
  intros Hm. induction n as [|n IH].
  - simpl. by rewrite Z.div_1_r.
  - rewrite Nat2Z.inj_succ, Z.pow_succ_r by lia. simpl.
    rewrite shr_1_m, IH.
    + rewrite Z.div_div by lia. f_equal. lia.
    + rewrite IH. apply Z.div_pos; lia.
Qed.

Lemma shr_iter_exact (n : nat) mrs :
  0 <= shr_m mrs → shr_exact mrs → shr_m mrs mod 2 ^ Z.of_nat n = 0 →
  shr_exact (Nat.iter n shr_1 mrs).
Proof.
  intros Hm Hex. induction n as [|n IH]; intros Hmod; [done|].
  rewrite Nat2Z.inj_succ, Z.pow_succ_r in Hmod by lia.
  assert (Hp : 0 < 2 ^ Z.of_nat n) by (apply Z.pow_pos_nonneg; lia).
  assert (Hdiv : shr_m mrs = 2 * 2 ^ Z.of_nat n * (shr_m mrs / (2 * 2 ^ Z.of_nat n))).
  { pose proof (Z.div_mod (shr_m mrs) (2 * 2 ^ Z.of_nat n) ltac:(lia)). lia. }
  set (q := shr_m mrs / (2 * 2 ^ Z.of_nat n)) in *.
  simpl. apply shr_1_exact.
  - rewrite shr_iter_m by done. apply Z.div_pos; lia.
  - apply IH. rewrite Hdiv.
    replace (2 * 2 ^ Z.of_nat n * q) with (2 * q * 2 ^ Z.of_nat n) by lia.
    apply Z.mod_mul. lia.
  - rewrite shr_iter_m by done. rewrite Hdiv.
    replace (2 * 2 ^ Z.of_nat n * q) with (2 * q * 2 ^ Z.of_nat n) by lia.
    rewrite Z.div_mul by lia. rewrite Z.mul_comm. apply Z.mod_mul. lia.
Qed.

(** [shr] by a positive count divides the mantissa. *)
Lemma shr_pos mrs e n :
  0 < n → 0 <= shr_m mrs →
  ∃ mrs', shr mrs e n = (mrs', e + n)
    ∧ shr_m mrs' = shr_m mrs / 2 ^ n
    ∧ (shr_exact mrs → shr_m mrs mod 2 ^ n = 0 → shr_exact mrs').
Proof.
  intros Hn Hm. destruct n as [|p|p]; try lia.
  unfold shr. rewrite iter_pos_nat. eexists. split; [reflexivity|].
  rewrite <- (positive_nat_Z p). split.
  - by apply shr_iter_m.
  - intros. by apply shr_iter_exact.
Qed.

Lemma shr_record_of_loc_m m l : shr_m (shr_record_of_loc m l) = m.
Proof. by destruct l as [|[]]. Qed.

Lemma shr_record_of_loc_exact m : shr_exact (shr_record_of_loc m loc_Exact).
Proof. done. Qed.

Lemma loc_of_shr_exact mrs : shr_exact mrs → loc_of_shr_record mrs = loc_Exact.
Proof.
  destruct mrs as [m r s]. unfold shr_exact. simpl. by intros [-> ->].
Qed.

Lemma loc_of_shr_record_of_loc m l :
  loc_of_shr_record (shr_record_of_loc m l) = l.
Proof. by destruct l as [|[]]. Qed.

Lemma round_nearest_even_bounds m l :
  m <= round_nearest_even m l <= m + 1.
Proof. destruct l as [|[]]; simpl; try lia. destruct (Z.even m); lia. Qed.

Lemma round_nearest_even_exact m : round_nearest_even m loc_Exact = m.
Proof. done. Qed.

(** ** Rounding *)


Lemma shr_fexp_spec m e l :
  0 <= m →
  ∃ mrs' e', shr_fexp prec emax m e l = (mrs', e')
    ∧ shr_fexp_rel m e l (shr_m mrs') e' (loc_of_shr_record mrs').
Proof.
  intros Hm. unfold shr_fexp.
  set (n := fexp prec emax (Zdigits2 m + e) - e).
  destruct (Z_lt_le_dec 0 n) as [Hn|Hn].
  - destruct (shr_pos (shr_record_of_loc m l) e n Hn) as (mrs' & Heq & Hm' & Hex).
    { by rewrite shr_record_of_loc_m. }
    exists mrs', (e + n). split; [exact Heq|]. right.
    rewrite shr_record_of_loc_m in Hm', Hex.
    replace (e + n - e) with n by lia.
    split; [unfold n in Hn; lia|]. split; [unfold n; lia|]. split; [done|].
    intros -> Hmod. apply loc_of_shr_exact, Hex; done.
  - exists (shr_record_of_loc m l), e. split.
    + unfold shr. destruct n; try done; lia.
    + left. rewrite shr_record_of_loc_m, loc_of_shr_record_of_loc.
      unfold n in Hn. repeat split; lia.
Qed.

Lemma shr_fexp_rel_nonneg m e l m' e' l' :
  0 <= m → shr_fexp_rel m e l m' e' l' → 0 <= m'.
Proof.
  intros Hm [(_ & -> & _)|(Hlt & He' & -> & _)]; [done|].
  apply Z.div_pos; [done|]. apply Z.pow_pos_nonneg; lia.
Qed.

(** The three steps of [binary_round_aux]: shift, round to nearest even,
    shift again (by one, when the rounding carried). *)
Lemma binary_round_aux_stages sx mx ex lx :
  0 <= mx →
  ∃ m1 e1 l1 m3 e3 l3,
    shr_fexp_rel mx ex lx m1 e1 l1
    ∧ shr_fexp_rel (round_nearest_even m1 l1) e1 loc_Exact m3 e3 l3
    ∧ 0 <= m3
    ∧ binary_round_aux prec emax sx mx ex lx
      = match m3 with
        | Z0 => S754_zero sx
        | Z.pos m => if e3 <=? 971 then S754_finite sx m e3 else S754_infinity sx
        | Z.neg _ => S754_nan
        end.
Proof.
  intros Hm. unfold binary_round_aux.
  destruct (shr_fexp_spec mx ex lx Hm) as (mrs1 & e1 & -> & H1).
  pose proof (shr_fexp_rel_nonneg _ _ _ _ _ _ Hm H1) as Hm1.
  pose proof (round_nearest_even_bounds (shr_m mrs1) (loc_of_shr_record mrs1)) as Hr.
  destruct (shr_fexp_spec (round_nearest_even (shr_m mrs1) (loc_of_shr_record mrs1))
              e1 loc_Exact ltac:(lia)) as (mrs3 & e3 & -> & H3).
  exists (shr_m mrs1), e1, (loc_of_shr_record mrs1), (shr_m mrs3), e3,
    (loc_of_shr_record mrs3).
  split; [done|]. split; [done|]. split; [|done].
  eapply shr_fexp_rel_nonneg; [|exact H3]. lia.
Qed.

(** Rounding a nonnegative value never yields NaN, and keeps the sign. *)
Lemma binary_round_aux_sign sx mx ex lx :
  0 <= mx →
  match binary_round_aux prec emax sx mx ex lx with
  | S754_zero s | S754_infinity s | S754_finite s _ _ => s = sx
  | S754_nan => False
  end.
Proof.
  intros Hm.
  destruct (binary_round_aux_stages sx mx ex lx Hm)
    as (m1 & e1 & l1 & m3 & e3 & l3 & _ & _ & Hm3 & ->).
  destruct m3; [done| |lia]. by destruct (e3 <=? 971).
Qed.

(** Rounding does not cross a power of two: a value of at most [2^k]
    rounds to a finite number of at most [2^k]. *)
Lemma binary_round_aux_le_pow2 sx mx ex lx k :
  0 <= mx → ex <= k → ex <= 971 → -1074 <= k <= 1023 →
  (mx < 2 ^ (k - ex) ∨ (mx = 2 ^ (k - ex) ∧ lx = loc_Exact)) →
  match binary_round_aux prec emax sx mx ex lx with
  | S754_zero s => s = sx
  | S754_finite s m e => s = sx ∧ e <= k ∧ Z.pos m <= 2 ^ (k - e)
  | _ => False
  end.
Proof.
  intros Hm Hek He971 Hk Hb.
  destruct (binary_round_aux_stages sx mx ex lx Hm)
    as (m1 & e1 & l1 & m3 & e3 & l3 & H1 & H3 & Hm3 & ->).
  (* after the first shift *)
  assert (S1 : 0 <= m1 ∧ -1074 <= e1 ∧ e1 <= k ∧ e1 <= 971
               ∧ fexp prec emax (Zdigits2 m1 + e1) <= e1
               ∧ (m1 < 2 ^ (k - e1) ∨ (m1 = 2 ^ (k - e1) ∧ l1 = loc_Exact))).
  { pose proof (shr_fexp_rel_nonneg _ _ _ _ _ _ Hm H1) as Hm1.
    destruct H1 as [(Hf & -> & -> & ->)|(Hf & He1 & Hm1' & Hl1)].
    - pose proof Hf as Hf'. rewrite fexp_eq in Hf'.
      repeat split; try done; try lia.
    - rewrite fexp_eq in Hf, He1.
      set (n := e1 - ex) in *. assert (Hn : 0 < n) by lia.
      assert (Hpn : 0 < 2 ^ n) by (apply Z.pow_pos_nonneg; lia).
      destruct (Z.eq_dec mx 0) as [Hmx0|Hmx0].
      { subst mx. change (Zdigits2 0) with 0 in *.
        assert (Hm1z : m1 = 0) by (rewrite Hm1'; apply Z.div_0_l; lia).
        rewrite Hm1z. change (Zdigits2 0) with 0. rewrite fexp_eq.
        assert (0 < 2 ^ (k - e1)) by (apply Z.pow_pos_nonneg; lia).
        repeat split; try lia. }
      assert (Hmx : 0 < mx) by lia.
      destruct (Zdigits2_bounds mx Hmx) as [Hlo Hhi].
      pose proof (Zdigits2_nonneg mx) as Hd.
      assert (Hmxk : mx <= 2 ^ (k - ex)) by lia.
      assert (Hdk : Zdigits2 mx - 1 <= k - ex).
      { destruct (Z_lt_le_dec (k - ex) (Zdigits2 mx - 1)) as [Hlt|]; [|lia].
        assert (2 ^ (k - ex + 1) <= 2 ^ (Zdigits2 mx - 1))
          by (apply Z.pow_le_mono_r; lia).
        rewrite Z.pow_add_r in * by lia. lia. }
      assert (He1k : e1 <= k) by lia.
      assert (Hsplit : 2 ^ (k - ex) = 2 ^ (k - e1) * 2 ^ n).
      { rewrite <- Z.pow_add_r by lia. f_equal. lia. }
      assert (Hpk : 0 < 2 ^ (k - e1)) by (apply Z.pow_pos_nonneg; lia).
      split; [done|]. split; [lia|]. split; [done|]. split; [lia|]. split.
      + (* the shifted mantissa has at most 53 digits, or sits at emin *)
        rewrite fexp_eq.
        assert (Zdigits2 m1 <= 53); [|lia].
        apply Zdigits2_le; [|lia]. split; [done|]. rewrite Hm1'.
        apply Z.div_lt_upper_bound; [done|].
        rewrite <- Z.pow_add_r by lia.
        assert (2 ^ Zdigits2 mx <= 2 ^ (n + 53))
          by (apply Z.pow_le_mono_r; lia).
        lia.
      + destruct Hb as [Hlt|[Heq ->]].
        * left. rewrite Hm1'. apply Z.div_lt_upper_bound; [done|]. lia.
        * destruct (Z_lt_le_dec m1 (2 ^ (k - e1))) as [|Hge]; [by left|right].
          assert (Hm1eq : m1 = 2 ^ (k - e1)).
          { rewrite Hm1', Heq, Hsplit, Z.div_mul by lia. done. }
          split; [done|]. apply Hl1; [done|].
          rewrite Heq, Hsplit. apply Z.mod_mul. lia. }
  destruct S1 as (Hm1 & He1lo & He1k & He1971 & Hf1 & Hb1).
  (* after rounding *)
  pose proof (round_nearest_even_bounds m1 l1) as Hr.
  set (m2 := round_nearest_even m1 l1) in *.
  assert (Hm2 : m2 <= 2 ^ (k - e1)).
  { destruct Hb1 as [|[-> ->]]; [lia|]. unfold m2. simpl. lia. }
  assert (Hd1 : Zdigits2 m1 <= 53) by (rewrite fexp_eq in Hf1; lia).
  assert (Hm1lt : m1 < 2 ^ 53).
  { destruct (Z.eq_dec m1 0) as [->|]; [done|].
    destruct (Zdigits2_bounds m1 ltac:(lia)) as [_ Hhi].
    assert (2 ^ Zdigits2 m1 <= 2 ^ 53) by (apply Z.pow_le_mono_r; lia). lia. }
  (* after the second shift *)
  assert (S3 : (m3 = 0 ∨ (0 < m3 ∧ e3 <= k ∧ e3 <= 971 ∧ m3 <= 2 ^ (k - e3)))).
  { destruct H3 as [(Hf & -> & -> & _)|(Hf & He3 & Hm3' & _)].
    - destruct (Z.eq_dec m2 0); [by left|right]. repeat split; lia.
    - rewrite fexp_eq in Hf, He3. right.
      assert (Hd2 : 54 <= Zdigits2 m2) by lia.
      assert (Hm2ge : 2 ^ 53 <= m2).
      { destruct (Z_lt_le_dec m2 (2 ^ 53)) as [Hlt|]; [|done].
        assert (Zdigits2 m2 <= 53) by (apply Zdigits2_le; lia). lia. }
      assert (Hm2eq : m2 = 2 ^ 53) by lia.
      assert (Hd2eq : Zdigits2 m2 = 54) by (rewrite Hm2eq; reflexivity).
      assert (He3eq : e3 = e1 + 1) by lia.
      assert (Hk53 : 53 <= k - e1).
      { destruct (Z_lt_le_dec (k - e1) 53) as [Hlt|]; [|done].
        assert (2 ^ (k - e1) < 2 ^ 53) by (apply Z.pow_lt_mono_r; lia). lia. }
      assert (Hm3eq : m3 = 2 ^ 52).
      { rewrite Hm3', Hm2eq, He3eq.
        replace (e1 + 1 - e1) with 1 by lia. reflexivity. }
      split; [rewrite Hm3eq; lia|]. split; [lia|]. split; [lia|].
      rewrite Hm3eq. apply Z.pow_le_mono_r; lia. }
  destruct S3 as [->|(Hpos & He3k & He3971 & Hm3b)]; [done|].
  destruct m3 as [|p|p]; try lia.
  apply Z.leb_le in He3971. rewrite He3971. done.
Qed.

(** ** Canonical mantissas *)

Lemma bounded_spec m e :
  bounded prec emax m e = true ↔
  fexp prec emax (Zdigits2 (Z.pos m) + e) = e ∧ e <= 971.
Proof.
  unfold bounded, canonical_mantissa. rewrite andb_true_iff, Z.eqb_eq, Z.leb_le.
  reflexivity.
Qed.

(** A canonical mantissa has at most 53 digits, exactly 53 above the least
    exponent. *)
Lemma bounded_digits m e :
  bounded prec emax m e = true →
  -1074 <= e <= 971 ∧ Z.pos m < 2 ^ 53 ∧ (-1074 < e → 2 ^ 52 <= Z.pos m).
Proof.
  rewrite bounded_spec, fexp_eq. intros [Hc He].
  destruct (Zdigits2_bounds (Z.pos m) ltac:(lia)) as [Hlo Hhi].
  pose proof (Zdigits2_nonneg (Z.pos m)).
  split; [lia|]. split.
  - assert (2 ^ Zdigits2 (Z.pos m) <= 2 ^ 53) by (apply Z.pow_le_mono_r; lia).
    lia.
  - intros Hgt. assert (Zdigits2 (Z.pos m) = 53) as Hd by lia.
    rewrite Hd in Hlo. exact Hlo.
Qed.

(** Rounding an exact multiple of a canonical number gives it back. *)
Lemma binary_round_aux_exact sx m e n :
  bounded prec emax m e = true → 0 <= n →
  binary_round_aux prec emax sx (Z.pos m * 2 ^ n) (e - n) loc_Exact
  = S754_finite sx m e.
Proof.
  intros Hb Hn. pose proof Hb as Hb'. apply bounded_spec in Hb' as [Hc He].
  assert (Hpn : 0 < 2 ^ n) by (apply Z.pow_pos_nonneg; lia).
  destruct (binary_round_aux_stages sx (Z.pos m * 2 ^ n) (e - n) loc_Exact
              ltac:(lia)) as (m1 & e1 & l1 & m3 & e3 & l3 & H1 & H3 & Hm3 & ->).
  assert (Hd : Zdigits2 (Z.pos m * 2 ^ n) + (e - n) = Zdigits2 (Z.pos m) + e).
  { rewrite Zdigits2_mul_pow2 by lia. lia. }
  assert (S1 : m1 = Z.pos m ∧ e1 = e ∧ l1 = loc_Exact).
  { destruct H1 as [(Hf & -> & -> & ->)|(Hf & He1 & Hm1 & Hl1)];
      rewrite Hd, Hc in *.
    - assert (n = 0) as -> by lia. rewrite Z.mul_1_r, Z.sub_0_r. done.
    - subst e1. replace (e - (e - n)) with n in * by lia.
      split; [by rewrite Hm1, Z.div_mul by lia|]. split; [done|].
      apply Hl1; [done|]. apply Z.mod_mul. lia. }
  destruct S1 as (-> & -> & ->). rewrite round_nearest_even_exact in H3.
  destruct H3 as [(Hf & -> & -> & _)|(Hf & _)]; [|lia].
  apply Z.leb_le in He. by rewrite He.
Qed.

Lemma Pos_iter_xO m d : Z.pos (Pos.iter xO m d) = Z.pos m * 2 ^ Z.pos d.
Proof.
  induction d as [|d IH] using Pos.peano_ind.
  - simpl. lia.
  - rewrite Pos.iter_succ, Pos2Z.inj_succ, Z.pow_succ_r by lia.
    rewrite Pos2Z.inj_xO, IH. lia.
Qed.

Lemma shl_align_spec m e e' :
  ∃ m2 e2, shl_align m e e' = (m2, e2)
    ∧ e2 = Z.min e e' ∧ Z.pos m2 = Z.pos m * 2 ^ (e - e2).
Proof.
  unfold shl_align. destruct (e' - e) as [|d|d] eqn:Hd.
  - exists m, e. rewrite Z.min_l by lia. rewrite Z.sub_diag. split; [done|]. lia.
  - exists m, e. rewrite Z.min_l by lia. rewrite Z.sub_diag. split; [done|]. lia.
  - exists (Pos.iter xO m d), e'. rewrite Z.min_r by lia. split; [done|].
    split; [done|]. rewrite Pos_iter_xO. f_equal. f_equal. lia.
Qed.

(** A mantissa below [2^53] with an exponent from the least one on is
    representable: [binary_round] only renormalizes it. *)
Lemma binary_round_exact sx m e :
  Z.pos m < 2 ^ 53 → -1074 <= e →
  fexp prec emax (Zdigits2 (Z.pos m) + e) <= 971 →
  ∃ m' e', binary_round prec emax sx m e = S754_finite sx m' e'
    ∧ bounded prec emax m' e' = true
    ∧ e' <= e ∧ Z.pos m' = Z.pos m * 2 ^ (e - e').
Proof.
  intros Hm He Hov. unfold binary_round.
  assert (Hd : Zdigits2 (Z.pos m) <= 53) by (apply Zdigits2_le; lia).
  set (e0 := fexp prec emax (Z.pos (digits2_pos m) + e)) in *.
  assert (He0 : e0 <= e) by (unfold e0; rewrite fexp_eq; simpl in Hd; lia).
  destruct (shl_align_spec m e e0) as (m2 & e2 & -> & He2 & Hm2).
  rewrite Z.min_r in He2 by done. subst e2.
  assert (Hb : bounded prec emax m2 e0 = true).
  { apply bounded_spec. split; [|done]. rewrite Hm2.
    rewrite Zdigits2_mul_pow2 by lia.
    replace (Zdigits2 (Z.pos m) + (e - e0) + e0) with (Zdigits2 (Z.pos m) + e)
      by lia.
    unfold e0. rewrite !fexp_eq. simpl Zdigits2. lia. }
  exists m2, e0. split; [|done].
  rewrite <- (binary_round_aux_exact sx m2 e0 0 Hb) by lia.
  by rewrite Z.mul_1_r, Z.sub_0_r.
Qed.

(** ** The order of Numbers *)


Lemma finite_val_bounds m e :
  bounded prec emax m e = true →
  0 < Z.pos m * 2 ^ (e + 1074) < 2 ^ 2100.
Proof.
  intros Hb. destruct (bounded_digits m e Hb) as (He & Hm & _).
  assert (0 < 2 ^ (e + 1074)) by (apply Z.pow_pos_nonneg; lia).
  split; [lia|].
  assert (2 ^ (e + 1074) <= 2 ^ 2045) by (apply Z.pow_le_mono_r; lia).
  replace (2 ^ 2100) with (2 ^ 55 * 2 ^ 2045) by (rewrite <- Z.pow_add_r; [done|lia|lia]).
  assert (2 ^ 53 < 2 ^ 55) by done. nia.
Qed.

Lemma finite_compare m1 e1 m2 e2 :
  bounded prec emax m1 e1 = true → bounded prec emax m2 e2 = true →
  match e1 ?= e2 with
  | Lt => Lt
  | Gt => Gt
  | Eq => Pos.compare_cont Eq m1 m2
  end = (Z.pos m1 * 2 ^ (e1 + 1074) ?= Z.pos m2 * 2 ^ (e2 + 1074)).
Proof.
  intros H1 H2.
  destruct (bounded_digits m1 e1 H1) as (He1 & Hm1 & Hn1).
  destruct (bounded_digits m2 e2 H2) as (He2 & Hm2 & Hn2).
  assert (Hlt : ∀ ma ea mb eb,
    -1074 <= ea → ea < eb → Z.pos ma < 2 ^ 53 → 2 ^ 52 <= Z.pos mb →
    Z.pos ma * 2 ^ (ea + 1074) < Z.pos mb * 2 ^ (eb + 1074)).
  { intros ma ea mb eb Hea Hlt Hma Hmb.
    assert (0 < 2 ^ (ea + 1074)) by (apply Z.pow_pos_nonneg; lia).
    assert (2 ^ (ea + 1074 + 1) <= 2 ^ (eb + 1074))
      by (apply Z.pow_le_mono_r; lia).
    rewrite Z.pow_add_r in * by lia.
    change (2 ^ 53) with (2 * 2 ^ 52) in Hma. nia. }
  destruct (Z.compare_spec e1 e2) as [->|Hc|Hc]; symmetry.
  - change (Pos.compare_cont Eq m1 m2) with (Z.pos m1 ?= Z.pos m2).
    assert (0 < 2 ^ (e2 + 1074)) by (apply Z.pow_pos_nonneg; lia).
    symmetry. apply Zmult_compare_compat_r. lia.
  - apply Z.compare_lt_iff. apply Hlt; lia.
  - apply Z.compare_gt_iff. apply Hlt; lia.
Qed.

Lemma SFcompare_val x y :
  valid_binary x = true → valid_binary y = true →
  x ≠ S754_nan → y ≠ S754_nan →
  SFcompare x y = Some (SFval x ?= SFval y).
Proof.
  intros Hx Hy Hnx Hny.
  assert (H2100 : 0 < 2 ^ 2100) by done.
  destruct x as [sx|sx| |sx mx ex], y as [sy|sy| |sy my ey];
    try done; cbn [valid_binary] in Hx, Hy;
    try pose proof (finite_val_bounds mx ex Hx);
    try pose proof (finite_val_bounds my ey Hy);
    try destruct sx; try destruct sy;
    cbn [SFcompare SFval cond_Zopp]; f_equal; symmetry;
    try (apply Z.compare_lt_iff; lia);
    try (apply Z.compare_gt_iff; lia);
    try (apply Z.compare_eq_iff; lia).
  - rewrite Z.compare_opp, Z.compare_antisym.
    rewrite <- (finite_compare mx ex my ey Hx Hy).
    by destruct (ex ?= ey).
  - symmetry. by apply finite_compare.
Qed.



Lemma ltb_val a b :
  Prim2SF a ≠ S754_nan → Prim2SF b ≠ S754_nan →
  (a <? b)%float = (Fval a <? Fval b).
Proof.
  intros Ha Hb. rewrite ltb_spec. unfold SFltb, Z.ltb, Fval.
  by rewrite SFcompare_val by (done || apply Prim2SF_valid).
Qed.

Lemma leb_val a b :
  Prim2SF a ≠ S754_nan → Prim2SF b ≠ S754_nan →
  (a <=? b)%float = (Fval a <=? Fval b).
Proof.
  intros Ha Hb. rewrite leb_spec. unfold SFleb, Z.leb, Fval.
  rewrite SFcompare_val by (done || apply Prim2SF_valid).
  by destruct (_ ?= _).
Qed.

Lemma ltb_nan_l a b : Prim2SF a = S754_nan → (a <? b)%float = false.
Proof. intros Ha. rewrite ltb_spec, Ha. done. Qed.

Lemma ltb_nan_r a b : Prim2SF b = S754_nan → (a <? b)%float = false.
Proof. intros Hb. rewrite ltb_spec, Hb. by destruct (Prim2SF a). Qed.

(** A positive finite Number is determined by its value. *)
Lemma SFval_inj_pos x y :
  valid_binary x = true → valid_binary y = true →
  0 < SFval x < 2 ^ 2100 → SFval x = SFval y → x = y.
Proof.
  intros Hx Hy Hpos Heq.
  assert (H2100 : 0 < 2 ^ 2100) by done.
  destruct x as [sx|sx| |sx mx ex]; cbn [SFval] in Hpos; try lia.
  { destruct sx; cbn [cond_Zopp] in Hpos; lia. }
  cbn [valid_binary] in Hx. pose proof (finite_val_bounds mx ex Hx) as Hbx.
  destruct sx; cbn [cond_Zopp] in Hpos; [lia|].
  cbn [SFval cond_Zopp] in Heq.
  destruct y as [sy|sy| |sy my ey]; cbn [SFval] in Heq; try lia.
  { destruct sy; cbn [cond_Zopp] in Heq; lia. }
  cbn [valid_binary] in Hy. pose proof (finite_val_bounds my ey Hy) as Hby.
  destruct sy; cbn [cond_Zopp] in Heq; [lia|].
  pose proof (finite_compare mx ex my ey Hx Hy) as Hc.
  rewrite Heq, Z.compare_refl in Hc.
  destruct (Z.compare_spec ex ey) as [->|?|?]; try done.
  apply Pos.compare_eq in Hc. by subst.
Qed.

(** ** Division *)

Lemma new_location_0 nb : new_location nb 0 = loc_Exact.
Proof.
  unfold new_location, new_location_even, new_location_odd.
  by destruct (Z.even nb).
Qed.

Lemma SFdiv_core_binary_spec m1 e1 m2 e2 :
  let e' := Z.min (fexp prec emax (Zdigits2 m1 + e1 - (Zdigits2 m2 + e2)))
                  (e1 - e2) in
  let s := e1 - e2 - e' in
  SFdiv_core_binary prec emax m1 e1 m2 e2
  = ((m1 * 2 ^ s) / m2, e', new_location m2 ((m1 * 2 ^ s) mod m2)).
Proof.
  intros e' s. unfold SFdiv_core_binary. fold e'. fold s.
  assert (Hs : 0 <= s) by (unfold s, e'; lia).
  assert (Hm' : match s with
                | 0 => m1 | Z.pos _ => Z.shiftl m1 s | Z.neg _ => 0
                end = m1 * 2 ^ s).
  { destruct s as [|p|p] eqn:Hp; [lia| |lia].
    rewrite Z.shiftl_mul_pow2 by lia. done. }
  rewrite Hm'. unfold Z.div, Z.modulo.
  by destruct (Z.div_eucl (m1 * 2 ^ s) m2).
Qed.

(** The quotient of a positive finite Number by one at least as large
    rounds to at most 1. *)
Lemma SFdiv_pos_le_one sx mc ec mm em :
  bounded prec emax mc ec = true → bounded prec emax mm em = true →
  Z.pos mc * 2 ^ (ec + 1074) <= Z.pos mm * 2 ^ (em + 1074) →
  let '(q, e', l) := SFdiv_core_binary prec emax (Z.pos mc) ec (Z.pos mm) em in
  match binary_round_aux prec emax sx q e' l with
  | S754_zero s => s = sx
  | S754_finite s m e => s = sx ∧ e <= 0 ∧ Z.pos m <= 2 ^ (0 - e)
  | _ => False
  end.
Proof.
  intros Hc Hm Hle. rewrite SFdiv_core_binary_spec.
  destruct (bounded_digits mc ec Hc) as (Hec & Hmc & _).
  destruct (bounded_digits mm em Hm) as (Hem & Hmm & _).
  destruct (Zdigits2_bounds (Z.pos mc) ltac:(lia)) as [Hclo Hchi].
  destruct (Zdigits2_bounds (Z.pos mm) ltac:(lia)) as [Hmlo Hmhi].
  set (dc := Zdigits2 (Z.pos mc)) in *. set (dm := Zdigits2 (Z.pos mm)) in *.
  assert (Hdc : 1 <= dc) by (unfold dc; simpl; lia).
  assert (Hdm : 1 <= dm) by (unfold dm; simpl; lia).
  (* the exponents of the two operands *)
  assert (Hd : dc + ec <= dm + em).
  { destruct (Z_lt_le_dec (dm + em) (dc + ec)) as [Hlt|]; [|done].
    assert (2 ^ (dm + em + 1074) <= 2 ^ (dc - 1 + (ec + 1074)))
      by (apply Z.pow_le_mono_r; lia).
    rewrite (Z.pow_add_r 2 (dc - 1)) in * by lia.
    replace (dm + em + 1074) with (dm + (em + 1074)) in * by lia.
    rewrite (Z.pow_add_r 2 dm) in * by lia.
    assert (0 < 2 ^ (ec + 1074)) by (apply Z.pow_pos_nonneg; lia).
    assert (0 < 2 ^ (em + 1074)) by (apply Z.pow_pos_nonneg; lia).
    nia. }
  set (e' := Z.min (fexp prec emax (dc + ec - (dm + em))) (ec - em)).
  assert (He' : e' <= -53) by (unfold e'; rewrite fexp_eq; lia).
  set (s := ec - em - e').
  assert (Hs : 0 <= s) by (unfold s, e'; lia).
  (* the scaled dividend is at most the divisor times 2^(-e') *)
  assert (Hnum : Z.pos mc * 2 ^ s <= Z.pos mm * 2 ^ (0 - e')).
  { assert (Hp : 0 < 2 ^ (em + 1074)) by (apply Z.pow_pos_nonneg; lia).
    assert (Ht : 0 < 2 ^ (0 - e')) by (apply Z.pow_pos_nonneg; lia).
    assert (HSB : 2 ^ s * 2 ^ (em + 1074) = 2 ^ (ec + 1074) * 2 ^ (0 - e')).
    { rewrite <- !Z.pow_add_r by lia. f_equal. unfold s. lia. }
    apply (Z.mul_le_mono_pos_r _ _ (2 ^ (em + 1074)) Hp).
    rewrite <- Z.mul_assoc, HSB.
    set (A := 2 ^ (ec + 1074)) in *. set (B := 2 ^ (em + 1074)) in *.
    set (T := 2 ^ (0 - e')) in *. nia. }
  assert (Hq : (Z.pos mc * 2 ^ s) / Z.pos mm <= 2 ^ (0 - e')).
  { apply Z.div_le_upper_bound; lia. }
  apply binary_round_aux_le_pow2; try lia.
  - apply Z.div_pos; [|lia]. apply Z.mul_nonneg_nonneg; [lia|].
    apply Z.pow_nonneg. lia.
  - destruct (Z_lt_le_dec ((Z.pos mc * 2 ^ s) / Z.pos mm) (2 ^ (0 - e')))
      as [|Hge]; [by left|right].
    assert (Heq : (Z.pos mc * 2 ^ s) / Z.pos mm = 2 ^ (0 - e')) by lia.
    split; [done|].
    pose proof (Z.div_mod (Z.pos mc * 2 ^ s) (Z.pos mm) ltac:(lia)) as Hdm'.
    pose proof (Z.mod_pos_bound (Z.pos mc * 2 ^ s) (Z.pos mm) ltac:(lia)).
    rewrite Heq in Hdm'.
    assert ((Z.pos mc * 2 ^ s) mod Z.pos mm = 0) as -> by lia.
    apply new_location_0.
Qed.

Lemma is_finite_cases f :
  Num.is_finite f = true →
  (∃ s, Prim2SF f = S754_zero s)
  ∨ (∃ s m e, Prim2SF f = S754_finite s m e ∧ bounded prec emax m e = true).
Proof.
  unfold Num.is_finite. intros Hf. pose proof (Prim2SF_valid f) as Hv.
  destruct (Prim2SF f) as [s|s| |s m e]; try done; [left|right]; eauto.
Qed.

Lemma Fval_pos_cases f :
  Num.is_finite f = true → 0 < Fval f →
  ∃ m e, Prim2SF f = S754_finite false m e ∧ bounded prec emax m e = true
         ∧ Fval f = Z.pos m * 2 ^ (e + 1074).
Proof.
  intros Hf Hpos. unfold Fval in *.
  destruct (is_finite_cases f Hf) as [[s Hs]|(s & m & e & Hs & Hb)];
    rewrite Hs in *; cbn [SFval] in *; [lia|].
  pose proof (finite_val_bounds m e Hb).
  destruct s; cbn [cond_Zopp] in *; [lia|]. by exists m, e.
Qed.

(** Dividing a finite Number by a positive finite Number that is not
    smaller gives a Number of at most 1. *)
Lemma div_le_one (c m : float) :
  Num.is_finite c = true → Num.is_finite m = true →
  0 < Fval m → Fval c <= Fval m →
  Prim2SF (c / m) ≠ S754_nan ∧ Fval (c / m) <= 2 ^ 1074.
Proof.
  intros Hc Hm Hpos Hle.
  pose proof (Prim2SF_valid (c / m)) as Hv.
  unfold Fval in *. rewrite div_spec in *.
  destruct (Fval_pos_cases m Hm Hpos) as (mm & em & Hsm & Hbm & Hvm).
  unfold Fval in Hvm. rewrite Hvm in *. rewrite Hsm in *.
  pose proof (finite_val_bounds mm em Hbm) as Hbm'.
  destruct (is_finite_cases c Hc) as [[s Hs]|(s & mc & ec & Hs & Hbc)];
    rewrite Hs in *.
  - cbn. split; [done|lia].
  - unfold SF64div, SFdiv in *. cbn [SFval] in Hle.
    pose proof (finite_val_bounds mc ec Hbc) as Hbc'.
    destruct s; cbn [cond_Zopp xorb] in *.
    + (* a negative dividend *)
      rewrite SFdiv_core_binary_spec in *.
      match goal with |- context [binary_round_aux _ _ _ ?q ?e ?l] =>
        assert (Hq : 0 <= q);
        [|pose proof (binary_round_aux_sign true q e l Hq) as Hsgn;
          destruct (binary_round_aux prec emax true q e l) as [s|s| |s m' e']]
      end.
      { apply Z.div_pos; [|lia]. apply Z.mul_nonneg_nonneg; [lia|].
        apply Z.pow_nonneg. lia. }
      * cbn. split; [done|lia].
      * subst s. cbn. split; [done|lia].
      * done.
      * subst s. cbn [valid_binary] in Hv.
        pose proof (finite_val_bounds m' e' Hv). cbn. split; [done|lia].
    + (* a positive dividend *)
      pose proof (SFdiv_pos_le_one false mc ec mm em Hbc Hbm Hle) as Hdiv.
      destruct (SFdiv_core_binary prec emax (Z.pos mc) ec (Z.pos mm) em)
        as [[q e'] l].
      destruct (binary_round_aux prec emax false q e' l) as [s|s| |s m' e''];
        try done.
      destruct Hdiv as (-> & He & Hmle). cbn [valid_binary] in Hv.
        destruct (bounded_digits m' e'' Hv) as (He'' & _).
        split; [done|]. cbn [SFval cond_Zopp].
        assert (0 < 2 ^ (e'' + 1074)) by (apply Z.pow_pos_nonneg; lia).
        replace (2 ^ 1074) with (2 ^ (0 - e'') * 2 ^ (e'' + 1074)).
        { apply Z.mul_le_mono_nonneg_r; lia. }
        rewrite <- Z.pow_add_r by lia. f_equal. lia.
Qed.

(** A nonzero finite Number divided by itself is exactly 1. *)
Lemma div_self (m : float) :
  Num.is_finite m = true → Fval m ≠ 0 → (m / m)%float = 1%float.
Proof.
  intros Hm Hne. apply Prim2SF_inj. rewrite div_spec. unfold Fval in Hne.
  destruct (is_finite_cases m Hm) as [[s Hs]|(s & mm & em & Hs & Hb)];
    rewrite Hs in *; [done|].
  unfold SF64div, SFdiv. rewrite SFdiv_core_binary_spec.
  replace (Zdigits2 (Z.pos mm) + em - (Zdigits2 (Z.pos mm) + em)) with 0 by lia.
  replace (em - em) with 0 by lia.
  change (Z.min (fexp prec emax 0) 0) with (-53).
  change (0 - -53) with 53.
  rewrite (Z.mul_comm (Z.pos mm)), Z.div_mul, Z.mod_mul by lia.
  rewrite new_location_0. by destruct s.
Qed.

(** Dividing by 1 changes nothing. *)
Lemma div_one (x : float) : (x / 1)%float = x.
Proof.
  apply Prim2SF_inj. rewrite div_spec. pose proof (Prim2SF_valid x) as Hv.
  change (Prim2SF 1) with (S754_finite false 4503599627370496 (-52)).
  destruct (Prim2SF x) as [s|s| |s m e]; [by destruct s|by destruct s|done|].
  cbn [valid_binary] in Hv. unfold SF64div, SFdiv.
  rewrite SFdiv_core_binary_spec.
  change (Zdigits2 4503599627370496 + -52) with 1.
  pose proof Hv as Hv'. apply bounded_spec in Hv' as [Hcan He].
  rewrite fexp_eq in Hcan.
  destruct (bounded_digits m e Hv) as (Hrange & Hlt & Hnorm).
  set (d := Zdigits2 (Z.pos m)) in *.
  set (e' := Z.min (fexp prec emax (d + e - 1)) (e - -52)).
  assert (He' : e' = Z.max (d + e - 54) (-1074)) by (unfold e'; rewrite fexp_eq; lia).
  set (n := e - e'). assert (Hn : 0 <= n) by lia.
  replace (e - -52 - e') with (n + 52) by (unfold n; lia).
  rewrite Z.pow_add_r, Z.mul_assoc by lia.
  change (Z.pos 4503599627370496) with (2 ^ 52).
  rewrite Z.div_mul, Z.mod_mul by lia. rewrite new_location_0.
  replace e' with (e - n) by (unfold n; lia).
  rewrite xorb_false_r. by apply binary_round_aux_exact.
Qed.


(** ** Nonnegative finite Numbers *)


Lemma nonneg_cases f :
  nonneg f = true →
  Prim2SF f = S754_zero false
  ∨ (∃ m e, Prim2SF f = S754_finite false m e ∧ bounded prec emax m e = true
            ∧ Fval f = Z.pos m * 2 ^ (e + 1074)).
Proof.
  unfold nonneg, Fval. intros Hf. pose proof (Prim2SF_valid f) as Hv.
  destruct (Prim2SF f) as [[]|s| |[] m e]; try done; [by left|right].
  by exists m, e.
Qed.

Lemma nonneg_intro f s m e k :
  Prim2SF f = S754_finite s m e → s = false → e <= k → Z.pos m <= 2 ^ (k - e) →
  nonneg f = true ∧ Fval f <= 2 ^ (k + 1074).
Proof.
  intros Hf -> He Hm. pose proof (Prim2SF_valid f) as Hv.
  unfold nonneg, Fval. rewrite Hf in *. split; [done|].
  cbn [valid_binary] in Hv. destruct (bounded_digits m e Hv) as (Hr & _).
  cbn [SFval cond_Zopp].
  assert (0 < 2 ^ (e + 1074)) by (apply Z.pow_pos_nonneg; lia).
  replace (2 ^ (k + 1074)) with (2 ^ (k - e) * 2 ^ (e + 1074)).
  { apply Z.mul_le_mono_nonneg_r; lia. }
  rewrite <- Z.pow_add_r by lia. f_equal. lia.
Qed.

Lemma nonneg_Fval f : nonneg f = true → 0 <= Fval f.
Proof.
  intros Hf. destruct (nonneg_cases f Hf) as [H0|(m & e & Hs & Hb & ->)].
  - unfold Fval. by rewrite H0.
  - pose proof (finite_val_bounds m e Hb). lia.
Qed.

(** ** Addition *)

(** The sum of two nonnegative Numbers of at most [2^k] is a nonnegative
    Number of at most [2^(k+1)]: it is finite. *)
Lemma add_nonneg_le (a b : float) k :
  -1074 <= k → k + 1 <= 1023 →
  nonneg a = true → nonneg b = true →
  Fval a <= 2 ^ (k + 1074) → Fval b <= 2 ^ (k + 1074) →
  nonneg (a + b) = true ∧ Fval (a + b) <= 2 ^ (k + 1 + 1074).
Proof.
  intros Hk Hk' Ha Hb Hva Hvb.
  assert (Hmono : 2 ^ (k + 1074) <= 2 ^ (k + 1 + 1074))
    by (apply Z.pow_le_mono_r; lia).
  assert (Hsum : ∀ f, Prim2SF (a + b) = Prim2SF f → nonneg f = true →
                  Fval f <= 2 ^ (k + 1074) →
                  nonneg (a + b) = true ∧ Fval (a + b) <= 2 ^ (k + 1 + 1074)).
  { intros f Hf Hn Hv. unfold nonneg, Fval in *. rewrite Hf. split; [done|lia]. }
  destruct (nonneg_cases a Ha) as [Ha0|(ma & ea & Hsa & Hba & Hfa)];
    destruct (nonneg_cases b Hb) as [Hb0|(mb & eb & Hsb & Hbb & Hfb)].
  - apply (Hsum a); [|done..]. by rewrite add_spec, Ha0, Hb0.
  - apply (Hsum b); [|done..]. by rewrite add_spec, Ha0, Hsb.
  - apply (Hsum a); [|done..]. by rewrite add_spec, Hb0, Hsa.
  - pose proof (add_spec a b) as Hadd. rewrite Hsa, Hsb in Hadd.
    unfold SF64add, SFadd in Hadd. cbn [cond_Zopp] in Hadd.
    set (ez := Z.min ea eb) in *.
    destruct (shl_align_spec ma ea ez) as (ma' & ea' & Hala & Hea' & Hma').
    destruct (shl_align_spec mb eb ez) as (mb' & eb' & Halb & Heb' & Hmb').
    rewrite Hala, Halb in Hadd. cbn [fst] in Hadd.
    change (Z.pos ma' + Z.pos mb') with (Z.pos (ma' + mb')) in Hadd.
    cbn [binary_normalize] in Hadd. unfold binary_round in Hadd.
    set (p := (ma' + mb')%positive) in *.
    destruct (shl_align_spec p ez (fexp prec emax (Z.pos (digits2_pos p) + ez)))
      as (mz & ez' & Halz & Hez' & Hmz).
    rewrite Halz in Hadd.
    destruct (bounded_digits ma ea Hba) as (Hear & _).
    destruct (bounded_digits mb eb Hbb) as (Hebr & _).
    assert (Hea'' : ea' = ez) by (unfold ez in *; lia).
    assert (Heb'' : eb' = ez) by (unfold ez in *; lia).
    subst ea' eb'.
    (* the exact sum, in units of 2^-1074 *)
    assert (Hp : Z.pos p * 2 ^ (ez + 1074) = Fval a + Fval b).
    { unfold p. rewrite Pos2Z.inj_add, Hma', Hmb', Hfa, Hfb.
      rewrite Z.mul_add_distr_r, <- !Z.mul_assoc, <- !Z.pow_add_r
        by (unfold ez; lia).
      do 2 f_equal; f_equal; lia. }
    assert (Hpz : 0 < 2 ^ (ez + 1074))
      by (apply Z.pow_pos_nonneg; unfold ez; lia).
    assert (Hple : Z.pos p * 2 ^ (ez + 1074) <= 2 ^ (k + 1 + 1074)).
    { rewrite Hp. replace (k + 1 + 1074) with (1 + (k + 1074)) by lia.
      rewrite (Z.pow_add_r 2 1) by lia. change (2 ^ 1) with 2. lia. }
    assert (Hezk : ez <= k + 1).
    { destruct (Z_lt_le_dec (k + 1) ez) as [Hlt|]; [|done].
      assert (2 ^ (k + 1 + 1074 + 1) <= 2 ^ (ez + 1074))
        by (apply Z.pow_le_mono_r; lia).
      rewrite (Z.pow_add_r _ _ 1) in * by lia. nia. }
    assert (Hpk : Z.pos p <= 2 ^ (k + 1 - ez)).
    { apply (Z.mul_le_mono_pos_r _ _ (2 ^ (ez + 1074)) Hpz).
      rewrite <- Z.pow_add_r by (unfold ez; lia).
      replace (k + 1 - ez + (ez + 1074)) with (k + 1 + 1074) by lia. done. }
    assert (Hez'le : ez' <= ez) by lia.
    pose proof (binary_round_aux_le_pow2 false (Z.pos mz) ez' loc_Exact (k + 1)
                  ltac:(lia) ltac:(lia) ltac:(unfold ez in *; lia) ltac:(lia))
      as Hround.
    rewrite <- Hadd in Hround.
    assert (Hmzk : Z.pos mz <= 2 ^ (k + 1 - ez')).
    { rewrite Hmz.
      replace (k + 1 - ez') with (k + 1 - ez + (ez - ez')) by lia.
      rewrite Z.pow_add_r by lia.
      apply Z.mul_le_mono_nonneg_r; [|done]. apply Z.pow_nonneg. lia. }
    assert (Hcase : Z.pos mz < 2 ^ (k + 1 - ez')
                    ∨ Z.pos mz = 2 ^ (k + 1 - ez') ∧ loc_Exact = loc_Exact).
    { destruct (Z_lt_le_dec (Z.pos mz) (2 ^ (k + 1 - ez'))); [by left|right].
      split; [lia|done]. }
    specialize (Hround Hcase).
    destruct (Prim2SF (a + b)) as [s|s| |s m e] eqn:Hres; try done.
    + subst s. unfold nonneg, Fval. rewrite Hres. split; [done|].
      cbn. apply Z.pow_nonneg. lia.
    + destruct Hround as (Hs & He & Hm).
      by apply (nonneg_intro (a + b) s m e).
Qed.

(** ** Integers as Numbers *)

Lemma Z2F_val z :
  0 <= z < 2 ^ 53 → nonneg (Num.Z2F z) = true ∧ Fval (Num.Z2F z) = z * 2 ^ 1074.
Proof.
  intros Hz. unfold Num.Z2F. destruct z as [|p|p]; [done| |lia].
  cbn [binary_normalize].
  destruct (binary_round_exact false p 0) as (m' & e' & Hr & Hb & He' & Hm');
    [lia|lia| |].
  { assert (Zdigits2 (Z.pos p) <= 53) by (apply Zdigits2_le; lia).
    rewrite fexp_eq. lia. }
  rewrite Hr. unfold nonneg, Fval.
  rewrite Prim2SF_SF2Prim by done. split; [done|].
  cbn [SFval cond_Zopp]. rewrite Hm'.
  destruct (bounded_digits m' e' Hb) as (Hrange & _).
  rewrite <- Z.mul_assoc, <- Z.pow_add_r by lia. do 2 f_equal. lia.
Qed.

(** ** Remainder by 1 *)

Lemma rem_one_range (x : float) :
  nonneg x = true →
  nonneg (Num.rem x 1) = true ∧ Fval (Num.rem x 1) < 2 ^ 1074.
Proof.
  intros Hx. unfold Num.rem.
  change (Prim2SF 1) with (S754_finite false 4503599627370496 (-52)).
  destruct (nonneg_cases x Hx) as [H0|(m & e & Hs & Hb & Hv)].
  - rewrite H0. unfold nonneg, Fval. rewrite H0. done.
  - rewrite Hs. cbn zeta.
    destruct (bounded_digits m e Hb) as (He & Hm & _).
    set (e0 := Z.min e (-52)).
    set (r := (Z.pos m * 2 ^ (e - e0)) mod (4503599627370496 * 2 ^ (-52 - e0))).
    destruct (Z.eqb_spec r 0) as [Hr0|Hr0]; [done|].
    change 4503599627370496 with (2 ^ 52) in r.
    assert (Hdiv : 2 ^ 52 * 2 ^ (-52 - e0) = 2 ^ (0 - e0)).
    { rewrite <- Z.pow_add_r by (unfold e0; lia). f_equal. lia. }
    assert (Hdpos : 0 < 2 ^ (0 - e0))
      by (apply Z.pow_pos_nonneg; unfold e0; lia).
    assert (Hrb : 0 <= r < 2 ^ (0 - e0)).
    { unfold r. rewrite Hdiv. apply Z.mod_pos_bound. done. }
    assert (Hr53 : r < 2 ^ 53).
    { destruct (Z_le_gt_dec e (-52)) as [Hle|Hgt].
      - assert (e0 = e) as He0 by (unfold e0; lia).
        unfold r. rewrite He0, Z.sub_diag, Z.mul_1_r.
        pose proof (Z.mod_le (Z.pos m) (2 ^ 52 * 2 ^ (-52 - e))
                      ltac:(lia) ltac:(rewrite <- He0, Hdiv; done)).
        lia.
      - assert (e0 = -52) as He0 by (unfold e0; lia).
        rewrite He0 in Hrb. change (2 ^ (0 - -52)) with (2 ^ 52) in Hrb.
        assert (2 ^ 52 < 2 ^ 53) by done. lia. }
    destruct r as [|p|p] eqn:Hp; [done| |lia].
    cbn [cond_Zopp binary_normalize].
    destruct (binary_round_exact false p e0) as (m' & e' & Hr & Hb' & He' & Hm');
      [lia|unfold e0; lia| |].
    { assert (Zdigits2 (Z.pos p) <= 53) by (apply Zdigits2_le; lia).
      rewrite fexp_eq. unfold e0. lia. }
    rewrite Hr. unfold nonneg, Fval. rewrite Prim2SF_SF2Prim by done.
    split; [done|]. cbn [SFval cond_Zopp]. rewrite Hm'.
    destruct (bounded_digits m' e' Hb') as (Hrange & _).
    rewrite <- Z.mul_assoc, <- Z.pow_add_r by lia.
    replace (e0 - e' + (e' + 1074)) with (e0 + 1074) by lia.
    assert (0 < 2 ^ (e0 + 1074)) by (apply Z.pow_pos_nonneg; unfold e0; lia).
    replace (2 ^ 1074) with (2 ^ (0 - e0) * 2 ^ (e0 + 1074)).
    { apply Z.mul_lt_mono_pos_r; lia. }
    rewrite <- Z.pow_add_r by (unfold e0; lia). f_equal. lia.
Qed.

(** ** Integers below [2^53] are exact *)

Lemma Z2F_zero : Prim2SF (Num.Z2F 0) = S754_zero false.
Proof. reflexivity. Qed.

Lemma Z2F_SF z :
  0 < z < 2 ^ 53 →
  ∃ m e, Prim2SF (Num.Z2F z) = S754_finite false m e
    ∧ bounded prec emax m e = true
    ∧ Z.pos m * 2 ^ (e + 1074) = z * 2 ^ 1074
    ∧ 2 ^ 52 <= Z.pos m ∧ -52 <= e <= 0.
Proof.
  intros Hz. destruct (Z2F_val z ltac:(lia)) as [Hn Hv].
  assert (Hp : 0 < 2 ^ 1074) by (apply Z.pow_pos_nonneg; lia).
  destruct (nonneg_cases _ Hn) as [H0|(m & e & Hs & Hb & Hf)].
  { unfold Fval in Hv. rewrite H0 in Hv. simpl in Hv. nia. }
  exists m, e. rewrite Hv in Hf. split; [done|]. split; [done|].
  split; [done|].
  destruct (bounded_digits m e Hb) as (Hr & Hm & Hnorm).
  assert (He : -52 <= e).
  { destruct (Z_lt_le_dec e (-52)) as [Hlt|]; [|done].
    assert (2 ^ (e + 1074 + 53) <= 2 ^ 1074) by (apply Z.pow_le_mono_r; lia).
    rewrite Z.pow_add_r in * by lia. nia. }
  split; [apply Hnorm; lia|]. split; [done|].
  destruct (Z_lt_le_dec 0 e) as [Hlt|]; [|done].
  assert (2 ^ 52 <= Z.pos m) by (apply Hnorm; lia).
  assert (2 ^ (1074 + 1) <= 2 ^ (e + 1074)) by (apply Z.pow_le_mono_r; lia).
  rewrite (Z.pow_add_r 2 1074 1) in * by lia.
  change (2 ^ 53) with (2 ^ 52 * 2) in Hz. nia.
Qed.

(** A nonnegative Number whose value is an integer below [2^53] is the
    Number of that integer. *)
Lemma Z2F_eq f z :
  0 <= z < 2 ^ 53 → nonneg f = true → Fval f = z * 2 ^ 1074 →
  f = Num.Z2F z.
Proof.
  intros Hz Hn Hv. apply Prim2SF_inj.
  assert (Hp : 0 < 2 ^ 1074) by (apply Z.pow_pos_nonneg; lia).
  destruct (Z.eq_dec z 0) as [->|Hz0].
  - rewrite Z2F_zero.
    destruct (nonneg_cases _ Hn) as [H0|(m & e & Hs & Hb & Hf)]; [done|].
    pose proof (finite_val_bounds m e Hb). lia.
  - destruct (Z2F_val z ltac:(lia)) as [_ Hvz].
    apply SFval_inj_pos; try apply Prim2SF_valid.
    + fold (Fval f). rewrite Hv.
      assert (2 ^ 53 * 2 ^ 1074 < 2 ^ 2100).
      { rewrite <- Z.pow_add_r by lia. apply Z.pow_lt_mono_r; lia. }
      nia.
    + fold (Fval f). fold (Fval (Num.Z2F z)). lia.
Qed.

Lemma scale_down X Y e :
  X * 2 ^ (e + 1074) = Y * 2 ^ 1074 → -52 <= e →
  X * 2 ^ (e + 52) = Y * 2 ^ 52.
Proof.
  intros H He.
  assert (H1 : 2 ^ (e + 1074) = 2 ^ (e + 52) * 2 ^ 1022).
  { rewrite <- Z.pow_add_r by lia. f_equal. lia. }
  assert (H2 : 2 ^ 1074 = 2 ^ 52 * 2 ^ 1022).
  { rewrite <- Z.pow_add_r by lia. f_equal. }
  rewrite H1, H2, !Z.mul_assoc in H.
  apply Z.mul_cancel_r in H; [done|]. apply Z.pow_nonzero; lia.
Qed.

(** The product of two integers, when below [2^53], is computed exactly. *)
Lemma mul_Z2F a z :
  0 <= a < 2 ^ 53 → 0 <= z < 2 ^ 53 → a * z < 2 ^ 53 →
  (Num.Z2F a * Num.Z2F z)%float = Num.Z2F (a * z).
Proof.
  intros Ha Hz Haz. apply Prim2SF_inj. rewrite mul_spec.
  assert (H53 : 0 < 2 ^ 53) by done.
  destruct (Z.eq_dec a 0) as [->|Ha0].
  { rewrite Z.mul_0_l, Z2F_zero.
    destruct (Z2F_val z Hz) as [Hn _].
    destruct (nonneg_cases _ Hn) as [->|(m & e & -> & _)]; done. }
  destruct (Z.eq_dec z 0) as [->|Hz0].
  { rewrite Z.mul_0_r, Z2F_zero.
    destruct (Z2F_val a Ha) as [Hn _].
    destruct (nonneg_cases _ Hn) as [->|(m & e & -> & _)]; done. }
  destruct (Z2F_SF a ltac:(lia)) as (ma & ea & Hsa & Hba & Hva & Hma & Hea).
  destruct (Z2F_SF z ltac:(lia)) as (mz & ez & Hsz & Hbz & Hvz & Hmz & Hez).
  destruct (Z2F_SF (a * z) ltac:(nia)) as (m & e & Hs & Hb & Hv & Hm & He).
  rewrite Hsa, Hsz, Hs. unfold SF64mul, SFmul. simpl xorb.
  destruct (bounded_digits m e Hb) as (_ & Hm53 & _).
  set (n := e - (ea + ez)).
  assert (Hprod : Z.pos ma * Z.pos mz * 2 ^ (ea + ez + 104) = Z.pos m * 2 ^ (e + 104)).
  { assert (Hp : 0 < 2 ^ 1074) by (apply Z.pow_pos_nonneg; lia).
    assert (Ha' : Z.pos ma * 2 ^ (ea + 52) = a * 2 ^ 52)
      by (apply scale_down; [done|lia]).
    assert (Hz' : Z.pos mz * 2 ^ (ez + 52) = z * 2 ^ 52)
      by (apply scale_down; [done|lia]).
    assert (Hm' : Z.pos m * 2 ^ (e + 52) = a * z * 2 ^ 52)
      by (apply scale_down; [done|lia]).
    assert (HAB : 2 ^ (ea + ez + 104) = 2 ^ (ea + 52) * 2 ^ (ez + 52)).
    { rewrite <- Z.pow_add_r by lia. f_equal. lia. }
    assert (HC : 2 ^ (e + 104) = 2 ^ (e + 52) * 2 ^ 52).
    { rewrite <- Z.pow_add_r by lia. f_equal. lia. }
    rewrite HAB, HC.
    set (A := 2 ^ (ea + 52)) in *. set (B := 2 ^ (ez + 52)) in *.
    set (C := 2 ^ (e + 52)) in *. set (D := 2 ^ 52) in *.
    transitivity ((Z.pos ma * A) * (Z.pos mz * B)); [lia|].
    rewrite Ha', Hz'. transitivity ((Z.pos m * C) * D); [|lia].
    rewrite Hm'. lia. }
  assert (Hn : 0 <= n).
  { destruct (Z_lt_le_dec n 0) as [Hlt|]; [|done]. exfalso.
    assert (2 ^ (e + 104 + 1) <= 2 ^ (ea + ez + 104))
      by (apply Z.pow_le_mono_r; unfold n in Hlt; lia).
    rewrite (Z.pow_add_r 2 (e + 104) 1) in * by lia.
    assert (0 < 2 ^ (e + 104)) by (apply Z.pow_pos_nonneg; lia).
    assert (2 ^ 52 * 2 ^ 52 <= Z.pos ma * Z.pos mz) by nia.
    change (2 ^ 53) with (2 ^ 52 * 2) in Hm53.
    assert (1 < 2 ^ 52) by done. nia. }
  assert (Hmn : Z.pos ma * Z.pos mz = Z.pos m * 2 ^ n).
  { assert (0 < 2 ^ (ea + ez + 104)) by (apply Z.pow_pos_nonneg; lia).
    apply (Z.mul_cancel_r _ _ (2 ^ (ea + ez + 104))); [lia|].
    rewrite Hprod, <- Z.mul_assoc, <- Z.pow_add_r by lia.
    do 2 f_equal. unfold n. lia. }
  rewrite Pos2Z.inj_mul, Hmn.
  replace (ea + ez) with (e - n) by (unfold n; lia).
  by apply binary_round_aux_exact.
Qed.

(** The remainder of two integers below [2^53] is computed exactly. *)
Lemma rem_Z2F x d :
  0 <= x < 2 ^ 53 → 0 < d < 2 ^ 53 →
  Num.rem (Num.Z2F x) (Num.Z2F d) = Num.Z2F (x mod d).
Proof.
  intros Hx Hd. unfold Num.rem.
  destruct (Z2F_SF d Hd) as (md & ed & Hsd & Hbd & Hvd & Hmd & Hed).
  rewrite Hsd.
  destruct (Z.eq_dec x 0) as [->|Hx0].
  { rewrite Z2F_zero. by rewrite Z.mod_0_l by lia. }
  destruct (Z2F_SF x ltac:(lia)) as (mx & ex & Hsx & Hbx & Hvx & Hmx & Hex).
  rewrite Hsx. cbn zeta.
  destruct (bounded_digits mx ex Hbx) as (_ & Hmx53 & _).
  destruct (bounded_digits md ed Hbd) as (_ & Hmd53 & _).
  set (e := Z.min ex ed).
  assert (He : -52 <= e <= 0) by (unfold e; lia).
  assert (Hp : 0 < 2 ^ (0 - e)) by (apply Z.pow_pos_nonneg; lia).
  assert (HN : Z.pos mx * 2 ^ (ex - e) = x * 2 ^ (0 - e)).
  { apply (Z.mul_cancel_r _ _ (2 ^ (e + 1074))); [apply Z.pow_nonzero; lia|].
    rewrite <- !Z.mul_assoc, <- !Z.pow_add_r by lia.
    replace (ex - e + (e + 1074)) with (ex + 1074) by lia.
    replace (0 - e + (e + 1074)) with 1074 by lia. done. }
  assert (HD : Z.pos md * 2 ^ (ed - e) = d * 2 ^ (0 - e)).
  { apply (Z.mul_cancel_r _ _ (2 ^ (e + 1074))); [apply Z.pow_nonzero; lia|].
    rewrite <- !Z.mul_assoc, <- !Z.pow_add_r by lia.
    replace (ed - e + (e + 1074)) with (ed + 1074) by lia.
    replace (0 - e + (e + 1074)) with 1074 by lia. done. }
  assert (Hr : (Z.pos mx * 2 ^ (ex - e)) mod (Z.pos md * 2 ^ (ed - e))
               = (x mod d) * 2 ^ (0 - e)).
  { rewrite HN, HD. apply Z.mul_mod_distr_r; lia. }
  assert (Hr53 : (x mod d) * 2 ^ (0 - e) < 2 ^ 53).
  { rewrite <- Hr. destruct (Z_le_gt_dec ex ed) as [Hle|Hgt].
    - assert (e = ex) as He' by (unfold e; lia).
      rewrite He', Z.sub_diag, Z.mul_1_r.
      assert (0 < Z.pos md * 2 ^ (ed - ex)).
      { apply Z.mul_pos_pos; [lia|]. apply Z.pow_pos_nonneg; lia. }
      pose proof (Z.mod_le (Z.pos mx) (Z.pos md * 2 ^ (ed - ex))
                    ltac:(lia) ltac:(lia)). lia.
    - assert (e = ed) as He' by (unfold e; lia).
      rewrite He', Z.sub_diag, Z.mul_1_r.
      pose proof (Z.mod_pos_bound (Z.pos mx * 2 ^ (ex - ed)) (Z.pos md)
                    ltac:(lia)). lia. }
  rewrite Hr. pose proof (Z.mod_pos_bound x d ltac:(lia)) as Hmod.
  destruct (Z.eqb_spec ((x mod d) * 2 ^ (0 - e)) 0) as [H0|H0].
  { assert (x mod d = 0) as -> by nia. apply Prim2SF_inj. by rewrite Z2F_zero. }
  apply Z2F_eq; [lia| |].
  - destruct ((x mod d) * 2 ^ (0 - e)) as [|p|p] eqn:Hpq; [done| |nia].
    cbn [cond_Zopp binary_normalize].
    destruct (binary_round_exact false p e) as (m' & e' & Hrd & Hb' & _);
      [lia|lia| |].
    { assert (Zdigits2 (Z.pos p) <= 53) by (apply Zdigits2_le; lia).
      rewrite fexp_eq. lia. }
    rewrite Hrd. unfold nonneg. by rewrite Prim2SF_SF2Prim.
  - destruct ((x mod d) * 2 ^ (0 - e)) as [|p|p] eqn:Hpq; [done| |nia].
    cbn [cond_Zopp binary_normalize].
    destruct (binary_round_exact false p e) as (m' & e' & Hrd & Hb' & He' & Hm');
      [lia|lia| |].
    { assert (Zdigits2 (Z.pos p) <= 53) by (apply Zdigits2_le; lia).
      rewrite fexp_eq. lia. }
    rewrite Hrd. unfold Fval. rewrite Prim2SF_SF2Prim by done.
    cbn [SFval cond_Zopp]. rewrite Hm', <- Hpq.
    destruct (bounded_digits m' e' Hb') as (Hrange & _).
    rewrite <- !Z.mul_assoc, <- !Z.pow_add_r by lia.
    do 2 f_equal. lia.
Qed.

Lemma isInteger_Z2F z : 0 <= z < 2 ^ 53 → Num.isInteger (Num.Z2F z) = true.
Proof.
  intros Hz. unfold Num.isInteger.
  destruct (Z.eq_dec z 0) as [->|Hz0]; [done|].
  destruct (Z2F_SF z ltac:(lia)) as (m & e & -> & Hb & Hv & Hm & He).
  apply orb_true_iff. right. apply Z.eqb_eq.
  assert (Hme : Z.pos m = z * 2 ^ (- e)).
  { apply (Z.mul_cancel_r _ _ (2 ^ (e + 1074))); [apply Z.pow_nonzero; lia|].
    rewrite <- (Z.mul_assoc z), <- Z.pow_add_r by lia.
    replace (- e + (e + 1074)) with 1074 by lia. done. }
  rewrite Hme. apply Z.mod_mul. apply Z.pow_nonzero; lia.
Qed.

(** Comparisons of integers below [2^53] are those of the integers. *)
Lemma leb_Z2F a b :
  0 <= a < 2 ^ 53 → 0 <= b < 2 ^ 53 →
  (Num.Z2F a <=? Num.Z2F b)%float = (a <=? b).
Proof.
  intros Ha Hb.
  destruct (Z2F_val a Ha) as [Hna Hva]. destruct (Z2F_val b Hb) as [Hnb Hvb].
  assert (Hp : 0 < 2 ^ 1074) by (apply Z.pow_pos_nonneg; lia).
  rewrite leb_val.
  - rewrite Hva, Hvb.
    destruct (Z.leb_spec a b); [apply Z.leb_le|apply Z.leb_gt]; nia.
  - unfold nonneg in Hna. by destruct (Prim2SF (Num.Z2F a)).
  - unfold nonneg in Hnb. by destruct (Prim2SF (Num.Z2F b)).
Qed.

(** * Normalization *)

Lemma elements_dense m :
  (∀ i, 0 <= i < len m → is_Some (cells m !! i)) →
  elements m = get m <$> seqZ 0 (len m).
Proof.
  intros Hd. unfold elements.
  assert (H : ∀ l : list Z, (∀ i, i ∈ l → 0 <= i < len m) →
            omap (λ i, cells m !! i) l = get m <$> l).
  { induction l as [|i l IH]; intros Hl; [done|].
    simpl. destruct (Hd i) as [v Hv]; [apply Hl; left|].
    unfold get at 1. rewrite Hv. simpl. f_equal. apply IH.
    intros j Hj. apply Hl. by right. }
  apply H. intros i Hi. apply elem_of_seqZ in Hi. lia.
Qed.

(** The [reduce] of [maxValueOf], over Numbers other than NaN, returns one
    of them that no other exceeds. *)
Lemma max_fold_spec (vs : list value) (v : value) :
  (∀ w, w ∈ v :: vs → numeric w) →
  foldl max_step v vs ∈ v :: vs
  ∧ ∀ w, w ∈ v :: vs →
      Fval (ToNumber w) <= Fval (ToNumber (foldl max_step v vs)).
Proof.
  revert v. induction vs as [|y vs IH]; intros v Hnum.
  - simpl. split; [left|]. intros w Hw. apply list_elem_of_singleton in Hw.
    subst. lia.
  - simpl foldl.
    destruct (Hnum v ltac:(left)) as (fv & -> & Hfv).
    destruct (Hnum y ltac:(right; left)) as (fy & -> & Hfy).
    assert (Hstep : max_step (Number fv) (Number fy) ∈ [Number fv; Number fy]
              ∧ Fval fv <= Fval (ToNumber (max_step (Number fv) (Number fy)))
              ∧ Fval fy <= Fval (ToNumber (max_step (Number fv) (Number fy)))).
    { unfold max_step, js_gt. simpl. rewrite ltb_val by done.
      destruct (Z.ltb_spec (Fval fy) (Fval fv)); simpl.
      - split; [left|lia].
      - split; [right; left|lia]. }
    destruct Hstep as (Hin & Hv & Hy).
    destruct (IH (max_step (Number fv) (Number fy))) as [Hr Hmax].
    { intros w Hw. apply elem_of_cons in Hw as [->|Hw].
      - apply Hnum. apply elem_of_cons in Hin as [->|Hin]; [left|].
        apply list_elem_of_singleton in Hin as ->. right; left.
      - apply Hnum. by do 2 right. }
    split.
    + apply elem_of_cons in Hr as [->|Hr].
      * apply elem_of_cons in Hin as [->|Hin]; [left|].
        apply list_elem_of_singleton in Hin as ->. right; left.
      * by do 2 right.
    + intros w Hw.
      pose proof (Hmax _ ltac:(left)) as Hs.
      apply elem_of_cons in Hw as [->|Hw]; [simpl; lia|].
      apply elem_of_cons in Hw as [->|Hw]; [simpl; lia|].
      apply Hmax. by right.
Qed.

Lemma maxValueOf_spec m :
  0 < len m →
  (∀ i, 0 <= i < len m → numeric (get m i) ∧ is_Some (cells m !! i)) →
  ∃ r, maxValueOf m = Ok r
    ∧ (∃ i, 0 <= i < len m ∧ get m i = r)
    ∧ ∀ i, 0 <= i < len m → Fval (ToNumber (get m i)) <= Fval (ToNumber r).
Proof.
  intros Hlen Hc. unfold maxValueOf.
  rewrite elements_dense by (intros i Hi; by apply Hc).
  destruct (get m <$> seqZ 0 (len m)) as [|v vs] eqn:Hel.
  { apply fmap_nil_inv in Hel.
    assert (0 ∈ seqZ 0 (len m)) as Hin by (apply elem_of_seqZ; lia).
    rewrite Hel in Hin. by apply elem_of_nil in Hin. }
  assert (Hmem : ∀ w, w ∈ v :: vs ↔ ∃ i, 0 <= i < len m ∧ get m i = w).
  { intros w. rewrite <- Hel, list_elem_of_fmap. split.
    - intros (i & -> & Hi). apply elem_of_seqZ in Hi. exists i. split; [lia|done].
    - intros (i & Hi & <-). exists i. split; [done|]. apply elem_of_seqZ. lia. }
  destruct (max_fold_spec vs v) as [Hr Hmax].
  { intros w Hw. apply Hmem in Hw as (i & Hi & <-). by apply Hc. }
  eexists. split; [reflexivity|]. split.
  - by apply Hmem.
  - intros i Hi. apply Hmax. apply Hmem. by exists i.
Qed.

Lemma is_finite_not_nan f : Num.is_finite f = true → Prim2SF f ≠ S754_nan.
Proof. unfold Num.is_finite. by destruct (Prim2SF f). Qed.

Section Normalize.
Variable m : Matrix.
Hypothesis Hfin : finite_square m.
Variable fmax : float.
Hypothesis Hmax : maxValueOf m = Ok (Number fmax).
Hypothesis Hpos : js_gt (Number fmax) (num 0) = true.

Let n : Matrix := mapMatrix m (λ x _ _, js_div x (Number fmax)).

Lemma normalize_ok : normalizeMatrix m = Ok n.
Proof. unfold normalizeMatrix. by rewrite Hmax. Qed.

Lemma normalize_cell i :
  cells n !! i
  = if decide (0 <= i < len m)
    then Some (Number (ToNumber (get m i) / fmax)) else None.
Proof.
  destruct Hfin as (Hnn & Hsq & Hlen & _).
  unfold n. by rewrite mapMatrix_square_lookup.
Qed.

Lemma normalize_dims :
  width n = width m ∧ height n = height m ∧ len n = len m.
Proof.
  destruct Hfin as (Hnn & Hsq & Hlen & _).
  destruct (mapMatrix_dims m (λ x _ _, js_div x (Number fmax))) as [Hw Hh].
  split; [exact Hw|]. split; [exact Hh|].
  unfold n. by apply mapMatrix_square_len.
Qed.

Lemma max_is_cell :
  0 < len m ∧ Num.is_finite fmax = true ∧ 0 < Fval fmax
  ∧ (∃ i, 0 <= i < len m ∧ get m i = Number fmax)
  ∧ ∀ i, 0 <= i < len m → Fval (ToNumber (get m i)) <= Fval fmax.
Proof.
  destruct Hfin as (Hnn & Hsq & Hlen & Hcells).
  assert (Hl : 0 < len m).
  { destruct (Z_lt_le_dec 0 (len m)) as [|Hle]; [done|].
    unfold maxValueOf, elements in Hmax.
    rewrite seqZ_nil in Hmax by lia. done. }
  destruct (maxValueOf_spec m Hl) as (r & Hr & (i & Hi & Hgi) & Hle).
  { intros i Hi. destruct (Hcells i Hi) as (f & Hf & Hff).
    unfold get. rewrite Hf. split; [|done].
    exists f. split; [done|]. by apply is_finite_not_nan. }
  rewrite Hmax in Hr. injection Hr as <-.
  destruct (Hcells i Hi) as (f & Hf & Hff).
  unfold get in Hgi. rewrite Hf in Hgi. simpl in Hgi. injection Hgi as ->.
  split; [done|]. split; [done|]. split.
  - unfold js_gt in Hpos. simpl in Hpos.
    rewrite ltb_val in Hpos by (done || by apply is_finite_not_nan).
    apply Z.ltb_lt in Hpos. exact Hpos.
  - split; [|exact Hle]. exists i. split; [done|].
    unfold get. by rewrite Hf.
Qed.

(** Every cell of the normalized matrix is a Number of at most 1, and one
    of them is exactly 1. *)
Lemma normalize_cells_le_one i :
  0 <= i < len m →
  ∃ f, cells n !! i = Some (Number f)
    ∧ Prim2SF f ≠ S754_nan ∧ Fval f <= 2 ^ 1074.
Proof.
  intros Hi. destruct max_is_cell as (_ & Hfm & Hvm & _ & Hle).
  destruct Hfin as (_ & _ & _ & Hcells).
  destruct (Hcells i Hi) as (f & Hf & Hff).
  rewrite normalize_cell, decide_True by done.
  eexists. split; [reflexivity|].
  specialize (Hle i Hi). unfold get in *. rewrite Hf in *. simpl in *.
  by apply div_le_one.
Qed.

Lemma normalize_has_one :
  ∃ i, 0 <= i < len m ∧ cells n !! i = Some (Number 1).
Proof.
  destruct max_is_cell as (_ & Hfm & Hvm & (i & Hi & Hgi) & _).
  exists i. split; [done|].
  rewrite normalize_cell, decide_True by done.
  rewrite Hgi. simpl. rewrite div_self; [done|done|lia].
Qed.

Lemma normalize_max : maxValueOf n = Ok (Number 1).
Proof.
  destruct normalize_dims as (Hw & Hh & Hl).
  destruct max_is_cell as (Hlen & _).
  destruct (maxValueOf_spec n) as (r & -> & (j & Hj & Hgj) & Hle).
  { lia. }
  { intros i Hi. rewrite Hl in Hi.
    destruct (normalize_cells_le_one i Hi) as (f & Hf & Hn & _).
    unfold get. rewrite Hf. split; [|done]. by exists f. }
  f_equal. rewrite Hl in Hj.
  destruct (normalize_cells_le_one j Hj) as (f & Hf & Hn & Hf1).
  unfold get in Hgj. rewrite Hf in Hgj. simpl in Hgj. subst r.
  destruct normalize_has_one as (i & Hi & Hone).
  specialize (Hle i ltac:(lia)). unfold get in Hle. rewrite Hone in Hle.
  simpl in Hle. change (Fval 1) with (2 ^ 1074) in Hle.
  f_equal. apply Prim2SF_inj.
  apply SFval_inj_pos; try apply Prim2SF_valid.
  - unfold Fval in *.
    assert (0 < 2 ^ 1074) by (apply Z.pow_pos_nonneg; lia).
    assert (2 ^ 1074 < 2 ^ 2100) by (apply Z.pow_lt_mono_r; lia).
    lia.
  - unfold Fval in *. change (SFval (Prim2SF 1)) with (2 ^ 1074). lia.
Qed.

Lemma normalize_twice : normalizeMatrix n = Ok n.
Proof.
  unfold normalizeMatrix. rewrite normalize_max. simpl. f_equal.
  destruct normalize_dims as (Hw & Hh & Hl).
  destruct Hfin as (Hnn & Hsq & Hlen & _).
  destruct (mapMatrix_dims n (λ x _ _, js_div x (Number 1))) as [Hw' Hh'].
  apply Matrix_eq; [|by apply mapMatrix_square_len; lia|done|done].
  apply map_eq. intros i.
  rewrite mapMatrix_square_lookup by lia. rewrite Hl.
  destruct (decide (0 <= i < len m)) as [Hi|Hi].
  - destruct (normalize_cells_le_one i Hi) as (f & Hf & _).
    unfold get. rewrite Hf. simpl. unfold js_div. simpl.
    by rewrite div_one.
  - by rewrite normalize_cell, decide_False.
Qed.
End Normalize.

Lemma float_neq_by (g : float → bool) (a b : float) : g a ≠ g b → a ≠ b.
Proof. intros Hg ->. done. Qed.

Lemma Fval_one : Fval 1 = 2 ^ 1074.
Proof. reflexivity. Qed.

Lemma finite_square_of_list (w : Z) (fs : list float) :
  0 <= w → Z.of_nat (length fs) = w * w →
  Forall (λ f, Num.is_finite f = true) fs →
  finite_square (matrix_of_list w w (Number <$> fs)).
Proof.
  intros Hw Hlen Hfin. unfold finite_square, matrix_of_list. simpl.
  rewrite length_fmap. split; [done|]. split; [done|]. split; [done|].
  intros i Hi.
  destruct (lookup_lt_is_Some_2 fs (Z.to_nat i) ltac:(lia)) as [f Hf].
  exists f. split.
  - apply elem_of_list_to_map.
    + rewrite fst_zip by (rewrite length_seqZ, length_fmap; lia).
      apply NoDup_seqZ.
    + apply list_elem_of_lookup. exists (Z.to_nat i).
      apply lookup_zip_with_Some. exists i, (Number f).
      split; [done|]. split.
      * rewrite lookup_seqZ. split; lia.
      * by rewrite list_lookup_fmap, Hf.
  - eapply Forall_lookup_1 in Hfin; [|exact Hf]. done.
Qed.

(** C8, as the code has it: for every square matrix whose cells are all
    finite Numbers, one of them positive, the maximum of the normalized
    matrix is exactly 1. *)
Theorem normalize_max_is_one (m : Matrix) :
  finite_square m →
  (∃ i, 0 <= i < len m ∧ js_gt (get m i) (num 0) = true) →
  ∃ n, normalizeMatrix m = Ok n ∧ maxValueOf n = Ok (Number 1).
Proof.
  intros Hfin (i & Hi & Hpos).
  pose proof Hfin as (_ & _ & _ & Hcells).
  destruct (maxValueOf_spec m ltac:(lia)) as (r & Hr & (j & Hj & Hgj) & Hle).
  { intros k Hk. destruct (Hcells k Hk) as (f & Hf & Hff).
    unfold get. rewrite Hf. split; [|done].
    exists f. split; [done|]. by apply is_finite_not_nan. }
  destruct (Hcells j Hj) as (fj & Hfj & Hffj).
  destruct (Hcells i Hi) as (fi & Hfi & Hffi).
  unfold get in Hgj, Hpos. rewrite Hfj in Hgj. rewrite Hfi in Hpos.
  simpl in Hgj, Hpos. subst r.
  assert (Hgt : js_gt (Number fj) (num 0) = true).
  { unfold js_gt in *. simpl in *.
    rewrite ltb_val in * by (done || by apply is_finite_not_nan).
    apply Z.ltb_lt in Hpos. apply Z.ltb_lt.
    specialize (Hle i Hi). unfold get in Hle. rewrite Hfi in Hle.
    simpl in Hle. lia. }
  eexists. split; [by apply normalize_ok|].
  by apply normalize_max.
Qed.

Lemma normalize_max_is_one_witness :
  let m := matrix_of_list 2 2 (Number <$> [1; 4; 2; 3]%float) in
  finite_square m
  ∧ (∃ i, 0 <= i < len m ∧ js_gt (get m i) (num 0) = true)
  ∧ ∃ n, normalizeMatrix m = Ok n ∧ maxValueOf n = Ok (Number 1).
Proof.
  assert (H1 : finite_square (matrix_of_list 2 2 (Number <$> [1; 4; 2; 3]%float))).
  { apply finite_square_of_list; [lia|reflexivity|].
    repeat constructor. }
  assert (H2 : ∃ i, 0 <= i < len (matrix_of_list 2 2 (Number <$> [1; 4; 2; 3]%float))
                    ∧ js_gt (get (matrix_of_list 2 2 (Number <$> [1; 4; 2; 3]%float)) i)
                            (num 0) = true).
  { exists 0. split; [simpl; lia|reflexivity]. }
  exact (conj H1 (conj H2 (normalize_max_is_one _ H1 H2))).
Defined.

(** C8 as stated fails on a cell that is not finite: the 1 by 1 matrix
    holding Infinity has a positive cell, and normalizing it gives
    Infinity / Infinity, NaN, whose maximum is NaN. *)
Lemma normalize_max_infinity :
  let m := matrix_of_list 1 1 [Number infinity] in
  js_gt (get m 0) (num 0) = true
  ∧ ∃ n, normalizeMatrix m = Ok n
      ∧ maxValueOf n = Ok (Number nan)
      ∧ maxValueOf n ≠ Ok (Number 1).
Proof.
  split; [reflexivity|].
  exists (mapMatrix (matrix_of_list 1 1 [Number infinity])
            (λ x _ _, js_div x (Number infinity))).
  split; [reflexivity|].
  assert (H : maxValueOf (mapMatrix (matrix_of_list 1 1 [Number infinity])
                (λ x _ _, js_div x (Number infinity))) = Ok (Number nan))
    by (vm_compute; reflexivity).
  split; [exact H|]. rewrite H. intros Heq.
  assert (Hn := f_equal (λ r, match r with
                              | Ok v => ToNumber v
                              | Throw _ => 0%float
                              end) Heq).
  simpl in Hn. revert Hn.
  apply (float_neq_by (λ f, (f =? f)%float)). done.
Qed.

(** C7, as the code has it: for every square matrix whose cells are all
    finite Numbers and whose maximum is positive, normalizing the
    normalized matrix returns it unchanged. *)
Theorem normalize_idempotent (m : Matrix) (fmax : float) :
  finite_square m →
  maxValueOf m = Ok (Number fmax) →
  js_gt (Number fmax) (num 0) = true →
  ∃ n, normalizeMatrix m = Ok n ∧ normalizeMatrix n = Ok n.
Proof.
  intros Hfin Hmax Hpos. eexists. split; [by apply normalize_ok|].
  by apply normalize_twice.
Qed.

Lemma normalize_idempotent_witness :
  let m := matrix_of_list 2 2 (Number <$> [1; 4; 2; 3]%float) in
  finite_square m
  ∧ maxValueOf m = Ok (Number 4)
  ∧ js_gt (Number 4) (num 0) = true
  ∧ ∃ n, normalizeMatrix m = Ok n ∧ normalizeMatrix n = Ok n.
Proof.
  assert (H1 : finite_square (matrix_of_list 2 2 (Number <$> [1; 4; 2; 3]%float))).
  { apply finite_square_of_list; [lia|reflexivity|].
    repeat constructor. }
  assert (H2 : maxValueOf (matrix_of_list 2 2 (Number <$> [1; 4; 2; 3]%float))
               = Ok (Number 4)) by reflexivity.
  assert (H3 : js_gt (Number 4) (num 0) = true) by reflexivity.
  exact (conj H1 (conj H2 (conj H3 (normalize_idempotent _ 4 H1 H2 H3)))).
Defined.

(** C7 as stated fails on a negative maximum: the 2 by 2 matrix
    [-1, -2, -2, -2] has maximum -1, not zero; it normalizes to
    [1, 2, 2, 2], which normalizes to [0.5, 1, 1, 1]. *)
Lemma normalize_negative_max_not_idempotent :
  let m := matrix_of_list 2 2 (Number <$> [-1; -2; -2; -2]%float) in
  finite_square m
  ∧ maxValueOf m = Ok (Number (-1))
  ∧ (-1 =? 0)%float = false
  ∧ ∃ n1 n2, normalizeMatrix m = Ok n1 ∧ normalizeMatrix n1 = Ok n2
      ∧ get n1 0 = Number 1 ∧ get n2 0 = Number 0.5 ∧ n2 ≠ n1.
Proof.
  split.
  { apply finite_square_of_list; [lia|reflexivity|]. repeat constructor. }
  split; [reflexivity|]. split; [reflexivity|].
  exists (mapMatrix (matrix_of_list 2 2 (Number <$> [-1; -2; -2; -2]%float))
            (λ x _ _, js_div x (Number (-1)))).
  eexists. split; [reflexivity|]. split; [vm_compute; reflexivity|].
  assert (H1 : get (mapMatrix (matrix_of_list 2 2 (Number <$> [-1; -2; -2; -2]%float))
                      (λ x _ _, js_div x (Number (-1)))) 0 = Number 1)
    by (vm_compute; reflexivity).
  split; [exact H1|]. split; [reflexivity|].
  intros Heq. apply (f_equal (λ a, ToNumber (get a 0))) in Heq.
  rewrite H1 in Heq. simpl in Heq. revert Heq.
  apply (float_neq_by (λ f, (f <? 1)%float)). done.
Qed.

(** * The generator *)

(** Dividing a nonnegative Number by a positive one that is not smaller
    gives a nonnegative Number of at most 1. *)
Lemma div_nonneg_le_one (c m : float) :
  nonneg c = true → nonneg m = true → 0 < Fval m → Fval c <= Fval m →
  nonneg (c / m) = true ∧ Fval (c / m) <= 2 ^ 1074.
Proof.
  intros Hc Hm Hpos Hle.
  destruct (nonneg_cases m Hm) as [H0|(mm & em & Hsm & Hbm & Hvm)].
  { unfold Fval in Hpos. rewrite H0 in Hpos. simpl in Hpos. lia. }
  pose proof (div_spec c m) as Hdiv. rewrite Hsm in Hdiv.
  destruct (nonneg_cases c Hc) as [H0|(mc & ec & Hsc & Hbc & Hvc)].
  - rewrite H0 in Hdiv. simpl in Hdiv. unfold nonneg, Fval. rewrite Hdiv.
    split; [done|]. simpl. apply Z.pow_nonneg. lia.
  - rewrite Hsc in Hdiv. unfold SF64div, SFdiv in Hdiv.
    rewrite Hvc, Hvm in Hle.
    pose proof (SFdiv_pos_le_one false mc ec mm em Hbc Hbm Hle) as Hb.
    destruct (SFdiv_core_binary prec emax (Z.pos mc) ec (Z.pos mm) em)
      as [[q e'] l].
    simpl xorb in Hdiv. rewrite <- Hdiv in Hb.
    destruct (Prim2SF (c / m)) as [s|s| |s m' e''] eqn:Hres; try done.
    + subst s. unfold nonneg, Fval. rewrite Hres. split; [done|].
      simpl. apply Z.pow_nonneg. lia.
    + destruct Hb as (Hs & He & Hm').
      apply (nonneg_intro (c / m) s m' e'' 0); done.
Qed.

Lemma nonneg_not_nan f : nonneg f = true → Prim2SF f ≠ S754_nan.
Proof. unfold nonneg. by destruct (Prim2SF f). Qed.

(** One congruential step on an integer state, in Numbers. *)
Lemma lcg_step (a md z : Z) :
  0 <= a < 2 ^ 53 → 0 <= z < 2 ^ 53 → a * z < 2 ^ 53 → 0 < md < 2 ^ 53 →
  js_rem (js_mul (num a) (num z)) (num md) = num (a * z mod md).
Proof.
  intros Ha Hz Haz Hmd. unfold js_rem, js_mul, num. simpl. f_equal.
  rewrite mul_Z2F by done. apply rem_Z2F; [nia|done].
Qed.

(** The quotient of a residue by its modulus is a Number in [0, 1]. *)
Lemma quotient_range (t md : Z) :
  0 <= t < md → md < 2 ^ 53 →
  nonneg (Num.Z2F t / Num.Z2F md) = true
  ∧ Fval (Num.Z2F t / Num.Z2F md) <= 2 ^ 1074.
Proof.
  intros Ht Hmd.
  destruct (Z2F_val t ltac:(lia)) as [Hnt Hvt].
  destruct (Z2F_val md ltac:(lia)) as [Hnm Hvm].
  assert (0 < 2 ^ 1074) by (apply Z.pow_pos_nonneg; lia).
  apply div_nonneg_le_one; [done|done|nia|nia].
Qed.

(** C1: from a state of three integers in [1, 30000], [next] replaces the
    state by [(171 s1) mod 30269], [(172 s2) mod 30307],
    [(170 s3) mod 30323], and returns
    [(s1/30269 + s2/30307 + s3/30323) % 1] computed on the new state, a
    Number [r] with [0 <= r < 1]. *)
Theorem next_spec (z1 z2 z3 : Z) :
  1 <= z1 <= 30000 → 1 <= z2 <= 30000 → 1 <= z3 <= 30000 →
  let t1 := 171 * z1 mod 30269 in
  let t2 := 172 * z2 mod 30307 in
  let t3 := 170 * z3 mod 30323 in
  ∃ r, next {| s1 := num z1; s2 := num z2; s3 := num z3 |}
       = ({| s1 := num t1; s2 := num t2; s3 := num t3 |}, Number r)
    ∧ r = Num.rem (Num.Z2F t1 / Num.Z2F 30269 + Num.Z2F t2 / Num.Z2F 30307
                   + Num.Z2F t3 / Num.Z2F 30323) 1
    ∧ (0 <=? r)%float = true ∧ (r <? 1)%float = true.
Proof.
  intros H1 H2 H3 t1 t2 t3.
  eexists. split; [|split; [reflexivity|]].
  - unfold next. cbn [s1 s2 s3].
    assert (H53 : 172 * 30000 < 2 ^ 53) by done.
    rewrite (lcg_step 171 30269 z1), (lcg_step 172 30307 z2),
      (lcg_step 170 30323 z3) by lia.
    reflexivity.
  - pose proof (Z.mod_pos_bound (171 * z1) 30269 ltac:(lia)) as Hb1.
    pose proof (Z.mod_pos_bound (172 * z2) 30307 ltac:(lia)) as Hb2.
    pose proof (Z.mod_pos_bound (170 * z3) 30323 ltac:(lia)) as Hb3.
    fold t1 in Hb1. fold t2 in Hb2. fold t3 in Hb3.
    assert (Hp : (30323 < 2 ^ 53)) by done.
    destruct (quotient_range t1 30269 Hb1 ltac:(lia)) as [Hn1 Hv1].
    destruct (quotient_range t2 30307 Hb2 ltac:(lia)) as [Hn2 Hv2].
    destruct (quotient_range t3 30323 Hb3 ltac:(lia)) as [Hn3 Hv3].
    destruct (add_nonneg_le _ _ 0 ltac:(lia) ltac:(lia) Hn1 Hn2 Hv1 Hv2)
      as [Hn12 Hv12].
    assert (Hv3' : Fval (Num.Z2F t3 / Num.Z2F 30323) <= 2 ^ (1 + 1074)).
    { assert (2 ^ 1074 <= 2 ^ (1 + 1074)) by (apply Z.pow_le_mono_r; lia).
      lia. }
    destruct (add_nonneg_le _ _ 1 ltac:(lia) ltac:(lia) Hn12 Hn3 Hv12 Hv3')
      as [Hn123 _].
    destruct (rem_one_range _ Hn123) as [Hnr Hvr].
    pose proof (nonneg_Fval _ Hnr) as Hr0.
    pose proof (nonneg_not_nan _ Hnr) as Hnan.
    split.
    + rewrite leb_val by done. apply Z.leb_le. exact Hr0.
    + rewrite ltb_val by done. apply Z.ltb_lt. rewrite Fval_one. exact Hvr.
Qed.

Lemma next_spec_witness :
  1 <= 100 <= 30000
  ∧ ∃ r, next {| s1 := num 100; s2 := num 100; s3 := num 100 |}
         = ({| s1 := num 17100; s2 := num 17200; s3 := num 17000 |}, Number r)
      ∧ (0 <=? r)%float = true ∧ (r <? 1)%float = true.
Proof.
  assert (H : 1 <= 100 <= 30000) by lia.
  split; [exact H|].
  destruct (next_spec 100 100 100 H H H) as (r & Hnext & _ & Hr0 & Hr1).
  exists r. split; [exact Hnext|]. split; [exact Hr0|exact Hr1].
Defined.

Lemma validate_cases x :
  validateWichmannHillStateInteger x
  = if Number_isInteger x && js_ge x (num 1) && js_le x (num 30000)
    then Ok x else Throw AssertionFailed.
Proof.
  unfold validateWichmannHillStateInteger, assert.
  destruct (Number_isInteger x); [|done].
  destruct (js_ge x (num 1)); [|done].
  by destruct (js_le x (num 30000)).
Qed.

(** The three tests pass exactly on the Numbers of the integers from 1 to
    30000. *)
Lemma validate_valid_seed x :
  Number_isInteger x && js_ge x (num 1) && js_le x (num 30000) = true
  ↔ valid_seed x.
Proof.
  split.
  - intros Hx. apply andb_prop in Hx as [Hx Hle]. apply andb_prop in Hx as [Hint Hge].
    destruct x as [|f]; [done|].
    unfold js_ge, js_le, Number_isInteger, Num.isInteger in *. simpl in *.
    assert (Hnan : Prim2SF f ≠ S754_nan).
    { intros Hn. rewrite leb_spec, Hn in Hle. done. }
    assert (Hnan1 : Prim2SF (Num.Z2F 1) ≠ S754_nan) by done.
    assert (Hnan3 : Prim2SF (Num.Z2F 30000) ≠ S754_nan) by done.
    rewrite leb_val in Hge, Hle by done.
    apply Z.leb_le in Hge, Hle.
    destruct (Z2F_val 1 ltac:(lia)) as [_ Hv1].
    destruct (Z2F_val 30000 ltac:(split; [lia|done])) as [_ Hv3].
    rewrite Hv1 in Hge. rewrite Hv3 in Hle.
    assert (Hp : 0 < 2 ^ 1074) by (apply Z.pow_pos_nonneg; lia).
    assert (H2100 : 30000 * 2 ^ 1074 < 2 ^ 2100).
    { replace (2 ^ 2100) with (2 ^ 1026 * 2 ^ 1074)
        by (rewrite <- Z.pow_add_r; [done|lia|lia]).
      apply Z.mul_lt_mono_pos_r; [done|].
      assert (2 ^ 15 <= 2 ^ 1026) by (apply Z.pow_le_mono_r; lia).
      assert (30000 < 2 ^ 15) by done. lia. }
    pose proof (Prim2SF_valid f) as Hvalid.
    unfold Fval in Hge, Hle.
    destruct (Prim2SF f) as [s|s| |s m e] eqn:Hsf;
      [cbn [SFval] in Hge; lia
      |destruct s; cbn [SFval cond_Zopp] in Hge, Hle; lia
      |done|].
    cbn [valid_binary] in Hvalid.
    pose proof (finite_val_bounds m e Hvalid) as Hfb.
    destruct (bounded_digits m e Hvalid) as (Hrange & _).
    destruct s; cbn [SFval cond_Zopp] in Hge, Hle; [lia|].
    (* the integer that [f] denotes *)
    assert (Hz : ∃ z, Z.pos m * 2 ^ (e + 1074) = z * 2 ^ 1074).
    { apply orb_prop in Hint as [He|Hmod].
      - apply Z.leb_le in He. exists (Z.pos m * 2 ^ e).
        rewrite <- Z.mul_assoc, <- Z.pow_add_r by lia. done.
      - apply Z.eqb_eq in Hmod.
        destruct (Z_le_gt_dec 0 e) as [He|He].
        + exists (Z.pos m * 2 ^ e).
          rewrite <- Z.mul_assoc, <- Z.pow_add_r by lia. done.
        + exists (Z.pos m / 2 ^ (- e)).
          pose proof (Z.div_mod (Z.pos m) (2 ^ (- e))
                        ltac:(apply Z.pow_nonzero; lia)) as Hdm.
          rewrite Hmod, Z.add_0_r in Hdm. rewrite Hdm at 1.
          rewrite (Z.mul_comm (2 ^ (- e))), <- Z.mul_assoc,
            <- Z.pow_add_r by lia.
          do 2 f_equal. lia. }
    destruct Hz as [z Hz]. rewrite Hz in *.
    assert (Hzr : 1 <= z <= 30000) by nia.
    exists z. split; [done|]. unfold num. f_equal.
    destruct (Z2F_val z ltac:(split; [lia|]; assert (30000 < 2 ^ 53) by done; lia))
      as [_ Hvz].
    apply Prim2SF_inj. rewrite Hsf.
    apply SFval_inj_pos; [done|apply Prim2SF_valid| |].
    + cbn [SFval cond_Zopp]. lia.
    + cbn [SFval cond_Zopp]. unfold Fval in Hvz. lia.
  - intros (z & Hz & ->).
    assert (H53 : 30000 < 2 ^ 53) by done.
    unfold Number_isInteger, js_ge, js_le, num. simpl.
    rewrite isInteger_Z2F, !leb_Z2F by lia.
    apply andb_true_intro. split; [|apply Z.leb_le; lia].
    apply Z.leb_le. lia.
Qed.

(** C6: constructing a generator from a seed of three components succeeds,
    with the seed as state, when the three are integers from 1 to 30000,
    and throws the assertion error otherwise. *)
Theorem with_spec (a b c : value) :
  (valid_seed a ∧ valid_seed b ∧ valid_seed c →
     with_ [a; b; c] = Ok {| s1 := a; s2 := b; s3 := c |})
  ∧ (¬ (valid_seed a ∧ valid_seed b ∧ valid_seed c) →
     with_ [a; b; c] = Throw AssertionFailed).
Proof.
  unfold with_. cbn [mapM]. rewrite !validate_cases.
  pose proof (validate_valid_seed a) as Ha.
  pose proof (validate_valid_seed b) as Hb.
  pose proof (validate_valid_seed c) as Hc.
  destruct (Number_isInteger a && js_ge a (num 1) && js_le a (num 30000));
    destruct (Number_isInteger b && js_ge b (num 1) && js_le b (num 30000));
    destruct (Number_isInteger c && js_ge c (num 1) && js_le c (num 30000));
    split; try reflexivity; intros H; exfalso;
    try (apply H; repeat split; tauto);
    destruct H as (Ha' & Hb' & Hc');
    try (apply Ha in Ha'; discriminate);
    try (apply Hb in Hb'; discriminate);
    try (apply Hc in Hc'; discriminate).
Qed.

Lemma with_spec_witness :
  (valid_seed (num 100) ∧ valid_seed (num 100) ∧ valid_seed (num 100))
  ∧ with_ [num 100; num 100; num 100]
    = Ok {| s1 := num 100; s2 := num 100; s3 := num 100 |}
  ∧ ¬ (valid_seed (num 100) ∧ valid_seed (num 0) ∧ valid_seed (num 100))
  ∧ with_ [num 100; num 0; num 100] = Throw AssertionFailed.
Proof.
  assert (Hv : valid_seed (num 100)) by (exists 100; split; [lia|done]).
  assert (Hn : ¬ (valid_seed (num 100) ∧ valid_seed (num 0) ∧ valid_seed (num 100))).
  { intros (_ & H0 & _). apply validate_valid_seed in H0. discriminate. }
  split; [done|].
  split; [exact (proj1 (with_spec _ _ _) (conj Hv (conj Hv Hv)))|].
  split; [exact Hn|].
  exact (proj2 (with_spec _ _ _) Hn).
Defined.

(** * Further properties of the generator *)

(** A multiplier prime to the modulus never sends a nonzero residue to
    zero. *)
Lemma residue_step a md z :
  Z.gcd md a = 1 → 1 < md → 1 <= z < md →
  1 <= a * z mod md < md.
Proof.
  intros Hgcd Hmd Hz.
  pose proof (Z.mod_pos_bound (a * z) md ltac:(lia)) as Hb.
  destruct (decide (a * z mod md = 0)) as [H0|Hne]; [|lia].
  apply Z.mod_divide in H0; [|lia].
  apply Z.gauss in H0; [|exact Hgcd].
  apply Z.divide_pos_le in H0; lia.
Qed.

(** One draw from any state of three integers below [2^40]. *)
Lemma next_integers (z1 z2 z3 : Z) :
  0 <= z1 < 2 ^ 40 → 0 <= z2 < 2 ^ 40 → 0 <= z3 < 2 ^ 40 →
  ∃ r, next {| s1 := num z1; s2 := num z2; s3 := num z3 |}
       = ({| s1 := num (171 * z1 mod 30269);
             s2 := num (172 * z2 mod 30307);
             s3 := num (170 * z3 mod 30323) |}, Number r)
    ∧ (0 <=? r)%float = true ∧ (r <? 1)%float = true.
Proof.
  intros H1 H2 H3.
  assert (H40 : 172 * 2 ^ 40 < 2 ^ 53) by done.
  assert (H53 : 30323 < 2 ^ 53) by done.
  eexists. split.
  - unfold next. cbn [s1 s2 s3].
    rewrite (lcg_step 171 30269 z1), (lcg_step 172 30307 z2),
      (lcg_step 170 30323 z3) by lia.
    reflexivity.
  - pose proof (Z.mod_pos_bound (171 * z1) 30269 ltac:(lia)) as Hb1.
    pose proof (Z.mod_pos_bound (172 * z2) 30307 ltac:(lia)) as Hb2.
    pose proof (Z.mod_pos_bound (170 * z3) 30323 ltac:(lia)) as Hb3.
    destruct (quotient_range _ 30269 Hb1 ltac:(lia)) as [Hn1 Hv1].
    destruct (quotient_range _ 30307 Hb2 ltac:(lia)) as [Hn2 Hv2].
    destruct (quotient_range _ 30323 Hb3 ltac:(lia)) as [Hn3 Hv3].
    destruct (add_nonneg_le _ _ 0 ltac:(lia) ltac:(lia) Hn1 Hn2 Hv1 Hv2)
      as [Hn12 Hv12].
    assert (Hv3' : Fval (Num.Z2F (170 * z3 mod 30323) / Num.Z2F 30323)
                   <= 2 ^ (1 + 1074)).
    { assert (2 ^ 1074 <= 2 ^ (1 + 1074)) by (apply Z.pow_le_mono_r; lia).
      lia. }
    destruct (add_nonneg_le _ _ 1 ltac:(lia) ltac:(lia) Hn12 Hn3 Hv12 Hv3')
      as [Hn123 _].
    destruct (rem_one_range _ Hn123) as [Hnr Hvr].
    pose proof (nonneg_Fval _ Hnr) as Hr0.
    pose proof (nonneg_not_nan _ Hnr) as Hnan.
    split.
    + rewrite leb_val by done. apply Z.leb_le. exact Hr0.
    + rewrite ltb_val by done. apply Z.ltb_lt. rewrite Fval_one. exact Hvr.
Qed.

Lemma next_residues g :
  residues g → residues (next g).1 ∧ unit_interval (next g).2.
Proof.
  intros (z1 & z2 & z3 & H1 & H2 & H3 & ->).
  assert (H40 : 30323 < 2 ^ 40) by done.
  destruct (next_integers z1 z2 z3) as (r & -> & Hr0 & Hr1); [lia..|].
  split; [|by exists r].
  eexists _, _, _. split; [|split; [|split; [|reflexivity]]].
  - apply residue_step; [reflexivity|lia..].
  - apply residue_step; [reflexivity|lia..].
  - apply residue_step; [reflexivity|lia..].
Qed.

Lemma draws_S n g :
  draws (S n) g
  = ((draws n (next g).1).1, (next g).2 :: (draws n (next g).1).2).
Proof.
  change (draws (S n) g)
    with (let '(g', r) := next g in
          let '(g'', rs) := draws n g' in (g'', r :: rs)).
  destruct (next g) as [g' r]. cbn [fst snd].
  destruct (draws n g') as [g'' rs]. reflexivity.
Qed.

Lemma draws_inv (n : nat) (g : WichmannHillGenerator) :
  residues g →
  residues (draws n g).1
  ∧ length (draws n g).2 = n
  ∧ Forall unit_interval (draws n g).2.
Proof.
  revert g. induction n as [|n IH]; intros g Hg.
  - simpl. split; [done|]. split; [done|]. constructor.
  - rewrite draws_S. cbn [fst snd].
    destruct (next_residues g Hg) as [Hg' Hr].
    destruct (IH _ Hg') as (Hres & Hlen & Hall).
    split; [done|]. split; [cbn [length]; by rewrite Hlen|]. by constructor.
Qed.

(** X1: From a state of nonzero residues, any number of draws leaves a state of
    nonzero residues, and every value drawn is a Number in [0, 1). *)
Theorem draws_residues (n : nat) (g : WichmannHillGenerator) :
  residues g →
  residues (draws n g).1
  ∧ length (draws n g).2 = n
  ∧ Forall unit_interval (draws n g).2.
Proof.
  revert g. induction n as [|n IH]; intros g Hg.
  - simpl. split; [done|]. split; [done|]. constructor.
  - rewrite draws_S. cbn [fst snd].
    destruct (next_residues g Hg) as [Hg' Hr].
    destruct (IH _ Hg') as (Hres & Hlen & Hall).
    split; [done|]. split; [cbn [length]; by rewrite Hlen|]. by constructor.
Qed.

Lemma draws_residues_witness :
  residues {| s1 := num 100; s2 := num 100; s3 := num 100 |}
  ∧ residues (draws 3 {| s1 := num 100; s2 := num 100; s3 := num 100 |}).1
  ∧ Forall unit_interval
      (draws 3 {| s1 := num 100; s2 := num 100; s3 := num 100 |}).2.
Proof.
  assert (H : residues {| s1 := num 100; s2 := num 100; s3 := num 100 |}).
  { exists 100, 100, 100. repeat split; lia. }
  split; [exact H|].
  destruct (draws_residues 3 _ H) as (H1 & _ & H2).
  split; [exact H1|exact H2].
Defined.

Lemma mapM_validate (state : list value) :
  (Forall valid_seed state →
     mapM validateWichmannHillStateInteger state = Ok state)
  ∧ (¬ Forall valid_seed state →
     mapM validateWichmannHillStateInteger state = Throw AssertionFailed).
Proof.
  induction state as [|x state [IHok IHno]].
  - split; [done|]. intros H. exfalso. apply H. constructor.
  - cbn [mapM]. rewrite validate_cases.
    pose proof (validate_valid_seed x) as Hx.
    destruct (Number_isInteger x && js_ge x (num 1) && js_le x (num 30000)).
    + rewrite bind_Ok. split.
      * intros H. apply Forall_cons in H as [_ H]. by rewrite IHok.
      * intros H. rewrite IHno; [done|]. intros Hall. apply H.
        constructor; [by apply Hx|done].
    + split; [|done]. intros H. apply Forall_cons in H as [H _].
      apply Hx in H. discriminate.
Qed.

(** X2: [with] validates every component of a seed of any length, and reads
    the state off its first three: it accepts a valid seed that is too
    short (the missing components are [undefined]) or too long, and throws
    as soon as one component, even past the third, is not an integer from
    1 to 30000. *)
Theorem with_any_length (state : list value) :
  (Forall valid_seed state → with_ state = Ok (constructor state))
  ∧ (¬ Forall valid_seed state → with_ state = Throw AssertionFailed).
Proof.
  unfold with_. destruct (mapM_validate state) as [Hok Hno]. split.
  - intros H. by rewrite Hok.
  - intros H. by rewrite Hno.
Qed.

Lemma with_any_length_witness :
  Forall valid_seed [num 7; num 8]
  ∧ with_ [num 7; num 8] = Ok {| s1 := num 7; s2 := num 8; s3 := Undefined |}
  ∧ ¬ Forall valid_seed [num 7; num 8; num 9; num 0]
  ∧ with_ [num 7; num 8; num 9; num 0] = Throw AssertionFailed.
Proof.
  assert (Hv : ∀ z, 1 <= z <= 30000 → valid_seed (num z)).
  { intros z Hz. by exists z. }
  assert (H1 : Forall valid_seed [num 7; num 8]).
  { repeat constructor; apply Hv; lia. }
  assert (H2 : ¬ Forall valid_seed [num 7; num 8; num 9; num 0]).
  { intros H. do 3 apply Forall_cons in H as [_ H].
    apply Forall_cons in H as [H _]. apply validate_valid_seed in H.
    discriminate. }
  split; [exact H1|].
  split; [exact (proj1 (with_any_length _) H1)|].
  split; [exact H2|].
  exact (proj2 (with_any_length _) H2).
Defined.

(** X3: A generator built by [with] from three integers from 1 to 30000 never
    degenerates: however many values are drawn, each is a Number in
    [0, 1). *)
Theorem seeded_draws_unit (a b c : value) (n : nat) :
  valid_seed a → valid_seed b → valid_seed c →
  ∃ g, with_ [a; b; c] = Ok g
    ∧ length (draws n g).2 = n
    ∧ Forall unit_interval (draws n g).2.
Proof.
  intros Ha Hb Hc. exists (constructor [a; b; c]). split.
  - unfold with_. rewrite (proj1 (mapM_validate [a; b; c])); [done|].
    repeat constructor; done.
  - apply draws_inv.
    destruct Ha as (za & Hza & ->), Hb as (zb & Hzb & ->),
      Hc as (zc & Hzc & ->).
    exists za, zb, zc. repeat split; lia.
Qed.

Lemma seeded_draws_unit_witness :
  valid_seed (num 100)
  ∧ ∃ g, with_ [num 100; num 100; num 100] = Ok g
      ∧ Forall unit_interval (draws 5 g).2.
Proof.
  assert (H : valid_seed (num 100)) by (exists 100; split; [lia|reflexivity]).
  split; [exact H|].
  destruct (seeded_draws_unit (num 100) (num 100) (num 100) 5 H H H)
    as (g & Hg & _ & Hall).
  exists g. split; [exact Hg|exact Hall].
Defined.

(** ** A state that is not a number *)

Lemma Prim2SF_nan : Prim2SF nan = S754_nan.
Proof. reflexivity. Qed.

Lemma mul_nan_r (x : float) : (x * nan)%float = nan.
Proof.
  apply Prim2SF_inj. rewrite mul_spec, Prim2SF_nan.
  by destruct (Prim2SF x).
Qed.

Lemma add_nan_l (x : float) : (nan + x)%float = nan.
Proof. apply Prim2SF_inj. rewrite add_spec. reflexivity. Qed.

Lemma add_nan_r (x : float) : (x + nan)%float = nan.
Proof.
  apply Prim2SF_inj. rewrite add_spec, Prim2SF_nan.
  by destruct (Prim2SF x).
Qed.

Lemma div_nan_l (x : float) : (nan / x)%float = nan.
Proof. apply Prim2SF_inj. rewrite div_spec. reflexivity. Qed.

Lemma rem_nan_l (d : float) : Num.rem nan d = nan.
Proof. reflexivity. Qed.

Lemma next_nan_component (a b : value) (md : Z) :
  ToNumber b = nan →
  js_rem (js_mul a b) (num md) = Number nan
  ∧ js_div (js_rem (js_mul a b) (num md)) (num md) = Number nan.
Proof.
  intros Hb. unfold js_rem, js_mul, js_div. simpl.
  rewrite Hb, mul_nan_r, rem_nan_l, div_nan_l. done.
Qed.

(** X4: A generator with a component that is [undefined] or NaN (as [with]
    builds from a seed shorter than three) stays so, and draws NaN. *)
Theorem next_poisoned (g : WichmannHillGenerator) :
  poisoned g → poisoned (next g).1 ∧ (next g).2 = Number nan.
Proof.
  unfold poisoned, next. cbn [fst snd s1 s2 s3].
  intros [H|[H|H]].
  - destruct (next_nan_component (num 171) (s1 g) 30269 H) as [-> ->].
    split; [by left|]. unfold js_rem, js_add, js_div. simpl.
    by rewrite !add_nan_l, rem_nan_l.
  - destruct (next_nan_component (num 172) (s2 g) 30307 H) as [-> ->].
    split; [right; by left|]. unfold js_rem, js_add, js_div. simpl.
    by rewrite add_nan_r, add_nan_l, rem_nan_l.
  - destruct (next_nan_component (num 170) (s3 g) 30323 H) as [-> ->].
    split; [right; by right|]. unfold js_rem, js_add, js_div. simpl.
    by rewrite add_nan_r, rem_nan_l.
Qed.

Lemma next_poisoned_witness :
  poisoned (constructor [num 7; num 8])
  ∧ poisoned (next (constructor [num 7; num 8])).1
  ∧ (next (constructor [num 7; num 8])).2 = Number nan.
Proof.
  assert (H : poisoned (constructor [num 7; num 8])) by (right; by right).
  split; [exact H|]. exact (next_poisoned _ H).
Defined.

(** * Further properties of the matrix helpers *)



Lemma blitMatrix_dims src dst ox oy :
  width (blitMatrix src dst ox oy) = width dst
  ∧ height (blitMatrix src dst ox oy) = height dst.
Proof. rewrite blitMatrix_puts. apply puts_dims. Qed.

(** X6: No operation changes the dimensions of a matrix: the copy, the map, the
    normalized matrix and the destination of a blit or of a stamp have the
    [width] and [height] they had. *)
Theorem dimensions_kept (m src : Matrix) (fn : value → Z → Z → value)
    (ox oy : Z) :
  (width (copyMatrix m) = width m ∧ height (copyMatrix m) = height m)
  ∧ (width (mapMatrix m fn) = width m ∧ height (mapMatrix m fn) = height m)
  ∧ (∀ n, normalizeMatrix m = Ok n → width n = width m ∧ height n = height m)
  ∧ (width (blitMatrix src m ox oy) = width m
     ∧ height (blitMatrix src m ox oy) = height m)
  ∧ (width (addMatrix src m ox oy) = width m
     ∧ height (addMatrix src m ox oy) = height m).
Proof.
  split; [done|]. split; [apply mapMatrix_dims|]. split.
  - intros n. unfold normalizeMatrix. destruct (maxValueOf m); [|done].
    rewrite bind_Ok. intros [= <-]. apply mapMatrix_dims.
  - split; [apply blitMatrix_dims|apply addMatrix_dims].
Qed.

(** X7: On a square matrix [mapMatrix] is the elementwise map of the
    specification: the length is kept and the cell at every in-range
    coordinate is [fn] of the old cell and of the coordinate. *)
Theorem mapMatrix_square (m : Matrix) (fn : value → Z → Z → value) :
  0 <= width m → width m = height m → len m = width m * height m →
  len (mapMatrix m fn) = len m
  ∧ ∀ x y, in_range m x y →
      getXY (mapMatrix m fn) x y = fn (getXY m x y) x y.
Proof.
  intros Hnn Hsq Hlen. split.
  - by apply mapMatrix_square_len.
  - intros x y Hr. by apply mapMatrix_square_getXY.
Qed.

Lemma mapMatrix_square_witness :
  let m := matrix_of_list 2 2 [num 1; num 2; num 3; num 4] in
  0 <= width m ∧ width m = height m ∧ len m = width m * height m
  ∧ in_range m 1 0
  ∧ getXY (mapMatrix m (λ v x y, js_add v (num (10 * x + y)))) 1 0
    = js_add (getXY m 1 0) (num 10).
Proof.
  set (m := matrix_of_list 2 2 [num 1; num 2; num 3; num 4]).
  assert (H1 : 0 <= width m) by (unfold m; simpl; lia).
  assert (H2 : width m = height m) by reflexivity.
  assert (H3 : len m = width m * height m) by reflexivity.
  assert (H4 : in_range m 1 0) by (unfold in_range, m; simpl; lia).
  split; [exact H1|]. split; [exact H2|]. split; [exact H3|].
  split; [exact H4|].
  exact (proj2 (mapMatrix_square m (λ v x y, js_add v (num (10 * x + y)))
                  H1 H2 H3) 1 0 H4).
Defined.

(** ** [mapMatrix] on a grid at least as wide as high *)

Lemma mapMatrix_wide_lookup (m : Matrix) (f : value → value) (i : Z) :
  1 <= height m <= width m → len m = width m * height m →
  cells (mapMatrix m (λ v _ _, f v)) !! i
  = if decide (0 <= i < (height m - 1) * height m + width m)
    then Some (f (get m i))
    else if decide (0 <= i < len m) then cells m !! i else None.
Proof.
  intros Hd Hlen. rewrite mapMatrix_puts.
  destruct (decide (0 <= i < (height m - 1) * height m + width m)) as [Hi|Hi].
  - apply puts_lookup_in.
    + apply elem_of_map_writes.
      destruct (decide (i < height m * height m)) as [Hlow|Hhigh].
      * exists (i mod height m), (i / height m).
        pose proof (Z.mod_pos_bound i (height m) ltac:(lia)).
        pose proof (Z.div_mod i (height m) ltac:(lia)).
        assert (0 <= i / height m) by (apply Z.div_pos; lia).
        assert (i / height m < height m)
          by (apply Z.div_lt_upper_bound; lia).
        unfold in_range, index, getXY.
        replace (i / height m * height m + i mod height m) with i by lia.
        repeat split; lia.
      * exists (i - (height m - 1) * height m), (height m - 1).
        unfold in_range, index, getXY.
        replace ((height m - 1) * height m + (i - (height m - 1) * height m))
          with i by lia.
        repeat split; lia.
    + intros w Hw. apply elem_of_map_writes in Hw as (x & y & _ & -> & ->).
      reflexivity.
  - rewrite puts_lookup_notin; [apply copyMatrix_lookup|].
    intros Hin. apply list_elem_of_fmap in Hin as ([i' v] & -> & Hin).
    apply elem_of_map_writes in Hin as (x & y & [Hx Hy] & -> & _).
    simpl in Hi. unfold index in Hi.
    assert (y * height m <= (height m - 1) * height m) by nia.
    nia.
Qed.

(** X8: With rows strided by the height, a map over a grid of [width >= height
    >= 1] reaches the first [(height - 1) * height + width] cells only: it
    transforms exactly those and leaves every later cell as it was, so on a
    grid wider than high the last [(width - height) * (height - 1)] cells
    are never transformed. *)
Theorem mapMatrix_wide_cells (m : Matrix) (f : value → value) :
  1 <= height m <= width m → len m = width m * height m →
  len (mapMatrix m (λ v _ _, f v)) = len m
  ∧ ∀ i, cells (mapMatrix m (λ v _ _, f v)) !! i
         = if decide (0 <= i < (height m - 1) * height m + width m)
           then Some (f (get m i))
           else if decide (0 <= i < len m) then cells m !! i else None.
Proof.
  intros Hd Hlen. split.
  - apply mapMatrix_wide_len; [lia|done].
  - intros i. by apply mapMatrix_wide_lookup.
Qed.

Lemma mapMatrix_wide_cells_witness :
  let m := matrix_of_list 3 2 [num 1; num 1; num 1; num 1; num 1; num 1] in
  1 <= height m <= width m ∧ len m = width m * height m
  ∧ cells (mapMatrix m (λ v _ _, js_mul v (num 2))) !! 4 = Some (num 2)
  ∧ cells (mapMatrix m (λ v _ _, js_mul v (num 2))) !! 5 = Some (num 1).
Proof.
  set (m := matrix_of_list 3 2 [num 1; num 1; num 1; num 1; num 1; num 1]).
  assert (H1 : 1 <= height m <= width m) by (unfold m; simpl; lia).
  assert (H2 : len m = width m * height m) by reflexivity.
  split; [exact H1|]. split; [exact H2|].
  pose proof (proj2 (mapMatrix_wide_cells m (λ v, js_mul v (num 2)) H1 H2))
    as Hc.
  split.
  - rewrite (Hc 4). vm_compute. reflexivity.
  - rewrite (Hc 5). vm_compute. reflexivity.
Defined.

(** X9: Two successive coordinate-free maps over a grid of [width >= height >= 1]
    are the map of the composition, as in the rendering step
    [mapMatrix(normalizeMatrix(matrix), v => v ** contrast)]: the cells the
    first map misses are missed by the second one too. *)
Theorem mapMatrix_compose (m : Matrix) (f g : value → value) :
  1 <= height m <= width m → len m = width m * height m →
  mapMatrix (mapMatrix m (λ v _ _, f v)) (λ v _ _, g v)
  = mapMatrix m (λ v _ _, g (f v)).
Proof.
  intros Hd Hlen.
  pose proof (mapMatrix_dims m (λ v _ _, f v)) as [Hw Hh].
  pose proof (mapMatrix_wide_len m (λ v _ _, f v) ltac:(lia) Hlen) as Hl.
  apply Matrix_eq.
  - apply map_eq. intros i.
    rewrite (mapMatrix_wide_lookup (mapMatrix m (λ v _ _, f v)) g)
      by (rewrite ?Hw, ?Hh, ?Hl; done).
    rewrite (mapMatrix_wide_lookup m (λ v, g (f v))) by done.
    rewrite Hw, Hh, Hl.
    destruct (decide (0 <= i < (height m - 1) * height m + width m)) as [Hi|Hi].
    + unfold get at 1. rewrite (mapMatrix_wide_lookup m f) by done.
      rewrite decide_True by done. reflexivity.
    + rewrite (mapMatrix_wide_lookup m f) by done.
      rewrite (decide_False _ _ Hi).
      destruct (decide (0 <= i < len m)); reflexivity.
  - rewrite !mapMatrix_wide_len; rewrite ?Hw, ?Hh, ?Hl; try done; lia.
  - rewrite !(proj1 (mapMatrix_dims _ _)). reflexivity.
  - rewrite !(proj2 (mapMatrix_dims _ _)). reflexivity.
Qed.

Lemma mapMatrix_compose_witness :
  let m := matrix_of_list 3 2 [num 1; num 2; num 3; num 4; num 5; num 6] in
  1 <= height m <= width m ∧ len m = width m * height m
  ∧ mapMatrix (mapMatrix m (λ v _ _, js_add v (num 1)))
              (λ v _ _, js_mul v (num 2))
    = mapMatrix m (λ v _ _, js_mul (js_add v (num 1)) (num 2)).
Proof.
  set (m := matrix_of_list 3 2 [num 1; num 2; num 3; num 4; num 5; num 6]).
  assert (H1 : 1 <= height m <= width m) by (unfold m; simpl; lia).
  assert (H2 : len m = width m * height m) by reflexivity.
  split; [exact H1|]. split; [exact H2|].
  exact (mapMatrix_compose m (λ v, js_add v (num 1)) (λ v, js_mul v (num 2))
           H1 H2).
Defined.

(** X10: Mapping the identity over a grid of [width >= height >= 0] without holes
    gives the copy. *)
Theorem mapMatrix_identity (m : Matrix) :
  0 <= height m <= width m → len m = width m * height m → dense m →
  mapMatrix m (λ v _ _, v) = copyMatrix m.
Proof.
  intros Hd Hlen Hdense.
  assert (Hr : ∀ i, i ∈ (map_writes m (λ v _ _, v)).*1 → 0 <= i < len m).
  { intros i Hi. apply list_elem_of_fmap in Hi as ([i' v] & -> & Hi).
    apply elem_of_map_writes in Hi as (x & y & [Hx Hy] & -> & _).
    simpl. unfold index. rewrite Hlen.
    assert (y * height m <= (height m - 1) * height m) by nia. nia. }
  apply Matrix_eq.
  - apply map_eq. intros i. rewrite mapMatrix_puts.
    destruct (decide (i ∈ (map_writes m (λ v _ _, v)).*1)) as [Hi|Hi].
    + pose proof (Hr i Hi) as Hir.
      apply list_elem_of_fmap in Hi as ([i' v] & -> & Hi). simpl in Hir.
      change ((i', v).1) with i'.
      pose proof Hi as Hi'.
      apply elem_of_map_writes in Hi' as (x & y & _ & -> & ->).
      rewrite (puts_lookup_in _ _ _ (getXY m x y)).
      * rewrite copyMatrix_lookup, decide_True by done.
        destruct (Hdense _ Hir) as [v Hv]. unfold getXY, get, index in *.
        by rewrite Hv.
      * done.
      * intros w Hw. apply elem_of_map_writes in Hw as (x' & y' & _ & He & ->).
        unfold getXY, index in *. by rewrite He.
    + by rewrite puts_lookup_notin.
  - exact (mapMatrix_wide_len m _ Hd Hlen).
  - exact (proj1 (mapMatrix_dims m _)).
  - exact (proj2 (mapMatrix_dims m _)).
Qed.

Lemma mapMatrix_identity_witness :
  let m := matrix_of_list 3 2 [num 1; num 2; num 3; num 4; num 5; num 6] in
  0 <= height m <= width m ∧ len m = width m * height m ∧ dense m
  ∧ mapMatrix m (λ v _ _, v) = copyMatrix m.
Proof.
  set (m := matrix_of_list 3 2 [num 1; num 2; num 3; num 4; num 5; num 6]).
  assert (H1 : 0 <= height m <= width m) by (unfold m; simpl; lia).
  assert (H2 : len m = width m * height m) by reflexivity.
  assert (H3 : dense m).
  { intros i Hi. change (len m) with 6 in Hi.
    assert (i = 0 ∨ i = 1 ∨ i = 2 ∨ i = 3 ∨ i = 4 ∨ i = 5) as Hc by lia.
    destruct Hc as [->|[->|[->|[->|[->| ->]]]]]; vm_compute; eauto. }
  split; [exact H1|]. split; [exact H2|]. split; [exact H3|].
  exact (mapMatrix_identity m H1 H2 H3).
Defined.

(** * The maximum *)

(** X11: On an array without holes whose cells are Numbers other than NaN,
    [maxValueOf] returns one of the cells, and no cell is greater than it. *)
Theorem maxValueOf_greatest (m : Matrix) :
  0 < len m →
  (∀ i, 0 <= i < len m → numeric (get m i) ∧ is_Some (cells m !! i)) →
  ∃ r, maxValueOf m = Ok r
    ∧ (∃ i, 0 <= i < len m ∧ get m i = r)
    ∧ ∀ i, 0 <= i < len m → js_gt (get m i) r = false.
Proof.
  intros Hlen Hc.
  destruct (maxValueOf_spec m Hlen Hc) as (r & Hr & (j & Hj & Hjr) & Hle).
  exists r. split; [done|]. split; [by exists j|].
  intros i Hi. unfold js_gt.
  destruct (proj1 (Hc i Hi)) as (fi & Hfi & Hni).
  destruct (proj1 (Hc j Hj)) as (fj & Hfj & Hnj).
  specialize (Hle i Hi). rewrite <- Hjr in *. rewrite Hfi, Hfj in *. simpl in *.
  rewrite ltb_val by done. apply Z.ltb_ge. done.
Qed.

Lemma maxValueOf_greatest_witness :
  let m := matrix_of_list 2 2 [num 3; num 7; num 5; num 1] in
  0 < len m
  ∧ ∃ r, maxValueOf m = Ok r ∧ js_gt (get m 1) r = false.
Proof.
  set (m := matrix_of_list 2 2 [num 3; num 7; num 5; num 1]).
  assert (H1 : 0 < len m) by (unfold m; simpl; lia).
  assert (H2 : ∀ i, 0 <= i < len m →
                 numeric (get m i) ∧ is_Some (cells m !! i)).
  { intros i Hi. change (len m) with 4 in Hi.
    assert (i = 0 ∨ i = 1 ∨ i = 2 ∨ i = 3) as Hc by lia.
    destruct Hc as [->|[->|[->| ->]]];
      (split; [eexists; split; [vm_compute; reflexivity|vm_compute; discriminate]
              |vm_compute; eauto]). }
  split; [exact H1|].
  destruct (maxValueOf_greatest m H1 H2) as (r & Hr & _ & Hle).
  exists r. split; [exact Hr|]. apply Hle. unfold m; simpl; lia.
Defined.

Lemma elements_empty (m : Matrix) :
  (∀ i, 0 <= i < len m → cells m !! i = None) → elements m = [].
Proof.
  intros He. unfold elements.
  assert (H : ∀ l : list Z, (∀ i, i ∈ l → 0 <= i < len m) →
            omap (λ i, cells m !! i) l = []).
  { induction l as [|i l IH]; intros Hl; [done|].
    simpl. rewrite He by (apply Hl; left). apply IH.
    intros j Hj. apply Hl. by right. }
  apply H. intros i Hi. apply elem_of_seqZ in Hi. lia.
Qed.

(** X12: An array with no element (of length 0, as that of a matrix with a zero
    dimension, or made of holes only) has no maximum: [reduce] throws a
    [TypeError], so does [normalizeMatrix], and so do the click handler and
    a frame without stamps, whatever the exponentiation and the inputs. *)
Theorem empty_matrix_throws (m : Matrix) :
  (∀ i, 0 <= i < len m → cells m !! i = None) →
  maxValueOf m = Throw TypeError
  ∧ normalizeMatrix m = Throw TypeError
  ∧ ∀ pow g,
      renormalize {| matrix := m; rng := g |} = Throw TypeError
      ∧ ∀ contrast velocity attenuation, velocity <= 0 →
          animate pow contrast velocity attenuation {| matrix := m; rng := g |}
          = Throw TypeError.
Proof.
  intros He.
  assert (Hmax : maxValueOf m = Throw TypeError).
  { unfold maxValueOf. by rewrite elements_empty. }
  assert (Hn : normalizeMatrix m = Throw TypeError).
  { unfold normalizeMatrix. by rewrite Hmax. }
  split; [done|]. split; [done|]. intros pow g. split.
  - unfold renormalize. cbn [matrix]. by rewrite Hn.
  - intros c v a Hv. unfold animate.
    replace (Z.to_nat v) with 0%nat by lia.
    cbn [repeat_nextBlob]. rewrite bind_Ok. cbn [matrix]. by rewrite Hn.
Qed.

Lemma empty_matrix_throws_witness :
  let m := {| cells := ∅; len := 0; width := 0; height := 150 |} in
  (∀ i, 0 <= i < len m → cells m !! i = None)
  ∧ makeMatrix 0 150 Undefined = Ok m
  ∧ normalizeMatrix m = Throw TypeError.
Proof.
  set (m := {| cells := ∅; len := 0; width := 0; height := 150 |}).
  assert (H : ∀ i, 0 <= i < len m → cells m !! i = None)
    by (intros i Hi; reflexivity).
  split; [exact H|]. split; [reflexivity|].
  exact (proj1 (proj2 (empty_matrix_throws m H))).
Defined.

(** * Stamps *)

Lemma NoDup_coords (w h : Z) : NoDup (coords w h).
Proof.
  unfold coords. apply NoDup_bind.
  - intros x1 x2 [x y] _ _ H1 H2.
    apply list_elem_of_fmap in H1 as (y1 & [= -> ->] & _).
    apply list_elem_of_fmap in H2 as (y2 & [= -> ->] & _). done.
  - intros x _. apply NoDup_fmap_2; [|apply NoDup_seqZ].
    intros y1 y2 [= ->]. done.
  - apply NoDup_seqZ.
Qed.

Lemma elem_of_blit_writes src dst ox oy i v :
  (i, v) ∈ blit_writes src dst ox oy ↔
  ∃ x y, in_range src x y ∧ x + ox < width dst ∧ y + oy < height dst
         ∧ i = index dst (x + ox) (y + oy) ∧ v = getXY src x y.
Proof.
  unfold blit_writes. rewrite list_elem_of_fmap. split.
  - intros ([x y] & [= -> ->] & Hp). apply list_elem_of_filter in Hp as [Hpass Hp].
    apply elem_of_coords in Hp. unfold passes in Hpass. simpl in *.
    apply andb_prop in Hpass as [Hx Hy].
    apply negb_true_iff, Z.leb_gt in Hx, Hy.
    exists x, y. done.
  - intros (x & y & Hr & Hx & Hy & -> & ->). exists (x, y). split; [done|].
    apply list_elem_of_filter. split; [|by apply elem_of_coords].
    unfold passes. simpl. apply andb_true_intro.
    split; apply negb_true_iff, Z.leb_gt; done.
Qed.

(** A stamp no wider than the stride of the destination writes every cell
    once. *)
Lemma NoDup_written src dst ox oy :
  width src <= height dst → NoDup (written src dst ox oy).
Proof.
  intros Hw. unfold written, blit_writes. rewrite <- list_fmap_compose.
  apply NoDup_fmap_2_strong; [|apply NoDup_filter, NoDup_coords].
  intros [x1 y1] [x2 y2] H1 H2 He.
  apply list_elem_of_filter in H1 as [_ H1]. apply elem_of_coords in H1.
  apply list_elem_of_filter in H2 as [_ H2]. apply elem_of_coords in H2.
  simpl in He. unfold index in He.
  assert (y1 = y2) by nia. subst. f_equal. lia.
Qed.

Lemma adds_lookup_notin ws m i :
  i ∉ ws.*1 → cells (adds ws m) !! i = cells m !! i.
Proof.
  revert m. induction ws as [|w ws IH]; intros m Hi; [done|].
  rewrite fmap_cons, not_elem_of_cons in Hi. destruct Hi as [Hne Hi].
  rewrite adds_cons, IH by done. unfold add1. simpl.
  by rewrite lookup_insert_ne.
Qed.

Lemma adds_lookup_in ws m i v :
  NoDup ws.*1 → (i, v) ∈ ws → get (adds ws m) i = js_add (get m i) v.
Proof.
  revert m. induction ws as [|[j w] ws IH]; intros m Hnd Hin.
  - by apply elem_of_nil in Hin.
  - rewrite fmap_cons in Hnd. apply NoDup_cons in Hnd as [Hj Hnd].
    rewrite adds_cons. apply elem_of_cons in Hin as [[= -> ->]|Hin].
    + unfold get at 1. rewrite adds_lookup_notin by done.
      unfold add1. simpl. by rewrite lookup_insert_eq.
    + rewrite IH by done. f_equal. unfold add1. simpl.
      apply get_put_ne. intros ->. apply Hj.
      apply list_elem_of_fmap. by exists (i, v).
Qed.

(** X13: A stamp no wider than the stride of the destination (as the 17 by 17
    kernel on a grid at least 17 high) adds every source cell that passes
    the two upper-bound tests exactly once, to the cell at the shifted
    coordinate, and changes no other element of the destination; the offsets
    may be negative. *)
Theorem addMatrix_cells (src dst : Matrix) (ox oy : Z) :
  width src <= height dst →
  (∀ x y, in_range src x y → x + ox < width dst → y + oy < height dst →
     getXY (addMatrix src dst ox oy) (x + ox) (y + oy)
     = js_add (getXY dst (x + ox) (y + oy)) (getXY src x y))
  ∧ (∀ i, (∀ x y, in_range src x y → x + ox < width dst →
             y + oy < height dst → i ≠ index dst (x + ox) (y + oy)) →
       cells (addMatrix src dst ox oy) !! i = cells dst !! i).
Proof.
  intros Hw. rewrite addMatrix_adds. split.
  - intros x y Hr Hx Hy.
    destruct (adds_dims (blit_writes src dst ox oy) dst) as [_ Hh].
    unfold getXY. rewrite Hh. apply adds_lookup_in.
    + by apply NoDup_written.
    + apply elem_of_blit_writes. exists x, y. done.
  - intros i Hi. apply adds_lookup_notin. intros Hin.
    apply list_elem_of_fmap in Hin as ([i' v] & -> & Hin).
    apply elem_of_blit_writes in Hin as (x & y & Hr & Hx & Hy & -> & _).
    by apply (Hi x y).
Qed.

Lemma addMatrix_cells_witness :
  let src := matrix_of_list 2 2 [num 1; num 2; num 3; num 4] in
  let dst := matrix_of_list 3 3
               [num 0; num 0; num 0; num 0; num 0; num 0; num 0; num 0; num 0] in
  width src <= height dst
  ∧ in_range src 1 0 ∧ 1 + -1 < width dst ∧ 0 + 1 < height dst
  ∧ getXY (addMatrix src dst (-1) 1) (1 + -1) (0 + 1)
    = js_add (getXY dst (1 + -1) (0 + 1)) (getXY src 1 0).
Proof.
  set (src := matrix_of_list 2 2 [num 1; num 2; num 3; num 4]).
  set (dst := matrix_of_list 3 3
               [num 0; num 0; num 0; num 0; num 0; num 0; num 0; num 0; num 0]).
  assert (H1 : width src <= height dst) by (unfold src, dst; simpl; lia).
  assert (H2 : in_range src 1 0) by (unfold in_range, src; simpl; lia).
  assert (H3 : 1 + -1 < width dst) by (unfold dst; simpl; lia).
  assert (H4 : 0 + 1 < height dst) by (unfold dst; simpl; lia).
  split; [exact H1|]. split; [exact H2|]. split; [exact H3|].
  split; [exact H4|].
  exact (proj1 (addMatrix_cells src dst (-1) 1 H1) 1 0 H2 H3 H4).
Defined.

(** X14: [blitMatrix] with a source no wider than the stride of the destination
    copies every source cell that passes the two upper-bound tests to the
    cell at the shifted coordinate and changes no other element of the
    destination. *)
Theorem blitMatrix_cells (src dst : Matrix) (ox oy : Z) :
  width src <= height dst →
  (∀ x y, in_range src x y → x + ox < width dst → y + oy < height dst →
     cells (blitMatrix src dst ox oy) !! index dst (x + ox) (y + oy)
     = Some (getXY src x y))
  ∧ (∀ i, (∀ x y, in_range src x y → x + ox < width dst →
             y + oy < height dst → i ≠ index dst (x + ox) (y + oy)) →
       cells (blitMatrix src dst ox oy) !! i = cells dst !! i).
Proof.
  intros Hw. rewrite blitMatrix_puts. split.
  - intros x y Hr Hx Hy. apply puts_lookup_in.
    + apply elem_of_blit_writes. exists x, y. done.
    + intros w Hin.
      apply elem_of_blit_writes in Hin as (x' & y' & Hr' & _ & _ & He & ->).
      destruct Hr as [Hrx Hry], Hr' as [Hrx' Hry'].
      unfold index in He. assert (y = y') by nia. subst y'.
      assert (x = x') by lia. by subst x'.
  - intros i Hi. apply puts_lookup_notin. intros Hin.
    apply list_elem_of_fmap in Hin as ([i' v] & -> & Hin).
    apply elem_of_blit_writes in Hin as (x & y & Hr & Hx & Hy & -> & _).
    by apply (Hi x y).
Qed.

Lemma blitMatrix_cells_witness :
  let src := matrix_of_list 2 2 [num 1; num 2; num 3; num 4] in
  let dst := matrix_of_list 3 3
               [num 0; num 0; num 0; num 0; num 0; num 0; num 0; num 0; num 0] in
  width src <= height dst
  ∧ in_range src 1 1 ∧ 1 + 1 < width dst ∧ 1 + 0 < height dst
  ∧ cells (blitMatrix src dst 1 0) !! index dst (1 + 1) (1 + 0)
    = Some (getXY src 1 1).
Proof.
  set (src := matrix_of_list 2 2 [num 1; num 2; num 3; num 4]).
  set (dst := matrix_of_list 3 3
               [num 0; num 0; num 0; num 0; num 0; num 0; num 0; num 0; num 0]).
  assert (H1 : width src <= height dst) by (unfold src, dst; simpl; lia).
  assert (H2 : in_range src 1 1) by (unfold in_range, src; simpl; lia).
  assert (H3 : 1 + 1 < width dst) by (unfold dst; simpl; lia).
  assert (H4 : 1 + 0 < height dst) by (unfold dst; simpl; lia).
  split; [exact H1|]. split; [exact H2|]. split; [exact H3|].
  split; [exact H4|].
  exact (proj1 (blitMatrix_cells src dst 1 0 H1) 1 1 H2 H3 H4).
Defined.

(** X15: A stamp whose offset is at or beyond the right or the lower edge of the
    destination is clipped entirely: [addMatrix] and [blitMatrix] leave the
    destination as it was. *)
Theorem stamp_clipped (src dst : Matrix) (ox oy : Z) :
  width dst <= ox ∨ height dst <= oy →
  addMatrix src dst ox oy = dst ∧ blitMatrix src dst ox oy = dst.
Proof.
  intros Hc.
  assert (Hw : blit_writes src dst ox oy = []).
  { destruct (blit_writes src dst ox oy) as [|[i v] ws] eqn:He; [done|].
    assert (Hin : (i, v) ∈ blit_writes src dst ox oy) by (rewrite He; left).
    apply elem_of_blit_writes in Hin as (x & y & [Hx Hy] & Hpx & Hpy & _).
    lia. }
  by rewrite addMatrix_adds, blitMatrix_puts, Hw.
Qed.

Lemma stamp_clipped_witness :
  let src := matrix_of_list 2 2 [num 1; num 2; num 3; num 4] in
  let dst := matrix_of_list 2 2 [num 0; num 0; num 0; num 0] in
  (width dst <= 2 ∨ height dst <= 0)
  ∧ addMatrix src dst 2 0 = dst ∧ blitMatrix src dst 2 0 = dst.
Proof.
  set (src := matrix_of_list 2 2 [num 1; num 2; num 3; num 4]).
  set (dst := matrix_of_list 2 2 [num 0; num 0; num 0; num 0]).
  assert (H : width dst <= 2 ∨ height dst <= 0)
    by (left; unfold dst; simpl; lia).
  split; [exact H|]. exact (stamp_clipped src dst 2 0 H).
Defined.

(** * The frame update *)

Lemma blob_ok : ∃ b, blob = Ok b ∧ width b = 17 ∧ height b = 17.
Proof.
  set (m0 := {| cells := filled (17 * 17) (num 0); len := 17 * 17;
                width := 17; height := 17 |}).
  assert (Hm0 : makeMatrix 17 17 Undefined = Ok m0) by reflexivity.
  assert (Hm0w : width m0 = 17) by reflexivity.
  assert (Hm0h : height m0 = 17) by reflexivity.
  assert (Hmax : maxValueOf (mapMatrix m0 falloff) = Ok (Number 1))
    by (vm_compute; reflexivity).
  unfold blob, normalizeMatrix. rewrite Hm0, !bind_Ok, Hmax, bind_Ok.
  clearbody m0. eexists. split; [reflexivity|].
  rewrite !(proj1 (mapMatrix_dims _ _)), !(proj2 (mapMatrix_dims _ _)).
  by rewrite Hm0w, Hm0h.
Qed.

Lemma nextBlob_spec (st : state) :
  ∃ b, blob = Ok b ∧
    nextBlob st
    = Ok {| matrix :=
              addMatrix b (matrix st)
                (Num.toInt32 (ToNumber (js_mul (next (rng st)).2
                                               (num (width (matrix st))))) - 16)
                (Num.toInt32 (ToNumber (js_mul (next (next (rng st)).1).2
                                               (num (height (matrix st))))) - 8);
            rng := (next (next (rng st)).1).1 |}.
Proof.
  destruct blob_ok as (b & Hb & _). exists b. split; [done|].
  unfold nextBlob. destruct (next (rng st)) as [g r1]. cbn [fst snd].
  destruct (next g) as [g2 r2]. cbn [fst snd]. by rewrite Hb, bind_Ok.
Qed.

Lemma repeat_nextBlob_spec (n : nat) (st : state) (P : Matrix → Prop) :
  (∀ b m ox oy, P m → P (addMatrix b m ox oy)) → P (matrix st) →
  ∃ st1, repeat_nextBlob n st = Ok st1
    ∧ rng st1 = (draws (2 * n) (rng st)).1
    ∧ width (matrix st1) = width (matrix st)
    ∧ height (matrix st1) = height (matrix st)
    ∧ P (matrix st1).
Proof.
  intros HP. revert st. induction n as [|n IH]; intros st Hst.
  - exists st. done.
  - destruct (nextBlob_spec st) as (b & Hb & Hn).
    cbn [repeat_nextBlob]. rewrite Hn, bind_Ok.
    edestruct IH as (st1 & H1 & Hr & Hw & Hh & Hp);
      [|exists st1; split; [exact H1|]].
    { cbn [matrix]. by apply HP. }
    cbn [matrix rng] in *.
    replace (2 * S n)%nat with (S (S (2 * n))) by lia.
    rewrite !draws_S. cbn [fst].
    rewrite Hr, Hw, Hh, !(proj1 (addMatrix_dims _ _ _ _)),
      !(proj2 (addMatrix_dims _ _ _ _)).
    split; [reflexivity|]. split; [reflexivity|]. split; [reflexivity|].
    exact Hp.
Qed.



Lemma adds_nan (ws : list (Z * value)) (m : Matrix) (i : Z) :
  ToNumber (get m i) = nan → ToNumber (get (adds ws m) i) = nan.
Proof.
  revert m. induction ws as [|[j w] ws IH]; intros m Hm; [done|].
  rewrite adds_cons. apply IH. unfold add1. cbn [fst snd].
  destruct (decide (j = i)) as [->|Hne].
  - rewrite get_put. simpl. rewrite Hm. apply add_nan_l.
  - by rewrite get_put_ne.
Qed.

Lemma mapMatrix_nan (m : Matrix) (f : value → value) (i : Z) :
  (∀ v, ToNumber v = nan → ToNumber (f v) = nan) →
  ToNumber (get m i) = nan →
  ToNumber (get (mapMatrix m (λ v _ _, f v)) i) = nan.
Proof.
  intros Hf Hm. rewrite mapMatrix_puts.
  destruct (decide (i ∈ (map_writes m (λ v _ _, f v)).*1)) as [Hi|Hi].
  - apply list_elem_of_fmap in Hi as ([i' v] & -> & Hi). cbn [fst].
    pose proof Hi as Hi'.
    apply elem_of_map_writes in Hi' as (x & y & _ & -> & ->).
    unfold get at 1. rewrite (puts_lookup_in _ _ _ (f (getXY m x y))).
    + apply Hf, Hm.
    + done.
    + intros w Hw. apply elem_of_map_writes in Hw as (x' & y' & _ & He & ->).
      unfold getXY, index in *. by rewrite He.
  - unfold get at 1. rewrite puts_lookup_notin, copyMatrix_lookup by done.
    destruct (decide (0 <= i < len m)); [exact Hm|reflexivity].
Qed.

(** X17: NaN is absorbing in the grid: an element of the matrix that is NaN (or
    missing, which reads as [undefined]) is still so after a frame, however
    many kernels are stamped over it, and after a click on the button. *)
Theorem nan_cell_stays (pow : float → float → float) (st st' : state) (i : Z) :
  ToNumber (get (matrix st) i) = nan →
  (∀ contrast velocity attenuation drawn,
     animate pow contrast velocity attenuation st = Ok (drawn, st') →
     ToNumber (get (matrix st') i) = nan)
  ∧ (renormalize st = Ok st' → ToNumber (get (matrix st') i) = nan).
Proof.
  intros Hnan. split.
  - intros c v a d. unfold animate.
    destruct (repeat_nextBlob_spec (Z.to_nat v) st
                (λ m, ToNumber (get m i) = nan))
      as (st1 & H1 & _ & _ & _ & Hp); [|done|].
    { intros b m ox oy Hm. rewrite addMatrix_adds. by apply adds_nan. }
    rewrite H1, bind_Ok.
    destruct (normalizeMatrix (matrix st1)) as [n|]; [|done].
    rewrite bind_Ok. intros [= _ <-]. cbn [matrix].
    apply (mapMatrix_nan _ (λ v, js_mul v _)); [|done].
    intros w Hw. simpl. rewrite Hw. apply mul_nan_l.
  - unfold renormalize, normalizeMatrix.
    destruct (maxValueOf (matrix st)) as [mx|]; [|done].
    rewrite !bind_Ok. intros [= <-]. cbn [matrix].
    apply (mapMatrix_nan _ (λ v, js_div v mx)); [|done].
    intros w Hw. simpl. rewrite Hw. apply div_nan_l.
Qed.

Lemma nan_cell_stays_witness :
  let st := {| matrix := matrix_of_list 2 2 [num 1; Number nan; num 1; num 1];
               rng := constructor [num 100; num 100; num 100] |} in
  ToNumber (get (matrix st) 1) = nan
  ∧ ∃ st', renormalize st = Ok st' ∧ ToNumber (get (matrix st') 1) = nan.
Proof.
  set (st := {| matrix := matrix_of_list 2 2 [num 1; Number nan; num 1; num 1];
               rng := constructor [num 100; num 100; num 100] |}).
  assert (H1 : ToNumber (get (matrix st) 1) = nan) by reflexivity.
  split; [exact H1|].
  destruct (renormalize st) as [st'|e] eqn:H.
  - exists st'. split; [reflexivity|].
    exact (proj2 (nan_cell_stays (λ x _, x) st st' 1 H1) H).
  - exfalso. vm_compute in H. discriminate H.
Defined.

(** * Normalization *)

Lemma div_zero_l (s : bool) (c fm : float) (mm : positive) (em : Z) :
  Prim2SF c = S754_zero s → Prim2SF fm = S754_finite false mm em →
  Prim2SF (c / fm) = S754_zero s.
Proof.
  intros Hc Hm. rewrite div_spec, Hc, Hm. by destruct s.
Qed.

Lemma div_unit_range (c fm : float) :
  Num.is_finite c = true → Num.is_finite fm = true →
  0 <= Fval c → 0 < Fval fm → Fval c <= Fval fm →
  (0 <=? c / fm)%float = true ∧ (c / fm <=? 1)%float = true.
Proof.
  intros Hc Hm Hc0 Hpos Hle.
  destruct (Fval_pos_cases fm Hm Hpos) as (mm & em & Hsm & Hbm & Hvm).
  assert (Hq : Prim2SF (c / fm) ≠ S754_nan ∧ 0 <= Fval (c / fm) <= 2 ^ 1074).
  { destruct (is_finite_cases c Hc) as [[s Hs]|(s & mc & ec & Hs & Hb)].
    - pose proof (div_zero_l s c fm mm em Hs Hsm) as Hz.
      unfold Fval. rewrite Hz. cbn [SFval]. split; [done|].
      split; [lia|]. apply Z.pow_nonneg. lia.
    - assert (s = false) as ->.
      { destruct s; [|done]. unfold Fval in Hc0. rewrite Hs in Hc0.
        cbn [SFval cond_Zopp] in Hc0.
        pose proof (finite_val_bounds mc ec Hb). lia. }
      assert (Hnc : nonneg c = true) by (unfold nonneg; by rewrite Hs).
      assert (Hnm : nonneg fm = true) by (unfold nonneg; by rewrite Hsm).
      destruct (div_nonneg_le_one c fm Hnc Hnm Hpos Hle) as [Hn Hl].
      split; [by apply nonneg_not_nan|].
      split; [by apply nonneg_Fval|done]. }
  destruct Hq as (Hnan & H0 & H1).
  rewrite !leb_val by (done || (vm_compute; discriminate)).
  change (Fval 0) with 0. change (Fval 1) with (2 ^ 1074).
  split; apply Z.leb_le; done.
Qed.

(** X18: Normalizing a square matrix of finite Numbers that are all at least 0,
    one of them greater than 0, succeeds, and every cell of the result is a
    Number between 0 and 1. *)
Theorem normalize_unit_range (m : Matrix) :
  finite_square m →
  (∀ i, 0 <= i < len m → js_ge (get m i) (num 0) = true) →
  (∃ i, 0 <= i < len m ∧ js_gt (get m i) (num 0) = true) →
  ∃ n, normalizeMatrix m = Ok n
    ∧ ∀ x y, in_range m x y →
        ∃ f, getXY n x y = Number f
          ∧ (0 <=? f)%float = true ∧ (f <=? 1)%float = true.
Proof.
  intros Hfin Hge (i0 & Hi0 & Hgt0).
  pose proof Hfin as (Hnn & Hsq & Hlen & Hcells).
  assert (Hval : ∀ i, 0 <= i < len m →
            ∃ f, get m i = Number f ∧ Num.is_finite f = true ∧ 0 <= Fval f).
  { intros i Hi. destruct (Hcells i Hi) as (f & Hf & Hff).
    exists f. unfold get. rewrite Hf. split; [done|]. split; [done|].
    specialize (Hge i Hi). unfold get, js_ge in Hge. rewrite Hf in Hge.
    simpl in Hge.
    rewrite leb_val in Hge
      by ((vm_compute; discriminate) || by apply is_finite_not_nan).
    apply Z.leb_le in Hge. exact Hge. }
  destruct (maxValueOf_spec m ltac:(lia)) as (r & Hr & (j & Hj & Hgj) & Hle).
  { intros i Hi. destruct (Hcells i Hi) as (f & Hf & Hff).
    unfold get. rewrite Hf. split; [|done].
    exists f. split; [done|]. by apply is_finite_not_nan. }
  destruct (Hval j Hj) as (fmax & Hfj & Hfin_max & _).
  rewrite Hfj in Hgj. subst r.
  assert (Hpos : 0 < Fval fmax).
  { destruct (Hcells i0 Hi0) as (f0 & Hf0 & Hff0).
    specialize (Hle i0 Hi0). unfold get, js_gt in Hgt0, Hle.
    rewrite Hf0 in Hgt0, Hle. simpl in Hgt0, Hle.
    rewrite ltb_val in Hgt0
      by ((vm_compute; discriminate) || by apply is_finite_not_nan).
    apply Z.ltb_lt in Hgt0. change (Fval (Num.Z2F 0)) with 0 in Hgt0. lia. }
  exists (mapMatrix m (λ x _ _, js_div x (Number fmax))). split.
  { unfold normalizeMatrix. by rewrite Hr. }
  intros x y Hxy. rewrite mapMatrix_square_getXY by done.
  pose proof (square_index_range m Hnn Hsq Hlen x y Hxy) as Hi.
  destruct (Hval _ Hi) as (f & Hf & Hff & Hf0).
  specialize (Hle _ Hi). unfold getXY. unfold index in *. rewrite Hf in *.
  simpl in Hle. eexists. split; [reflexivity|].
  by apply div_unit_range.
Qed.

Lemma normalize_unit_range_witness :
  let m := matrix_of_list 2 2 [num 0; num 2; num 4; num 1] in
  finite_square m
  ∧ (∀ i, 0 <= i < len m → js_ge (get m i) (num 0) = true)
  ∧ (∃ i, 0 <= i < len m ∧ js_gt (get m i) (num 0) = true)
  ∧ ∃ n, normalizeMatrix m = Ok n
      ∧ ∃ f, getXY n 1 0 = Number f
          ∧ (0 <=? f)%float = true ∧ (f <=? 1)%float = true.
Proof.
  set (m := matrix_of_list 2 2 [num 0; num 2; num 4; num 1]).
  assert (Hc : ∀ i, 0 <= i < len m → i = 0 ∨ i = 1 ∨ i = 2 ∨ i = 3).
  { intros i Hi. change (len m) with 4 in Hi. lia. }
  assert (H1 : finite_square m).
  { split; [unfold m; simpl; lia|]. split; [reflexivity|].
    split; [reflexivity|]. intros i Hi.
    destruct (Hc i Hi) as [->|[->|[->| ->]]];
      (eexists; split; [vm_compute; reflexivity|vm_compute; reflexivity]). }
  assert (H2 : ∀ i, 0 <= i < len m → js_ge (get m i) (num 0) = true).
  { intros i Hi.
    destruct (Hc i Hi) as [->|[->|[->| ->]]]; vm_compute; reflexivity. }
  assert (H3 : ∃ i, 0 <= i < len m ∧ js_gt (get m i) (num 0) = true).
  { exists 1. split; [unfold m; simpl; lia|vm_compute; reflexivity]. }
  split; [exact H1|]. split; [exact H2|]. split; [exact H3|].
  destruct (normalize_unit_range m H1 H2 H3) as (n & Hn & Hr).
  exists n. split; [exact Hn|]. apply Hr. unfold in_range, m; simpl; lia.
Defined.

Lemma max_zeros (vs : list value) :
  (∀ v, v ∈ vs → v = num 0) →
  foldl (λ x y, if js_gt x y then x else y) (num 0) vs = num 0.
Proof.
  induction vs as [|y vs IH]; intros Hz; [done|].
  cbn [foldl]. rewrite (Hz y) by left.
  change (js_gt (num 0) (num 0)) with false. cbv iota.
  apply IH. intros v Hv. apply Hz. by right.
Qed.

(** X19: A click on the button before anything was stamped divides zero by zero:
    on a fresh grid of [width >= height >= 1] the handler succeeds and turns
    each of the first [(height - 1) * height + width] cells, the ones a map
    reaches, into NaN. *)
Theorem renormalize_fresh_grid (w h : Z) (g : WichmannHillGenerator) :
  1 <= h <= w → w * h < 2 ^ 32 →
  ∃ m st', makeMatrix w h Undefined = Ok m
    ∧ renormalize {| matrix := m; rng := g |} = Ok st'
    ∧ rng st' = g
    ∧ ∀ i, 0 <= i < (h - 1) * h + w → get (matrix st') i = Number nan.
Proof.
  intros Hd H32.
  set (m := {| cells := filled (w * h) (num 0); len := w * h;
               width := w; height := h |}).
  assert (Hm : makeMatrix w h Undefined = Ok m).
  { unfold makeMatrix.
    assert (H0 : 0 <= w * h) by nia.
    apply Z.leb_le in H0. apply Z.ltb_lt in H32. by rewrite H0, H32. }
  assert (Hget : ∀ i, 0 <= i < w * h → cells m !! i = Some (num 0)).
  { intros i Hi. unfold m. cbn [cells]. rewrite filled_lookup.
    by rewrite decide_True. }
  assert (Hmax : maxValueOf m = Ok (num 0)).
  { unfold maxValueOf. rewrite elements_dense.
    2:{ intros i Hi. rewrite Hget by exact Hi. eauto. }
    assert (Hall : ∀ v, v ∈ get m <$> seqZ 0 (len m) → v = num 0).
    { intros v Hv. apply list_elem_of_fmap in Hv as (i & -> & Hi).
      apply elem_of_seqZ in Hi. unfold get. rewrite Hget; [done|].
      change (len m) with (w * h) in Hi. lia. }
    destruct (get m <$> seqZ 0 (len m)) as [|v vs] eqn:He.
    { apply fmap_nil_inv in He.
      assert (0 ∈ seqZ 0 (len m)) as Hin.
      { apply elem_of_seqZ. change (len m) with (w * h). nia. }
      rewrite He in Hin. by apply elem_of_nil in Hin. }
    rewrite (Hall v) by left. f_equal. apply max_zeros.
    intros u Hu. apply Hall. by right. }
  exists m. eexists. split; [exact Hm|].
  unfold renormalize, normalizeMatrix. cbn [matrix rng].
  rewrite Hmax, !bind_Ok. split; [reflexivity|]. split; [reflexivity|].
  intros i Hi. cbn [matrix]. unfold get at 1.
  rewrite (mapMatrix_wide_lookup m (λ v, js_div v (num 0)))
    by (unfold m; cbn [width height len]; done).
  change (height m) with h. change (width m) with w.
  rewrite decide_True by done. cbn [default].
  unfold get. rewrite Hget by nia. reflexivity.
Qed.

Lemma renormalize_fresh_grid_witness :
  1 <= 150 <= 300 ∧ 300 * 150 < 2 ^ 32
  ∧ ∃ m st', makeMatrix 300 150 Undefined = Ok m
      ∧ renormalize {| matrix := m;
                       rng := constructor [num 100; num 100; num 100] |}
        = Ok st'
      ∧ get (matrix st') 0 = Number nan.
Proof.
  assert (H1 : 1 <= 150 <= 300) by lia.
  assert (H2 : 300 * 150 < 2 ^ 32) by done.
  split; [exact H1|]. split; [exact H2|].
  destruct (renormalize_fresh_grid 300 150
              (constructor [num 100; num 100; num 100]) H1 H2)
    as (m & st' & Hm & Hr & _ & Hc).
  exists m, st'. split; [exact Hm|]. split; [exact Hr|]. apply Hc. lia.
Defined.
